(** * Astral: a scroll-driven orbital-collision visualisation

    A shallow embedding of the numerical core of [src/Astral.jsx]: the math
    helpers, the orbital kinematics, the scroll-progress tracker and the
    per-frame update of the scene engine ([AstralEngine], and the earlier
    [AstralScene] where the two differ).

    JavaScript numbers are modelled as real numbers: [Math.sin], [Math.cos],
    [Math.exp], [Math.pow] and [Math.sqrt] are the functions of the Standard
    Library's [Reals], and a comparison in the source is a decision
    ([Rlt_dec] and the like) here.  Rounding error of IEEE doubles is outside
    this model. *)

From Stdlib Require Import Reals Lra Lia ZArith List Bool Psatz.
Import ListNotations.
Open Scope R_scope.

(* ================================================================== *)
(** * Part I: the embedding                                            *)
(* ================================================================== *)

(** ** Numeric tests

    The boolean outcome of the source's [<], [>] and [===] on numbers. *)

Definition Rltb (x y : R) : bool := if Rlt_dec x y then true else false.
Definition Rgtb (x y : R) : bool := Rltb y x.
Definition Reqb (x y : R) : bool := if Req_dec_T x y then true else false.

(** ** Design constants (section 1 of the engine file) *)

Definition EARTH_RADIUS : R := 2.2.
Definition CAM_DIST : R := 8.5.
Definition SAT_POOL : Z := 200.
Definition DEBRIS_N : nat := 1400.

(** [PHASES = { P0: 0, P1: 0.2, P2: 0.4, P3: 0.6, P4: 0.8 }] *)
Module PHASES.
Definition P0 : R := 0.
Definition P1 : R := 0.2.
Definition P2 : R := 0.4.
Definition P3 : R := 0.6.
Definition P4 : R := 0.8.
End PHASES.

(** [FOV_MAP = [50, 62, 36, 30, 44]] *)
Definition FOV_MAP : list R := [50; 62; 36; 30; 44].

(** ** Math helpers (section 2 of the engine file) *)

(** [clamp = (v, lo = 0, hi = 1) => Math.max(lo, Math.min(hi, v))];
    [clamp01] is the call with both defaults. *)
Definition clamp (v lo hi : R) : R := Rmax lo (Rmin hi v).
Definition clamp01 (v : R) : R := clamp v 0 1.

(** [remap = (v, a, b) => clamp((v - a) / (b - a))] *)
Definition remap (v a b : R) : R := clamp01 ((v - a) / (b - a)).

(** [lerp = (a, b, t) => a + (b - a) * t] *)
Definition lerp (a b t : R) : R := a + (b - a) * t.

(** [smootherstep = t => t * t * t * (t * (t * 6 - 15) + 10)] *)
Definition smootherstep (t : R) : R := t * t * t * (t * (t * 6 - 15) + 10).

(** [outExpo = t => t === 1 ? 1 : 1 - Math.pow(2, -10 * t)] *)
Definition outExpo (t : R) : R :=
  if Reqb t 1 then 1 else 1 - Rpower 2 (-10 * t).

(** [Math.round]: the nearest integer, a tie going up. *)
Definition round (x : R) : Z := Zfloor (x + / 2).

(** ** The seeded generator

    [prng = (seed = 42) => { let s = seed; return () => { s = (s * 1664525 +
    1013904223) & 0xffffffff; return (s >>> 0) / 0xffffffff; }; }].
    [& 0xffffffff] leaves a signed 32-bit integer in [s]; [>>> 0] reads it
    as unsigned.  The products stay below 2^53, so they are exact. *)

Definition toInt32 (z : Z) : Z :=
  ((z + 2147483648) mod 4294967296 - 2147483648)%Z.

Definition toUint32 (z : Z) : Z := (z mod 4294967296)%Z.

Definition prng_next (s : Z) : Z := toInt32 (s * 1664525 + 1013904223).

(** One draw: the new state and the returned number. *)
Definition prng_draw (s : Z) : Z * R :=
  let s' := prng_next s in (s', IZR (toUint32 s') / 4294967295).

(** A computation that draws from the generator threads its state. *)
Definition Rng (A : Type) : Type := Z -> A * Z.

Definition rret {A} (a : A) : Rng A := fun s => (a, s).

Definition rbind {A B} (m : Rng A) (k : A -> Rng B) : Rng B :=
  fun s => let (a, s') := m s in k a s'.

Definition rng : Rng R := fun s => let (s', x) := prng_draw s in (x, s').

Notation "x <- m ;; k" := (rbind m (fun x => k))
  (at level 61, m at next level, right associativity).

(** [forEach] over an array with a generator in hand. *)
Fixpoint rmap {A B} (f : A -> Rng B) (l : list A) : Rng (list B) :=
  match l with
  | [] => rret []
  | a :: l' => b <- f a ;; bs <- rmap f l' ;; rret (b :: bs)
  end.

(** ** Vectors

    The methods of three.js's [Vector3] and [Spherical] that the engine
    calls, with the library's meaning. *)

Record Vec3 : Type := mkVec3 { vx : R; vy : R; vz : R }.

Definition vzero : Vec3 := mkVec3 0 0 0.

(** [a.add(b)] and [v.addVectors(a, b)] *)
Definition vadd (a b : Vec3) : Vec3 :=
  mkVec3 (vx a + vx b) (vy a + vy b) (vz a + vz b).

(** [v.multiplyScalar(k)] *)
Definition multiplyScalar (v : Vec3) (k : R) : Vec3 :=
  mkVec3 (vx v * k) (vy v * k) (vz v * k).

(** [v.length()] *)
Definition vlength (v : Vec3) : R :=
  sqrt (vx v * vx v + vy v * vy v + vz v * vz v).

(** [a.distanceTo(b)] *)
Definition distance (a b : Vec3) : R :=
  vlength (mkVec3 (vx a - vx b) (vy a - vy b) (vz a - vz b)).

(** [v.normalize()] is [v.divideScalar(v.length() || 1)]: the zero vector
    is divided by 1 and stays zero. *)
Definition normalize (v : Vec3) : Vec3 :=
  let l := if Reqb (vlength v) 0 then 1 else vlength v in
  multiplyScalar v (/ l).

(** [v.setLength(l)] is [v.normalize().multiplyScalar(l)]. *)
Definition setLength (v : Vec3) (l : R) : Vec3 :=
  multiplyScalar (normalize v) l.

(** [a.lerp(b, alpha)] *)
Definition vlerp (a b : Vec3) (alpha : R) : Vec3 :=
  mkVec3 (vx a + (vx b - vx a) * alpha)
         (vy a + (vy b - vy a) * alpha)
         (vz a + (vz b - vz a) * alpha).

(** [v.crossVectors(a, b)] *)
Definition crossVectors (a b : Vec3) : Vec3 :=
  mkVec3 (vy a * vz b - vz a * vy b)
         (vz a * vx b - vx a * vz b)
         (vx a * vy b - vy a * vx b).

(** The scalar product [a.dot(b)]. *)
Definition dot (a b : Vec3) : R := vx a * vx b + vy a * vy b + vz a * vz b.

(** [THREE.Spherical]: [radius], polar angle [phi] from the y axis, azimuth
    [theta] around it. *)
Record Spherical : Type := mkSph { radius : R; phi : R; theta : R }.

(** [v.setFromSpherical(s)] *)
Definition setFromSpherical (s : Spherical) : Vec3 :=
  let sinPhiRadius := sin (phi s) * radius s in
  mkVec3 (sinPhiRadius * sin (theta s))
         (cos (phi s) * radius s)
         (sinPhiRadius * cos (theta s)).

(** [Math.atan2(y, x)] *)
Definition atan2 (y x : R) : R :=
  if Rltb 0 x then atan (y / x)
  else if Rltb x 0 then
         (if Rltb y 0 then atan (y / x) - PI else atan (y / x) + PI)
  else if Rltb 0 y then PI / 2
  else if Rltb y 0 then - (PI / 2)
  else 0.

(** [new THREE.Spherical().setFromVector3(v)] *)
Definition setFromVector3 (v : Vec3) : Spherical :=
  let r := vlength v in
  if Reqb r 0 then mkSph r 0 0
  else mkSph r (acos (clamp (vy v / r) (-1) 1)) (atan2 (vx v) (vz v)).

(** ** Orbital kinematics *)

(** [orbitPos = (radius, inc, asc, angle) => ...] *)
Definition orbitPos (radius inc asc angle : R) : Vec3 :=
  let x0 := cos angle * radius in
  let z0 := sin angle * radius in
  let y1 := - z0 * sin inc in
  let z1 := z0 * cos inc in
  mkVec3 (x0 * cos asc - z1 * sin asc) y1 (x0 * sin asc + z1 * cos asc).

(** A satellite as [generateSats] builds it (and the two danger
    satellites, without [id], [oi] and [size]). *)
Record Sat : Type := mkSat {
  s_r : R; s_inc : R; s_asc : R; s_phase : R; s_speed : R
}.

(** [satPos = (s, t) => orbitPos(s.r, s.inc, s.asc, s.phase + s.speed * t)] *)
Definition satPos (s : Sat) (t : R) : Vec3 :=
  orbitPos (s_r s) (s_inc s) (s_asc s) (s_phase s + s_speed s * t).

(** ** The satellite pool *)

(** An entry of [ORBIT_DEFS] (its colour and line width left out). *)
Record OrbitDef : Type := mkOrbit { o_r : R; o_inc : R; o_asc : R }.

Definition ORBIT_DEFS : list OrbitDef :=
  [ mkOrbit 1.22 0.20 0.0;
    mkOrbit 1.30 (-0.35) 0.8;
    mkOrbit 1.36 0.50 1.6;
    mkOrbit 1.42 (-0.15) 2.4;
    mkOrbit 1.48 0.65 3.2;
    mkOrbit 1.54 (-0.45) 4.0;
    mkOrbit 1.60 0.30 4.8;
    mkOrbit 1.66 (-0.55) 5.5;
    mkOrbit 1.72 0.40 0.5;
    mkOrbit 1.78 (-0.25) 1.2;
    mkOrbit 1.84 0.55 2.0;
    mkOrbit 1.90 (-0.40) 2.8 ].

(** The inner [for] of [generateSats] on orbit [o]: [k] rounds are left,
    [j] is the loop counter, and a round runs only while fewer than
    [SAT_POOL] satellites exist.  Each satellite draws its phase, speed and
    size, in this order; [id] is the length of [sats]. *)
Fixpoint fillOrbit (o : OrbitDef) (n k j : nat) (sats : list Sat)
  : Rng (list Sat) :=
  match k with
  | O => rret sats
  | S k' =>
      if (Z.of_nat (length sats) <? SAT_POOL)%Z then
        a <- rng ;; b <- rng ;; c <- rng ;;
        fillOrbit o n k' (S j)
          (sats ++ [mkSat (EARTH_RADIUS * o_r o) (o_inc o) (o_asc o)
                          (INR j / INR n * PI * 2 + a * 0.4)
                          (0.08 + b * 0.08)])
      else rret sats
  end.

(** [orbits.forEach((o, oi) => ...)]: one satellite on each of the first
    four orbits, [many] on each of the others. *)
Fixpoint eachOrbit (many : nat) (orbits : list OrbitDef) (oi : nat)
         (sats : list Sat) : Rng (list Sat) :=
  match orbits with
  | [] => rret sats
  | o :: rest =>
      let n := if (oi <? 4)%nat then 1%nat else many in
      sats' <- fillOrbit o n n 0 sats ;;
      eachOrbit many rest (S oi) sats'
  end.

(** The [while] that tops the pool up: [k] satellites are missing, each on
    an orbit picked by [Math.floor(rng() * orbits.length)].  An index
    outside the array makes [o] undefined and [o.r] throw: [None]. *)
Fixpoint topUp (orbits : list OrbitDef) (k : nat) (sats : list Sat)
  : Rng (option (list Sat)) :=
  match k with
  | O => rret (Some sats)
  | S k' =>
      x <- rng ;;
      match nth_error orbits (Z.to_nat (Zfloor (x * INR (length orbits)))) with
      | None => rret None
      | Some o =>
          a <- rng ;; b <- rng ;; c <- rng ;;
          topUp orbits k'
            (sats ++ [mkSat (EARTH_RADIUS * o_r o) (o_inc o) (o_asc o)
                            (a * PI * 2) (0.08 + b * 0.08)])
      end
  end.

(** [generateSats(orbits, rng)] *)
Definition generateSats (orbits : list OrbitDef) : Rng (option (list Sat)) :=
  let many := Z.to_nat (Zceil (IZR SAT_POOL / INR (length orbits))) in
  sats <- eachOrbit many orbits 0 [] ;;
  r <- topUp orbits (Z.to_nat (SAT_POOL - Z.of_nat (length sats))) sats ;;
  rret (option_map (firstn (Z.to_nat SAT_POOL)) r).

(** [this.satData = generateSats(ORBIT_DEFS, prng(13))] *)
Definition satData : option (list Sat) := fst (generateSats ORBIT_DEFS 13%Z).

(** A satellite sits on one of the given orbits. *)
Definition on_orbit_of (orbits : list OrbitDef) (s : Sat) : Prop :=
  exists o, In o orbits /\ s_r s = EARTH_RADIUS * o_r o.

(** No draw among the next [n] from state [s] is exactly 1. *)
Fixpoint draws_below_one (n : nat) (s : Z) : bool :=
  match n with
  | O => true
  | S n' =>
      negb (toUint32 (prng_next s) =? 4294967295)%Z
      && draws_below_one n' (prng_next s)
  end.

(** How many satellites [eachOrbit] places when the pool limit is not
    reached. *)
Fixpoint orbitCount (many : nat) (orbits : list OrbitDef) (oi : nat) : nat :=
  match orbits with
  | [] => 0
  | _ :: rest =>
      ((if (oi <? 4)%nat then 1 else many) + orbitCount many rest (S oi))%nat
  end.

(** The generator's state after the three draws of one satellite. *)
Definition prng_next3 (s : Z) : Z := prng_next (prng_next (prng_next s)).

(** ** More of the math section *)

(** [spring(current, target, velocity, stiffness = 0.08, damping = 0.7)]:
    the new value and the new velocity. *)
Definition spring (current target velocity stiffness damping : R) : R * R :=
  let force := (target - current) * stiffness in
  let newVel := (velocity + force) * damping in
  (current + newVel, newVel).

(** [randOnSphere(r, rng)]: two draws, the azimuth and the cosine of the
    polar angle. *)
Definition randOnSphere (r : R) : Rng Vec3 :=
  a <- rng ;; b <- rng ;;
  let th := a * PI * 2 in
  let ph := acos (2 * b - 1) in
  rret (mkVec3 (r * sin ph * cos th) (r * cos ph) (r * sin ph * sin th)).

(** [buildStars()]: position, size, alpha and twinkle rate of a star; the
    radius is drawn before [randOnSphere] draws its angles. *)
Record Star : Type := mkStar {
  star_pos : Vec3;
  star_size : R;
  star_alpha : R;
  star_twinkle : R
}.

Definition buildStar : Rng Star :=
  a <- rng ;; v <- randOnSphere (85 + a * 100) ;;
  sz <- rng ;; al <- rng ;; tw <- rng ;;
  rret (mkStar v (sz * 2.0 + 0.3) (al * 0.6 + 0.4) (0.15 + tw * 1.5)).

(** [n] elements built in order from one generator (a counted [for] that
    fills an array). *)
Fixpoint rtimes {A} (n : nat) (m : Rng A) : Rng (list A) :=
  match n with
  | O => rret []
  | S n' => a <- m ;; l <- rtimes n' m ;; rret (a :: l)
  end.

Definition buildStars : list Star := fst (rtimes 5000 buildStar 99%Z).

(** ** Chapters *)

(** [getChapter(p)]; the same chain of tests is written out in both frame
    loops and in the scroll tracker's [tick]. *)
Definition getChapter (p : R) : nat :=
  if Rltb p PHASES.P1 then 0%nat
  else if Rltb p PHASES.P2 then 1%nat
  else if Rltb p PHASES.P3 then 2%nat
  else if Rltb p PHASES.P4 then 3%nat
  else 4%nat.

(** [arr.forEach((x, i) => ...)] rebuilding each element from its index. *)
Fixpoint mapi_from {A B} (f : nat -> A -> B) (i : nat) (l : list A) : list B :=
  match l with
  | [] => []
  | a :: l' => f i a :: mapi_from f (S i) l'
  end.

Definition mapi {A B} (f : nat -> A -> B) (l : list A) : list B :=
  mapi_from f 0 l.

(** Where an object that must not be seen is put. *)
Definition parked : Vec3 := mkVec3 9999 9999 9999.

(** ** The scroll-progress tracker ([useLocoScroll]) *)

Module LocoScroll.

Record ScrollState : Type := mkScroll {
  raw : R;
  smooth : R;
  velocity : R;
  scrolling : bool;
  chapter : nat
}.

(** The refs start at 0 / [false], the chapter state at 0. *)
Definition init : ScrollState := mkScroll 0 0 0 false 0.

(** [onScroll]: [max] is [el.scrollHeight - window.innerHeight]. *)
Definition onScroll (scrollY scrollHeight innerHeight : R)
           (st : ScrollState) : ScrollState :=
  let max := scrollHeight - innerHeight in
  mkScroll (if Rgtb max 0 then clamp01 (scrollY / max) else 0)
           (smooth st) (velocity st) true (chapter st).

(** The idle timer firing, [SCROLL_IDLE_MS] after the last scroll event. *)
Definition onIdle (st : ScrollState) : ScrollState :=
  mkScroll (raw st) (smooth st) (velocity st) false (chapter st).

(** One animation frame of the smoothing loop. *)
Definition tick (st : ScrollState) : ScrollState :=
  let delta := raw st - smooth st in
  let speed := if Rgtb (Rabs delta) 0.06 then 0.055 else 0.028 in
  let prev := smooth st in
  let smooth1 := smooth st + delta * speed in
  let velocity1 := smooth1 - prev in
  let smooth2 := if Rltb (Rabs delta) 0.00003 then raw st else smooth1 in
  mkScroll (raw st) smooth2 velocity1 (scrolling st) (getChapter smooth2).

(** [n] frames with no scroll event in between. *)
Fixpoint ticks (n : nat) (st : ScrollState) : ScrollState :=
  match n with
  | O => st
  | S n' => ticks n' (tick st)
  end.

(** What can happen to the tracker: a scroll event with the page geometry
    of that moment, the idle timer, or an animation frame. *)
Inductive Event : Type :=
| Scroll (scrollY scrollHeight innerHeight : R)
| Idle
| Tick.

Definition handle (ev : Event) (st : ScrollState) : ScrollState :=
  match ev with
  | Scroll y h ih => onScroll y h ih st
  | Idle => onIdle st
  | Tick => tick st
  end.

Definition run (evs : list Event) (st : ScrollState) : ScrollState :=
  fold_left (fun st ev => handle ev st) evs st.

(** Both progress values in the unit interval. *)
Definition unit_state (st : ScrollState) : Prop :=
  0 <= raw st <= 1 /\ 0 <= smooth st <= 1.

End LocoScroll.

(** ** The scene engine ([AstralEngine]) *)

Module Engine.

(** *** Scene data *)

(** The collision pair: [dangerOrbitA], [dangerOrbitB] with the phase and
    speed [_initSats] gives [dA] and [dB]. *)
Definition dA : Sat := mkSat (EARTH_RADIUS * 1.42) 0.35 0.4 0 0.2.
Definition dB : Sat :=
  mkSat (EARTH_RADIUS * 1.42) (-0.3) 0.4 (PI * 0.82) 0.23.

(** One row of [camLocked]: the framing a chapter locks the camera to. *)
Record Locked : Type := mkLocked { l_th : R; l_ph : R; l_d : R }.

Definition camLocked : list Locked :=
  [ mkLocked 0 (PI / 2 - 0.08) CAM_DIST;
    mkLocked 0.3 (PI / 2) (CAM_DIST + 1.5);
    mkLocked 0.1 (PI / 2 - 0.12) (CAM_DIST - 1.5);
    mkLocked 0 (PI / 2 + 0.08) (CAM_DIST - 3.0);
    mkLocked 0 (PI / 2) (CAM_DIST + 0.5) ].

(** A debris particle; [col] is kept as the hue and lightness handed to
    [setHSL] (the saturation is the constant 0.95). *)
Record Particle : Type := mkParticle {
  pos : Vec3;
  vel : Vec3;
  life : R;
  size : R;
  col_h : R;
  col_l : R;
  active : bool
}.

(** A disintegration fragment: position, velocity, life, and what its
    mesh and material show. *)
Record Fragment : Type := mkFragment {
  f_pos : Vec3;
  f_vel : Vec3;
  f_life : R;
  f_visible : bool;
  f_opacity : R;
  f_emissive : R
}.

(** *** Engine state *)

(** What [ThreeCanvas] pushes into the engine through its setters before
    a frame. *)
Record Inputs : Type := mkInputs {
  progress : R;
  isScrolling : bool;
  isDragging : bool;
  dragDX : R;
  dragDY : R;
  scrollVelocity : R
}.

Record CameraRig : Type := mkRig {
  currentFov : R;
  camSph : Spherical;
  camTarget : Spherical;
  camUserTheta : R;
  camUserPhi : R;
  camFree : bool;
  shakeOn : bool;
  shakeT : R;
  cameraPos : Vec3
}.

Record CollisionState : Type := mkCollision {
  collisionDone : bool;
  collisionTime : R;
  collisionPt : Vec3;
  collisionR : R
}.

(** The danger pair as drawn: both meshes and both glow sprites share one
    visibility, both ring overlays one opacity. *)
Record DangerView : Type := mkDanger {
  dVisible : bool;
  dMeshPosA : Vec3;
  dMeshPosB : Vec3;
  dRingOpacity : R
}.

(** The debris particles, the position attribute sent to the GPU, and the
    opacity uniform [uOp] of the Kessler cloud. *)
Record DebrisSys : Type := mkDebris {
  debrisP : list Particle;
  posBuf : list Vec3;
  kesslerOp : R
}.

Record ColLight : Type := mkColLight {
  cl_intensity : R;
  cl_position : Vec3
}.

Record Engine : Type := mkEngine {
  inp : Inputs;
  rig : CameraRig;
  coll : CollisionState;
  dview : DangerView;
  debris : DebrisSys;
  frags : list (list Fragment);
  colLight : ColLight
}.

(** *** Construction *)

(** [n] elements built in order from one generator ([Array.from]). *)
Fixpoint rrepeat {A} (n : nat) (m : Rng A) : Rng (list A) :=
  match n with
  | O => rret []
  | S n' => a <- m ;; l <- rrepeat n' m ;; rret (a :: l)
  end.

(** One element of [debrisP] in [_initDebris]. *)
Definition initParticle : Rng Particle :=
  l <- rng ;; sz <- rng ;; h <- rng ;; li <- rng ;;
  rret (mkParticle vzero vzero l (sz * 0.02 + 0.006)
                   (0.02 + h * 0.06) (0.3 + li * 0.3) false).

Definition initDebris : DebrisSys :=
  mkDebris (fst (rrepeat DEBRIS_N initParticle 55%Z))
           (repeat vzero DEBRIS_N) 0.

(** [_initFrags]: two lists of 80 hidden fragments. *)
Definition initFragment : Fragment := mkFragment vzero vzero 1 false 0 2.5.

Definition initFrags : list (list Fragment) :=
  [repeat initFragment 80; repeat initFragment 80].

Definition initSph : Spherical := mkSph CAM_DIST (PI / 2 - 0.08) 0.

(** The constructor.  [_shakeOn] and [_shakeT] are not assigned there and
    read as false / absent until the first collision. *)
Definition init : Engine :=
  mkEngine
    (mkInputs 0 true false 0 0 0)
    (mkRig (nth 0 FOV_MAP 0) initSph initSph 0 0 false false 0
           (setFromSpherical initSph))
    (mkCollision false 0 vzero 0)
    (mkDanger false vzero vzero 0)
    initDebris
    initFrags
    (mkColLight 0 vzero).

(** The setters [ThreeCanvas] calls each animation frame. *)
Definition setInputs (i : Inputs) (e : Engine) : Engine :=
  mkEngine i (rig e) (coll e) (dview e) (debris e) (frags e) (colLight e).

(** *** [_cam] *)

(** The camera position after the rig has been eased: from the spherical
    coordinates, skewed by the scroll velocity, and shaken while the
    envelope is on. *)
Definition shakeOffset (t el : R) : Vec3 :=
  let env := exp (- el * 3.2) in
  let a := 0.22 * env in
  mkVec3 (a * (sin (t * 93) * 0.5 + sin (t * 47) * 0.3 + sin (t * 211) * 0.2))
         (a * (sin (t * 78) * 0.45 + sin (t * 34) * 0.35 + sin (t * 157) * 0.2))
         0.

Definition _cam (t : R) (ch : nat) (p3 : R) (i : Inputs) (c : CameraRig)
  : CameraRig :=
  let tf := nth ch FOV_MAP 0 in
  let fov := currentFov c + (tf - currentFov c) * 0.022 in
  let free := negb (isScrolling i) in
  let '(uth, uph) :=
    if free then
      if isDragging i then
        (camUserTheta c + dragDX i * 0.004,
         clamp (camUserPhi c - dragDY i * 0.004) (- PI * 0.38) (PI * 0.38))
      else (camUserTheta c + 0.003, camUserPhi c)
    else (camUserTheta c * 0.93, camUserPhi c * 0.93) in
  let L := nth ch camLocked (mkLocked 0 0 0) in
  let '(th, ph, dist) :=
    if (ch =? 3)%nat then
      let cp := multiplyScalar (vadd (satPos dA t) (satPos dB t)) 0.5 in
      let sp := setFromVector3 cp in
      (lerp (l_th L) (theta sp) (p3 * 0.6),
       lerp (l_ph L) (phi sp) (p3 * 0.4),
       lerp (l_d L) (l_d L - 1.8) p3)
    else (l_th L, l_ph L, l_d L) in
  let tgt := mkSph dist (ph + uph) (th + uth) in
  let sph_theta := theta (camSph c) + (theta tgt - theta (camSph c)) * 0.035 in
  let sph_phi := phi (camSph c) + (phi tgt - phi (camSph c)) * 0.035 in
  let sph_radius :=
    radius (camSph c) + (radius tgt - radius (camSph c)) * 0.035 in
  let sph := mkSph sph_radius (clamp sph_phi 0.15 (PI - 0.15)) sph_theta in
  let base := setFromSpherical sph in
  let velSkew := scrollVelocity i * 15 in
  let skewed := mkVec3 (vx base) (vy base + velSkew * 0.3) (vz base) in
  let '(on, position) :=
    if shakeOn c then
      let el := t - shakeT c in
      if Rgtb el 1.8 then (false, skewed)
      else (true, vadd skewed (shakeOffset t el))
    else (false, skewed) in
  mkRig fov sph tgt uth uph free on (shakeT c) position.

(** The displacement [_cam] adds for the scroll velocity
    ([velSkew * 0.3] on [y]). *)
Definition velSkewOffset (i : Inputs) : Vec3 :=
  mkVec3 0 (scrollVelocity i * 15 * 0.3) 0.

(** Whether [_cam] at time [t] finds the shake envelope on and not yet
    over. *)
Definition shaking (t : R) (c : CameraRig) : bool :=
  shakeOn c && negb (Rgtb (t - shakeT c) 1.8).

(** *** [_sats]: how many pool members are drawn in place *)

Definition vis (ch : nat) (progress : R) : Z :=
  if (ch =? 0)%nat then 4%Z
  else if (ch =? 1)%nat then
    round (lerp 4 (IZR SAT_POOL)
                (outExpo (remap progress PHASES.P1 PHASES.P2)))
  else SAT_POOL.

(** The instance position of pool member [i]: on its orbit, or parked. *)
Definition satInstancePos (t : R) (ch : nat) (progress : R)
           (i : nat) (s : Sat) : Vec3 :=
  if (Z.of_nat i <? vis ch progress)%Z then satPos s t else parked.

(** *** [_danger]: convergence, and the collision trigger *)

Definition jitter (x y z k : R) : Vec3 :=
  mkVec3 ((x - 0.5) * k) ((y - 0.5) * k) ((z - 0.5) * k).

(** The body of [fl.forEach(f => ...)] at the collision. *)
Definition spawnFragment (cpt : Vec3) (f : Fragment) : Rng Fragment :=
  jx <- rng ;; jy <- rng ;; jz <- rng ;;
  let p := vadd cpt (jitter jx jy jz 0.04) in
  let tan := normalize (crossVectors (normalize p) (mkVec3 0 1 0)) in
  k <- rng ;; nx <- rng ;; ny <- rng ;; nz <- rng ;;
  rret (mkFragment p
          (vadd (multiplyScalar tan (1.8 + k * 3.5))
                (jitter nx ny nz 1.2))
          1 true 1 3.0).

(** The body of [this.debrisP.forEach(d => ...)] at the collision. *)
Definition spawnDebris (cpt : Vec3) (d : Particle) : Rng Particle :=
  jx <- rng ;; jy <- rng ;; jz <- rng ;;
  let p := vadd cpt (jitter jx jy jz 0.08) in
  let up := normalize p in
  rx <- rng ;; ry <- rng ;; rz <- rng ;;
  let tan :=
    normalize (crossVectors up (mkVec3 (rx - 0.5) (ry - 0.5) (rz - 0.5))) in
  k <- rng ;; u <- rng ;;
  let v := vadd (multiplyScalar tan (1.2 + k * 4.5))
                (multiplyScalar up ((u - 0.5) * 0.6)) in
  h <- rng ;; l <- rng ;;
  rret (mkParticle p v (life d) (size d)
                   (0.02 + h * 0.06) (0.3 + l * 0.35) true).

Definition hideFragment (f : Fragment) : Fragment :=
  mkFragment (f_pos f) (f_vel f) (f_life f) false 0 (f_emissive f).

Definition _danger (t : R) (ch : nat) (p3 : R) (e : Engine) : Engine :=
  let c := coll e in
  let v := dview e in
  if (ch <? 3)%nat then
    let v' := mkDanger false (dMeshPosA v) (dMeshPosB v) 0 in
    if collisionDone c then
      mkEngine (inp e) (rig e)
               (mkCollision false (collisionTime c) (collisionPt c)
                            (collisionR c))
               v' (debris e) (map (map hideFragment) (frags e))
               (colLight e)
    else
      mkEngine (inp e) (rig e) c v' (debris e) (frags e) (colLight e)
  else
    let pA := satPos dA t in
    let pB := satPos dB t in
    if (ch =? 3)%nat && negb (collisionDone c) then
      let mid := multiplyScalar (vadd pA pB) 0.5 in
      let aA := vlerp pA mid (p3 * 0.88) in
      let aB := vlerp pB mid (p3 * 0.88) in
      let freq := 4 + p3 * 18 in
      let pulse := 0.5 + 0.5 * sin (t * freq) in
      mkEngine (inp e) (rig e) c
               (mkDanger true aA aB (p3 * 0.45 * pulse))
               (debris e) (frags e) (colLight e)
    else if (ch =? 4)%nat && negb (collisionDone c) then
      let cpt := multiplyScalar (vadd pA pB) 0.5 in
      let r := rig e in
      mkEngine (inp e)
               (mkRig (currentFov r) (camSph r) (camTarget r)
                      (camUserTheta r) (camUserPhi r) (camFree r)
                      true t (cameraPos r))
               (mkCollision true t cpt (vlength cpt))
               (mkDanger false (dMeshPosA v) (dMeshPosB v) (dRingOpacity v))
               (mkDebris
                  (fst (rmap (spawnDebris cpt) (debrisP (debris e)) 1234%Z))
                  (posBuf (debris e)) (kesslerOp (debris e)))
               (fst (rmap (rmap (spawnFragment cpt)) (frags e) 999%Z))
               (colLight e)
    else if (ch =? 4)%nat && collisionDone c then
      mkEngine (inp e) (rig e) c
               (mkDanger false (dMeshPosA v) (dMeshPosB v)
                         (dRingOpacity v * 0.98))
               (debris e) (frags e) (colLight e)
    else e.

(** *** [_debris] *)

(** Position plus velocity, slowed by [decay], over a step [h]. *)
Definition integrate (p v : Vec3) (decay h : R) : Vec3 :=
  mkVec3 (vx p + vx v * decay * h)
         (vy p + vy v * decay * h)
         (vz p + vz v * decay * h).

(** The three clamps of a particle's distance from the origin; [len] is
    read once, before the first of them. *)
Definition shellClamp (cR : R) (p : Vec3) : Vec3 :=
  let len := vlength p in
  let p1 := if Rgtb len (cR * 1.18) then setLength p (cR * 1.18) else p in
  let p2 := if Rltb len (cR * 0.85) then setLength p1 (cR * 0.85) else p1 in
  if Rltb len (EARTH_RADIUS * 1.03)
  then setLength p2 (EARTH_RADIUS * 1.03) else p2.

(** The slow drift added after the clamp. *)
Definition driftOffset (t : R) (i : nat) (d : Particle) : Vec3 :=
  let drift := 0.035 + life d * 0.05 in
  mkVec3 (sin (t * drift + INR i * 0.031) * 0.0025)
         0
         (cos (t * drift + INR i * 0.7) * 0.0025).

(** One frame of an active particle. *)
Definition debrisStep (cR dt t : R) (i : nat) (d : Particle) : Particle :=
  let decay := exp (- dt * 0.12) in
  let q := shellClamp cR (integrate (pos d) (vel d) decay 0.01) in
  mkParticle (vadd q (driftOffset t i d)) (vel d) (life d) (size d)
             (col_h d) (col_l d) (active d).

Definition _debris (t : R) (ch : nat) (p4 : R)
           (c : CollisionState) (s : DebrisSys) : DebrisSys :=
  if (4 <=? ch)%nat && collisionDone c then
    let dt := Rmax 0 (t - collisionTime c) in
    let ps :=
      mapi (fun i d => if active d then debrisStep (collisionR c) dt t i d
                       else d) (debrisP s) in
    mkDebris ps
             (map (fun d => if active d then pos d else parked) ps)
             (clamp (p4 * 2.0) 0 0.8)
  else
    mkDebris (debrisP s) (repeat parked DEBRIS_N) 0.

(** *** [_fragUpdate] *)

Definition fragStep (cR dt : R) (f : Fragment) : Fragment :=
  if f_visible f then
    let decay := exp (- dt * 0.25) in
    let p := integrate (f_pos f) (f_vel f) decay 0.008 in
    let len := vlength p in
    let p1 := if Rgtb len (cR * 1.35) then setLength p (cR * 1.35) else p in
    let p2 := if Rltb len (EARTH_RADIUS * 1.01)
              then setLength p1 (EARTH_RADIUS * 1.01) else p1 in
    let l := Rmax 0 (1 - dt * 0.1) in
    mkFragment p2 (f_vel f) l (negb (Rltb l 0.005)) l (3.0 * l)
  else f.

Definition _fragUpdate (t : R) (c : CollisionState)
           (fs : list (list Fragment)) : list (list Fragment) :=
  if collisionDone c then
    let dt := Rmax 0 (t - collisionTime c) in
    map (map (fragStep (collisionR c) dt)) fs
  else fs.

(** *** [_colLight] *)

Definition _colLight (t : R) (ch : nat) (c : CollisionState) (l : ColLight)
  : ColLight :=
  if (ch =? 4)%nat && collisionDone c then
    mkColLight (Rmax 0 (22 * exp (- (t - collisionTime c) * 1.8)))
               (collisionPt c)
  else mkColLight 0 (cl_position l).

(** *** [_loop]: one rendered frame at clock time [t] *)

Definition _loop (t : R) (e : Engine) : Engine :=
  let p := progress (inp e) in
  let p3 := smootherstep (remap p PHASES.P3 PHASES.P4) in
  let p4 := smootherstep (remap p PHASES.P4 1.0) in
  let ch := getChapter p in
  let e1 :=
    mkEngine (inp e) (_cam t ch p3 (inp e) (rig e)) (coll e) (dview e)
             (debris e) (frags e) (colLight e) in
  let e2 := _danger t ch p3 e1 in
  let e3 :=
    mkEngine (inp e2) (rig e2) (coll e2) (dview e2)
             (_debris t ch p4 (coll e2) (debris e2)) (frags e2)
             (colLight e2) in
  let e4 :=
    mkEngine (inp e3) (rig e3) (coll e3) (dview e3) (debris e3)
             (_fragUpdate t (coll e3) (frags e3)) (colLight e3) in
  mkEngine (inp e4) (rig e4) (coll e4) (dview e4) (debris e4) (frags e4)
           (_colLight t ch (coll e4) (colLight e4)).

(** What the host does around a frame: the setters, then [_loop]. *)
Record Frame : Type := mkFrame { f_time : R; f_inputs : Inputs }.

Definition frame (f : Frame) (e : Engine) : Engine :=
  _loop (f_time f) (setInputs (f_inputs f) e).

(** A run: the frames of a list, first to last. *)
Definition run (fs : list Frame) (e : Engine) : Engine :=
  fold_left (fun e f => frame f e) fs e.

(** How often the flag [collisionDone] goes from false to true along a
    run. *)
Fixpoint triggers (fs : list Frame) (e : Engine) : nat :=
  match fs with
  | [] => 0
  | f :: fs' =>
      ((if negb (collisionDone (coll e)) && collisionDone (coll (frame f e))
        then 1 else 0) + triggers fs' (frame f e))%nat
  end.

(** The chapter a frame is rendered in. *)
Definition chapterOf (f : Frame) : nat := getChapter (progress (f_inputs f)).

(** A frame at clock time [t] with scroll progress [p], the page being
    scrolled and nothing dragged. *)
Definition scrollFrame (t p : R) : Frame :=
  mkFrame t (mkInputs p true false 0 0 0).

(** The midpoint of the danger pair at time [t]. *)
Definition dangerMid (t : R) : Vec3 :=
  multiplyScalar (vadd (satPos dA t) (satPos dB t)) 0.5.

(** A small collision state for worked examples: the collision recorded at
    time 0 at the point (3, 0, 0), radius 3, and one active particle at that
    point moving tangentially. *)
Definition sampleCollision : CollisionState :=
  mkCollision true 0 (mkVec3 3 0 0) 3.

Definition sampleParticle : Particle :=
  mkParticle (mkVec3 3 0 0) (mkVec3 0 0 2) 0 0.01 0.05 0.5 true.

Definition sampleDebris : DebrisSys := mkDebris [sampleParticle] [vzero] 0.



(** *** The phase-local progress values of [_loop]

    [p0 .. p4]: the eased progress within each of the five chapters. *)
Definition loop_p0 (p : R) : R := smootherstep (remap p PHASES.P0 PHASES.P1).
Definition loop_p1 (p : R) : R := smootherstep (remap p PHASES.P1 PHASES.P2).
Definition loop_p2 (p : R) : R := smootherstep (remap p PHASES.P2 PHASES.P3).
Definition loop_p3 (p : R) : R := smootherstep (remap p PHASES.P3 PHASES.P4).
Definition loop_p4 (p : R) : R := smootherstep (remap p PHASES.P4 1.0).

(** The phase value of chapter [k], as a table. *)
Definition loop_phase (k : nat) (p : R) : R :=
  match k with
  | 0%nat => loop_p0 p
  | 1%nat => loop_p1 p
  | 2%nat => loop_p2 p
  | 3%nat => loop_p3 p
  | _ => loop_p4 p
  end.

(** *** [_post]: what the post-processing passes are set to *)
Record Post : Type := mkPost {
  bloomStrength : R;
  chromaOffset : R;
  grainTime : R;
  grainIntensity : R
}.

Definition _post (t : R) (ch : nat) (p3 p4 : R) : Post :=
  mkPost
    (if (ch =? 4)%nat then lerp 0.28 0.55 p4
     else if (ch =? 3)%nat then lerp 0.28 0.4 p3 else 0.28)
    (if (3 <=? ch)%nat
     then lerp 0.0005 0.002 (if (ch =? 4)%nat then p4 else p3)
     else 0.0005)
    t
    (if (ch =? 4)%nat then 0.07 else 0.035).

(** *** [_atmo] and [_orbits]

    The body of each [forEach], on the one uniform it eases: [uWarn] of an
    atmosphere layer, [uOpacity] of an orbit ring. *)
Definition atmoWarn (p1 : R) (ch : nat) (uWarn : R) : R :=
  let w := if (1 <=? ch)%nat then Rmin p1 1 else 0 in
  uWarn + (w - uWarn) * 0.025.

Definition ringTarget (ch : nat) (p0 : R) : R :=
  if (ch =? 0)%nat then 0.12 * p0
  else if (ch =? 1)%nat then 0.25
  else if (ch =? 2)%nat then 0.15
  else 0.08.

Definition ringOpacity (ch : nat) (p0 : R) (uOpacity : R) : R :=
  uOpacity + (ringTarget ch p0 - uOpacity) * 0.035.

(** *** The glow of the highlighted satellites in [_sats]

    [alpha] of the glow meshes and sprites, shown in chapters 2 and 3
    only ([sa]); [None] when they are hidden. *)
Definition glowAlpha (ch : nat) (p2 p3 : R) : option R :=
  if (ch =? 2)%nat || (ch =? 3)%nat then
    Some (if (ch =? 2)%nat then clamp01 (p2 * 3) else clamp01 (1 - p3 * 2))
  else None.

(** *** The Kessler cloud of [_initDebris] *)
Record CloudPoint : Type := mkCloudPoint {
  k_pos : Vec3;
  k_size : R;
  k_hue : R;
  k_light : R
}.

Definition initCloudPoint : Rng CloudPoint :=
  a <- rng ;;
  v <- randOnSphere (EARTH_RADIUS * (1.28 + a * 0.48)) ;;
  sz <- rng ;; h <- rng ;; l <- rng ;;
  rret (mkCloudPoint v (sz * 1.8 + 0.3) (0.02 + h * 0.06) (0.25 + l * 0.2)).

Definition initKessler : list CloudPoint :=
  fst (rrepeat 1800 initCloudPoint 77%Z).

(** *** [_initNebula] *)
Definition initNebulaPoint : Rng (Vec3 * R) :=
  a <- rng ;; v <- randOnSphere (30 + a * 50) ;; sz <- rng ;;
  rret (v, sz * 20 + 6).

Definition initNebula : list (Vec3 * R) :=
  fst (rrepeat 400 initNebulaPoint 42%Z).

(** What the camera rig keeps from the constructor on: the field of view
    within the range of [FOV_MAP], the distance within the range of the
    framings, the polar angle off the poles, and the user's polar offset
    within its clamp. *)
Definition rig_ok (c : CameraRig) : Prop :=
  30 <= currentFov c <= 62 /\
  3.7 <= radius (camSph c) <= 10 /\
  0.15 <= phi (camSph c) <= PI - 0.15 /\
  - PI * 0.38 <= camUserPhi c <= PI * 0.38.

End Engine.

(** ** The earlier scene ([AstralScene])

    The first engine of the file: same chapters, constants and orbit
    parametrisation, a fixed camera, and its own debris update. *)

Module Scene.

(** [smooth = (t) => t * t * (3 - 2 * t)] *)
Definition smooth (t : R) : R := t * t * (3 - 2 * t).

(** An element of [generateSatelliteData]. *)
Record SatData : Type := mkSatData {
  radius : R;
  inclination : R;
  ascension : R;
  phase : R;
  speed : R
}.

(** [satPosition(sat, t)] *)
Definition satPosition (sat : SatData) (t : R) : Vec3 :=
  let angle := phase sat + speed sat * t in
  let x0 := cos angle * radius sat in
  let z0 := sin angle * radius sat in
  let y1 := - z0 * sin (inclination sat) in
  let z1 := z0 * cos (inclination sat) in
  let x2 := x0 * cos (ascension sat) - z1 * sin (ascension sat) in
  let z2 := x0 * sin (ascension sat) + z1 * cos (ascension sat) in
  mkVec3 x2 y1 z2.

(** [visibleCount] of [_updateSatellites]. *)
Definition visibleCount (chapter : nat) (progress : R) : Z :=
  let showNormal := 4 in
  let showCongested := IZR SAT_POOL in
  if (chapter =? 0)%nat then 4%Z
  else if (chapter =? 1)%nat then
    round (lerp showNormal showCongested
                (smooth (remap progress PHASES.P1 PHASES.P2)))
  else SAT_POOL.

Record Debris : Type := mkDebrisParticle {
  pos : Vec3;
  vel : Vec3;
  life : R
}.

(** The fields [_updateDebris] reads and writes.  [_prevChapter4] is not
    assigned by the constructor and reads as false until the first
    explosion. *)
Record DebrisState : Type := mkDebrisState {
  debrisParticles : list Debris;
  debrisExploded : bool;
  debrisExpTime : R;
  prevChapter4 : bool;
  shakeActive : bool;
  shakeStartTime : R;
  kesslerOpacity : R
}.

Definition explode (d : Debris) : Rng Debris :=
  let origin := mkVec3 (EARTH_RADIUS * 1.42) 0 0 in
  x <- rng ;; y <- rng ;; z <- rng ;; l <- rng ;;
  rret (mkDebrisParticle origin
          (mkVec3 ((x - 0.5) * 6) ((y - 0.5) * 6) ((z - 0.5) * 6)) l).

Definition debrisStep (dt t : R) (i : nat) (d : Debris) : Debris :=
  let decay := exp (- dt * 0.22) in
  let p := mkVec3 (vx (pos d) + vx (vel d) * decay * 0.016)
                  (vy (pos d) + vy (vel d) * decay * 0.016)
                  (vz (pos d) + vz (vel d) * decay * 0.016) in
  let len := vlength p in
  let p1 := if Rgtb len (EARTH_RADIUS * 2.2)
            then setLength p (EARTH_RADIUS * 2.2) else p in
  let p2 := if Rltb len (EARTH_RADIUS * 1.18)
            then setLength p1 (EARTH_RADIUS * 1.18) else p1 in
  let driftAngle := t * 0.06 + INR i * 0.031 in
  mkDebrisParticle
    (mkVec3 (vx p2 + sin (driftAngle + INR i) * 0.002)
            (vy p2)
            (vz p2 + cos (driftAngle + INR i * 0.7) * 0.002))
    (vel d) (life d).

Definition _updateDebris (t : R) (chapter : nat) (p4 : R)
           (s : DebrisState) : DebrisState :=
  (* trigger *)
  let s1 :=
    if (chapter =? 4)%nat && negb (debrisExploded s) then
      mkDebrisState (fst (rmap explode (debrisParticles s) 99%Z))
                    true t true true t (kesslerOpacity s)
    else s in
  (* reset on scrolling back out of chapter 4 *)
  let s2 :=
    if (chapter <? 4)%nat && prevChapter4 s1 then
      mkDebrisState (debrisParticles s1) false (debrisExpTime s1) false
                    (shakeActive s1) (shakeStartTime s1) (kesslerOpacity s1)
    else s1 in
  if (4 <=? chapter)%nat then
    let dt := Rmax 0 (t - debrisExpTime s2) in
    mkDebrisState (mapi (debrisStep dt t) (debrisParticles s2))
                  (debrisExploded s2) (debrisExpTime s2) (prevChapter4 s2)
                  (shakeActive s2) (shakeStartTime s2)
                  (clamp (p4 * 2.5) 0 0.92)
  else
    mkDebrisState (debrisParticles s2)
                  (debrisExploded s2) (debrisExpTime s2) (prevChapter4 s2)
                  (shakeActive s2) (shakeStartTime s2) 0.

(** [FOV_PHASE], by chapter. *)
Definition FOV_PHASE : list R := [52; 68; 44; 46; 50].

(** The field of view [_loop] eases towards the chapter's value. *)
Definition fovStep (chapter : nat) (currentFov : R) : R :=
  let targetFov := nth chapter FOV_PHASE 0 in
  currentFov + (targetFov - currentFov) * 0.04.

(** One element of [generateSatelliteData]: radius, inclination,
    ascension, phase, speed and size are drawn in this order. *)
Definition generateSatellite : Rng SatData :=
  a <- rng ;; b <- rng ;; c <- rng ;; d <- rng ;; e <- rng ;; f <- rng ;;
  rret (mkSatData (EARTH_RADIUS * (1.28 + a * 0.27)) ((b - 0.5) * PI)
                  (c * PI * 2) (d * PI * 2) (0.14 + e * 0.18)).

Definition generateSatelliteData (count : nat) : Rng (list SatData) :=
  rtimes count generateSatellite.

(** [this.satData] of [_initSatellites]. *)
Definition satData : list SatData :=
  fst (generateSatelliteData (Z.to_nat SAT_POOL) 13%Z).

(** A point of [_initKesslerRing]: position and size (the colour is one
    more draw). *)
Definition kesslerRingPoint : Rng (Vec3 * R) :=
  a <- rng ;; v <- randOnSphere (EARTH_RADIUS * (1.35 + a * 0.45)) ;;
  sz <- rng ;; c <- rng ;;
  rret (v, sz * 2.5 + 0.5).

Definition kesslerRing : list (Vec3 * R) :=
  fst (rtimes 1200 kesslerRingPoint 77%Z).

(** A star of [buildStarField]. *)
Definition starFieldPoint : Rng (Vec3 * R * R) :=
  a <- rng ;; v <- randOnSphere (120 + a * 60) ;;
  sz <- rng ;; al <- rng ;;
  rret (v, sz * 2.2 + 0.4, al * 0.7 + 0.3).

Definition buildStarField : list (Vec3 * R * R) :=
  fst (rtimes 3000 starFieldPoint 99%Z).

(** The camera of the scene: where [_initCamera] puts it, and the
    constants of [_initPhase4Flash]. *)
Definition CAM_Z : R := 7.5.
Definition camBase : Vec3 := mkVec3 0 1.2 CAM_Z.
Definition shakeDuration : R := 1.4.
Definition shakeIntensity : R := 0.28.

(** [_applyCameraShake(t)]: the shake flag and the camera position after
    it. *)
Definition _applyCameraShake (t : R) (active : bool) (start : R)
           (camPos : Vec3) : bool * Vec3 :=
  if negb active then (active, camPos)
  else
    let elapsed := t - start in
    if Rgtb elapsed shakeDuration then (false, camBase)
    else
      let envelope := exp (- elapsed * (5.0 / shakeDuration)) in
      let amp := shakeIntensity * envelope in
      let ox := amp * (sin (t * 93.1) * 0.55 + sin (t * 47.3) * 0.30
                       + sin (t * 211.7) * 0.15) in
      let oy := amp * (sin (t * 78.6) * 0.50 + sin (t * 34.2) * 0.35
                       + sin (t * 157.3) * 0.15) in
      (true, mkVec3 (vx camBase + ox) (vy camBase + oy) (vz camBase)).

(** The debris and camera part of a frame of the scene's [_loop]:
    [_updateDebris], then [_applyCameraShake]. *)
Definition debrisFrame (t : R) (chapter : nat) (p4 : R)
           (sc : DebrisState * Vec3) : DebrisState * Vec3 :=
  let s := _updateDebris t chapter p4 (fst sc) in
  let '(a, cam) := _applyCameraShake t (shakeActive s) (shakeStartTime s)
                                     (snd sc) in
  (mkDebrisState (debrisParticles s) (debrisExploded s) (debrisExpTime s)
                 (prevChapter4 s) a (shakeStartTime s) (kesslerOpacity s),
   cam).

(** The smoothing loop of [AstralApp]: [smoothRef.current +=
    (rawProgress - smoothRef.current) * 0.07], [n] frames long. *)
Definition appSmooth (rawProgress smoothRef : R) : R :=
  smoothRef + (rawProgress - smoothRef) * 0.07.

Fixpoint appSmooths (n : nat) (rawProgress smoothRef : R) : R :=
  match n with
  | O => smoothRef
  | S n' => appSmooths n' rawProgress (appSmooth rawProgress smoothRef)
  end.

(** [useScrollProgress]'s handler: the progress a scroll event sets. *)
Definition scrollProgress (scrollY scrollHeight innerHeight : R) : R :=
  let max := scrollHeight - innerHeight in
  if Rgtb max 0 then clamp (scrollY / max) 0 1 else 0.

(** [_initDebris] and [_initPhase4Flash]: 800 particles at rest at the
    origin, nothing exploded, no shake, the Kessler ring transparent. *)
Definition initDebrisState : DebrisState :=
  mkDebrisState (repeat (mkDebrisParticle vzero vzero 0) 800)
                false 0 false false 0 0.

Definition sceneInit : DebrisState * Vec3 := (initDebrisState, camBase).

(** The debris and camera part of the frame [_loop] renders at clock time
    [t] with progress [p]. *)
Definition sceneFrame (tp : R * R) (sc : DebrisState * Vec3)
  : DebrisState * Vec3 :=
  debrisFrame (fst tp) (getChapter (snd tp))
              (smooth (remap (snd tp) PHASES.P4 1.0)) sc.

Definition sceneRun (fs : list (R * R)) (sc : DebrisState * Vec3)
  : DebrisState * Vec3 :=
  fold_left (fun sc f => sceneFrame f sc) fs sc.

(** A particle within the shell the clamp keeps (widened by the drift),
    no faster along an axis than [explode] launches it. *)
Definition trapped (d : Debris) : Prop :=
  EARTH_RADIUS * 1.18 - 0.003 <= vlength (pos d)
    <= EARTH_RADIUS * 2.2 + 0.003 /\
  Rabs (vx (vel d)) <= 3 /\ Rabs (vy (vel d)) <= 3 /\ Rabs (vz (vel d)) <= 3.

End Scene.


(** ** The overlay's animation helpers *)

Module Hud.

(** [AnimatedNumber]'s [tick]: the number shown at time [now] of a count
    up to [numericVal] that started at [start]. *)
Definition animatedCurrent (numericVal : Z) (duration start now : R) : Z :=
  let t := clamp01 ((now - start) / duration) in
  let eased := outExpo t in
  round (IZR numericVal * eased).

(** Whether that [tick] asks for another frame ([t < 1]). *)
Definition animatedContinues (duration start now : R) : bool :=
  Rltb (clamp01 ((now - start) / duration)) 1.

(** [Cursor]'s [tick]: the dot and the ring follow the pointer, the scale
    is sprung towards its target. *)
Record CursorState : Type := mkCursor {
  c_pos : R * R;
  dotPos : R * R;
  ringPos : R * R;
  scale_v : R;
  scale_vel : R;
  hovering : bool
}.

Definition cursorTick (scrolling : bool) (c : CursorState) : CursorState :=
  let '(px, py) := c_pos c in
  let '(dx, dy) := dotPos c in
  let '(rx, ry) := ringPos c in
  let target := if hovering c then 3.2 else if scrolling then 0.5 else 1 in
  let s := spring (scale_v c) target (scale_vel c) 0.06 0.72 in
  mkCursor (c_pos c)
           (dx + (px - dx) * 0.2, dy + (py - dy) * 0.2)
           (rx + (px - rx) * 0.08, ry + (py - ry) * 0.08)
           (fst s) (snd s) (hovering c).

Fixpoint cursorTicks (n : nat) (scrolling : bool) (c : CursorState)
  : CursorState :=
  match n with
  | O => c
  | S n' => cursorTicks n' scrolling (cursorTick scrolling c)
  end.

(** The quadratic form of scale error and velocity that one [spring] step
    with stiffness [s] and damping [d] multiplies by [d]. *)
Definition springEnergy (s d e v : R) : R :=
  d * s * e * e + (1 - d - d * s) * e * v + d * v * v.

(** [useMouseSystem]: pointer position in device coordinates, its
    smoothed follower, the button, and the drag delta. *)
Record Mouse : Type := mkMouse {
  m_x : R; m_y : R; m_cx : R; m_cy : R;
  sm_x : R; sm_y : R;
  down : bool;
  prev_x : R; prev_y : R;
  drag_x : R; drag_y : R
}.

Definition mouseInit : Mouse := mkMouse 0 0 0 0 0 0 false 0 0 0 0.

Inductive MouseEvent : Type :=
| Move (clientX clientY innerWidth innerHeight : R)
| Down (clientX clientY : R)
| Up
| Smooth
| Consume.

(** [mm], [md], [mu], the smoothing [tick], and [ThreeCanvas]'s [tick]
    clearing the drag delta after handing it to the engine. *)
Definition mouseStep (ev : MouseEvent) (m : Mouse) : Mouse :=
  match ev with
  | Move cx cy w h =>
      let x := cx / w * 2 - 1 in
      let y := - (cy / h) * 2 + 1 in
      if down m then
        mkMouse x y cx cy (sm_x m) (sm_y m) (down m) cx cy
                (cx - prev_x m) (cy - prev_y m)
      else
        mkMouse x y cx cy (sm_x m) (sm_y m) (down m) (prev_x m) (prev_y m)
                (drag_x m) (drag_y m)
  | Down cx cy =>
      mkMouse (m_x m) (m_y m) (m_cx m) (m_cy m) (sm_x m) (sm_y m) true
              cx cy 0 0
  | Up =>
      mkMouse (m_x m) (m_y m) (m_cx m) (m_cy m) (sm_x m) (sm_y m) false
              (prev_x m) (prev_y m) 0 0
  | Smooth =>
      mkMouse (m_x m) (m_y m) (m_cx m) (m_cy m)
              (sm_x m + (m_x m - sm_x m) * 0.05)
              (sm_y m + (m_y m - sm_y m) * 0.05)
              (down m) (prev_x m) (prev_y m) (drag_x m) (drag_y m)
  | Consume =>
      mkMouse (m_x m) (m_y m) (m_cx m) (m_cy m) (sm_x m) (sm_y m) (down m)
              (prev_x m) (prev_y m) 0 0
  end.

Definition mouseRun (evs : list MouseEvent) (m : Mouse) : Mouse :=
  fold_left (fun m ev => mouseStep ev m) evs m.

(** The pointer moves of a list of events are inside the window. *)
Definition insideWindow (ev : MouseEvent) : Prop :=
  match ev with
  | Move cx cy w h => 0 <= cx <= w /\ 0 <= cy <= h /\ 0 < w /\ 0 < h
  | _ => True
  end.

End Hud.

(* ================================================================== *)
(** * Part II: properties                                              *)
(* ================================================================== *)

(** ** Numeric tests *)

Lemma Rltb_true (x y : R) : x < y -> Rltb x y = true.
Proof. intros H. unfold Rltb. destruct (Rlt_dec x y); [reflexivity | lra]. Qed.

Lemma Rltb_false (x y : R) : y <= x -> Rltb x y = false.
Proof. intros H. unfold Rltb. destruct (Rlt_dec x y); [lra | reflexivity]. Qed.

Lemma Rltb_spec (x y : R) : reflect (x < y) (Rltb x y).
Proof.
  unfold Rltb. destruct (Rlt_dec x y); constructor; assumption.
Qed.

Lemma Reqb_spec (x y : R) : reflect (x = y) (Reqb x y).
Proof.
  unfold Reqb. destruct (Req_dec_T x y); constructor; assumption.
Qed.

(** Case analysis on every numeric test in the goal. *)
Ltac rtests :=
  repeat match goal with
         | |- context [Rltb ?x ?y] => destruct (Rltb_spec x y)
         | |- context [Reqb ?x ?y] => destruct (Reqb_spec x y)
         end.

(** ** Chapters *)

Lemma getChapter_cases (p : R) :
  (p < 0.2 /\ getChapter p = 0%nat) \/
  (0.2 <= p < 0.4 /\ getChapter p = 1%nat) \/
  (0.4 <= p < 0.6 /\ getChapter p = 2%nat) \/
  (0.6 <= p < 0.8 /\ getChapter p = 3%nat) \/
  (0.8 <= p /\ getChapter p = 4%nat).
Proof.
  unfold getChapter, PHASES.P1, PHASES.P2, PHASES.P3, PHASES.P4.
  rtests; intuition lra.
Qed.

Lemma getChapter_le_4 (p : R) : (getChapter p <= 4)%nat.
Proof. destruct (getChapter_cases p) as [H|[H|[H|[H|H]]]]; lia. Qed.

Lemma getChapter_mono (p q : R) :
  p <= q -> (getChapter p <= getChapter q)%nat.
Proof.
  intros Hpq.
  destruct (getChapter_cases p) as [[? ->]|[[? ->]|[[? ->]|[[? ->]|[? ->]]]]];
  destruct (getChapter_cases q) as [[? ->]|[[? ->]|[[? ->]|[[? ->]|[? ->]]]]];
  solve [lia | lra].
Qed.

(** C5. For progress values [p <= q] in [0,1] the chapter of [p] is at most
    the chapter of [q]; the chapter is one of 0..4; and [getChapter 0.2 = 1],
    [getChapter 0.19999 = 0], [getChapter 1.0 = 4]: the breakpoints 0.2, 0.4,
    0.6, 0.8 close each chapter on the left and open it on the right, the
    last one closed on both sides. *)
Theorem chapterOf_monotone_range_values :
  (forall p q, 0 <= p -> p <= q -> q <= 1 ->
               (getChapter p <= getChapter q)%nat) /\
  (forall p, 0 <= p <= 1 -> In (getChapter p) [0; 1; 2; 3; 4]%nat) /\
  getChapter 0.2 = 1%nat /\
  getChapter 0.19999 = 0%nat /\
  getChapter 1.0 = 4%nat /\
  (forall p, 0 <= p <= 1 ->
     (getChapter p = 0%nat <-> 0 <= p < 0.2) /\
     (getChapter p = 1%nat <-> 0.2 <= p < 0.4) /\
     (getChapter p = 2%nat <-> 0.4 <= p < 0.6) /\
     (getChapter p = 3%nat <-> 0.6 <= p < 0.8) /\
     (getChapter p = 4%nat <-> 0.8 <= p <= 1)).
Proof.
  split; [| split; [| split; [| split; [| split]]]].
  - intros p q _ Hpq _. apply getChapter_mono; assumption.
  - intros p _. simpl.
    destruct (getChapter_cases p) as [[? ->]|[[? ->]|[[? ->]|[[? ->]|[? ->]]]]];
      tauto.
  - destruct (getChapter_cases 0.2) as [H|[H|[H|[H|H]]]];
      solve [apply H | lra].
  - destruct (getChapter_cases 0.19999) as [H|[H|[H|[H|H]]]];
      solve [apply H | lra].
  - destruct (getChapter_cases 1.0) as [H|[H|[H|[H|H]]]];
      solve [apply H | lra].
  - intros p Hp.
    destruct (getChapter_cases p) as [[? ->]|[[? ->]|[[? ->]|[[? ->]|[? ->]]]]];
      repeat split; intros; try lra; try lia; try reflexivity.
Qed.

(** The three quoted values and one monotone pair, read off the theorem. *)
Lemma chapterOf_monotone_range_values_witness :
  (getChapter 0.3 <= getChapter 0.7)%nat /\ In (getChapter 0.5) [0; 1; 2; 3; 4]%nat.
Proof.
  destruct chapterOf_monotone_range_values as [Hm [Hr _]].
  split; [apply Hm; lra | apply Hr; lra].
Defined.


(** ** Math helpers *)

Lemma clamp_bounds (v lo hi : R) : lo <= hi -> lo <= clamp v lo hi <= hi.
Proof.
  intros H. unfold clamp. split.
  - apply Rmax_l.
  - apply Rmax_lub; [assumption | apply Rmin_l].
Qed.

Lemma clamp_id (v lo hi : R) : lo <= v <= hi -> clamp v lo hi = v.
Proof.
  intros [H1 H2]. unfold clamp.
  rewrite (Rmin_right hi v H2). apply Rmax_right; assumption.
Qed.

Lemma clamp_mono (v w lo hi : R) : v <= w -> clamp v lo hi <= clamp w lo hi.
Proof.
  intros H. unfold clamp.
  apply Rle_max_compat_l, Rle_min_compat_l; assumption.
Qed.

Lemma clamp01_bounds (v : R) : 0 <= clamp01 v <= 1.
Proof. apply clamp_bounds; lra. Qed.

Lemma remap_bounds (v a b : R) : 0 <= remap v a b <= 1.
Proof. apply clamp01_bounds. Qed.

Lemma remap_mono (v w a b : R) :
  a < b -> v <= w -> remap v a b <= remap w a b.
Proof.
  intros Hab Hvw. unfold remap, clamp01. apply clamp_mono.
  unfold Rdiv. apply Rmult_le_compat_r.
  - left. apply Rinv_0_lt_compat. lra.
  - lra.
Qed.

Lemma remap_at_lo (a b : R) : a < b -> remap a a b = 0.
Proof.
  intros H. unfold remap, clamp01.
  replace ((a - a) / (b - a)) with 0 by (field; lra).
  apply clamp_id; lra.
Qed.

Lemma remap_at_hi (a b : R) : a < b -> remap b a b = 1.
Proof.
  intros H. unfold remap, clamp01.
  replace ((b - a) / (b - a)) with 1 by (field; lra).
  apply clamp_id; lra.
Qed.

Lemma remap_below_hi (v a b : R) : a < b -> v < b -> remap v a b < 1.
Proof.
  intros Hab Hv. unfold remap, clamp01, clamp.
  assert (Hq : (v - a) / (b - a) < 1).
  { apply (Rmult_lt_reg_r (b - a)); [lra |].
    unfold Rdiv. rewrite Rmult_assoc, Rinv_l by lra. lra. }
  rewrite Rmin_right by lra.
  apply Rmax_lub_lt; lra.
Qed.

Lemma lerp_mono (a b s t : R) : a <= b -> s <= t -> lerp a b s <= lerp a b t.
Proof. intros Hab Hst. unfold lerp. nra. Qed.

Lemma lerp_bounds (a b t : R) : a <= b -> 0 <= t <= 1 -> a <= lerp a b t <= b.
Proof. intros Hab [H0 H1]. unfold lerp. split; nra. Qed.

(** [smootherstep] rises everywhere: the difference of two values is the
    integral of [30 u^2 (1-u)^2], written as a sum of squares. *)
Lemma smootherstep_mono (a b : R) : a <= b -> smootherstep a <= smootherstep b.
Proof.
  intros Hab.
  pose (h := b - a).
  pose (A := a * (1 - a)). pose (B := h * (1 - 2 * a)). pose (C := - (h * h)).
  assert (E : smootherstep b - smootherstep a =
              h * (30 * ((A + B / 2 + C / 3) * (A + B / 2 + C / 3)
                         + (B + C) * (B + C) / 12 + C * C / 180))).
  { unfold smootherstep, A, B, C, h. field. }
  assert (H1 : 0 <= (A + B / 2 + C / 3) * (A + B / 2 + C / 3))
    by apply (Rle_0_sqr (A + B / 2 + C / 3)).
  assert (H2 : 0 <= (B + C) * (B + C)) by apply (Rle_0_sqr (B + C)).
  assert (H3 : 0 <= C * C) by apply (Rle_0_sqr C).
  assert (Hh : 0 <= h) by (unfold h; lra).
  assert (0 <= smootherstep b - smootherstep a).
  { rewrite E. apply Rmult_le_pos; [assumption | lra]. }
  lra.
Qed.

Lemma smootherstep_0 : smootherstep 0 = 0.
Proof. unfold smootherstep. ring. Qed.

Lemma smootherstep_1 : smootherstep 1 = 1.
Proof. unfold smootherstep. ring. Qed.

Lemma smootherstep_bounds (t : R) : 0 <= t <= 1 -> 0 <= smootherstep t <= 1.
Proof.
  intros [H0 H1]. split.
  - rewrite <- smootherstep_0. apply smootherstep_mono; assumption.
  - rewrite <- smootherstep_1. apply smootherstep_mono; assumption.
Qed.

Lemma smooth_mono (a b : R) :
  0 <= a -> a <= b -> b <= 1 -> Scene.smooth a <= Scene.smooth b.
Proof.
  intros H0 Hab H1. unfold Scene.smooth.
  assert (E : b * b * (3 - 2 * b) - a * a * (3 - 2 * a) =
              (b - a) * (a * (3 - 2 * a - b) + b * (3 - 2 * b - a))) by ring.
  assert (0 <= a * (3 - 2 * a - b)) by (apply Rmult_le_pos; lra).
  assert (0 <= b * (3 - 2 * b - a)) by (apply Rmult_le_pos; lra).
  assert (0 <= (b - a) * (a * (3 - 2 * a - b) + b * (3 - 2 * b - a)))
    by (apply Rmult_le_pos; lra).
  lra.
Qed.

Lemma smooth_bounds (t : R) : 0 <= t <= 1 -> 0 <= Scene.smooth t <= 1.
Proof.
  intros [H0 H1]. split.
  - replace 0 with (Scene.smooth 0) by (unfold Scene.smooth; ring).
    apply smooth_mono; lra.
  - replace 1 with (Scene.smooth 1) by (unfold Scene.smooth; ring).
    apply smooth_mono; lra.
Qed.

Lemma Rpower_2_le_1 (x : R) : x <= 0 -> Rpower 2 x <= 1.
Proof.
  intros H. rewrite <- (Rpower_O 2) by lra.
  apply Rle_Rpower; lra.
Qed.

Lemma Rpower_pos (x y : R) : 0 < Rpower x y.
Proof. unfold Rpower. apply exp_pos. Qed.

Lemma outExpo_bounds (t : R) : 0 <= t -> 0 <= outExpo t <= 1.
Proof.
  intros H. unfold outExpo. destruct (Reqb_spec t 1); [lra |].
  pose proof (Rpower_2_le_1 (-10 * t)). pose proof (Rpower_pos 2 (-10 * t)).
  lra.
Qed.

Lemma outExpo_mono (a b : R) :
  0 <= a -> a <= b -> b <= 1 -> outExpo a <= outExpo b.
Proof.
  intros H0 Hab H1.
  destruct (Req_dec_T b 1) as [-> | Hb].
  - replace (outExpo 1) with 1.
    + apply outExpo_bounds; assumption.
    + unfold outExpo. destruct (Reqb_spec 1 1); [reflexivity | lra].
  - unfold outExpo.
    destruct (Reqb_spec a 1); [lra |]. destruct (Reqb_spec b 1); [lra |].
    assert (Rpower 2 (-10 * b) <= Rpower 2 (-10 * a))
      by (apply Rle_Rpower; lra).
    lra.
Qed.

Lemma outExpo_0 : outExpo 0 = 0.
Proof.
  unfold outExpo. destruct (Reqb_spec 0 1); [lra |].
  rewrite Rmult_0_r, Rpower_O by lra. ring.
Qed.

Lemma round_mono (x y : R) : x <= y -> (round x <= round y)%Z.
Proof. intros H. unfold round. apply Zfloor_le. lra. Qed.

Lemma round_IZR (z : Z) : round (IZR z) = z.
Proof. unfold round. apply Zfloor_eq. lra. Qed.

Lemma round_between (lo hi : Z) (x : R) :
  IZR lo <= x <= IZR hi -> (lo <= round x <= hi)%Z.
Proof.
  intros [H1 H2]. split.
  - rewrite <- (round_IZR lo) at 1. apply round_mono; assumption.
  - rewrite <- (round_IZR hi). apply round_mono; assumption.
Qed.


(** ** The visible count of the satellite pool *)

Lemma vis_bounds (ch : nat) (p : R) : (4 <= Engine.vis ch p <= 200)%Z.
Proof.
  unfold Engine.vis, SAT_POOL.
  destruct (ch =? 0)%nat; [lia |].
  destruct (ch =? 1)%nat; [| lia].
  apply round_between. apply lerp_bounds; [lra |].
  apply outExpo_bounds. apply remap_bounds.
Qed.

Lemma vis_ramp_mono (p q : R) :
  p <= q -> (Engine.vis 1 p <= Engine.vis 1 q)%Z.
Proof.
  intros Hpq. unfold Engine.vis. simpl.
  apply round_mono, lerp_mono; [unfold SAT_POOL; lra |].
  assert (H12 : PHASES.P1 < PHASES.P2) by (unfold PHASES.P1, PHASES.P2; lra).
  apply outExpo_mono.
  - apply remap_bounds.
  - apply remap_mono; assumption.
  - apply remap_bounds.
Qed.

Lemma vis_mono (p q : R) :
  p <= q ->
  (Engine.vis (getChapter p) p <= Engine.vis (getChapter q) q)%Z.
Proof.
  intros Hpq.
  pose proof (getChapter_mono p q Hpq) as Hch.
  pose proof (vis_bounds (getChapter p) p) as Bp.
  pose proof (vis_bounds (getChapter q) q) as Bq.
  destruct (getChapter p) as [|[|cp]] eqn:Ep.
  - unfold Engine.vis at 1. simpl. lia.
  - destruct (getChapter q) as [|[|cq]] eqn:Eq; [lia | |].
    + apply vis_ramp_mono; assumption.
    + unfold Engine.vis at 2. simpl. unfold SAT_POOL. lia.
  - destruct (getChapter q) as [|[|cq]] eqn:Eq; [lia | lia |].
    unfold Engine.vis. simpl. lia.
Qed.

(** C4. The visible count [vis] of [_sats], as a function of the progress
    in [0,1] (the chapter being the chapter of that progress): it does not
    decrease as the progress grows, within chapter 1 and across the whole
    range; it is exactly the pool size 200 at progress 0.4, the start of
    chapter 2; it is 4 throughout chapter 0; and it never exceeds the pool
    size nor goes below 0. *)
Theorem visible_count_ramp :
  (forall p q, 0 <= p -> p <= q -> q <= 1 ->
     getChapter p = 1%nat -> getChapter q = 1%nat ->
     (Engine.vis (getChapter p) p <= Engine.vis (getChapter q) q)%Z) /\
  (forall p q, 0 <= p -> p <= q -> q <= 1 ->
     (Engine.vis (getChapter p) p <= Engine.vis (getChapter q) q)%Z) /\
  (getChapter 0.4 = 2%nat /\ Engine.vis (getChapter 0.4) 0.4 = SAT_POOL /\
   SAT_POOL = 200%Z) /\
  (forall p, 0 <= p <= 1 -> getChapter p = 0%nat ->
             Engine.vis (getChapter p) p = 4%Z) /\
  (forall p, 0 <= p <= 1 ->
             (0 <= Engine.vis (getChapter p) p <= SAT_POOL)%Z).
Proof.
  assert (H04 : getChapter 0.4 = 2%nat).
  { destruct (getChapter_cases 0.4) as [H|[H|[H|[H|H]]]];
      solve [apply H | lra]. }
  repeat split.
  - intros p q _ Hpq _ _ _. apply vis_mono; assumption.
  - intros p q _ Hpq _. apply vis_mono; assumption.
  - exact H04.
  - rewrite H04. reflexivity.
  - intros p _ E. rewrite E. reflexivity.
  - pose proof (vis_bounds (getChapter p) p). lia.
  - pose proof (vis_bounds (getChapter p) p). unfold SAT_POOL. lia.
Qed.

(** The ramp between two progress values of chapter 1, the calm chapter at
    0.1, and the bounds at 0.3. *)
Lemma visible_count_ramp_witness :
  (Engine.vis (getChapter 0.25) 0.25 <= Engine.vis (getChapter 0.35) 0.35)%Z /\
  Engine.vis (getChapter 0.1) 0.1 = 4%Z /\
  (0 <= Engine.vis (getChapter 0.3) 0.3 <= SAT_POOL)%Z.
Proof.
  destruct visible_count_ramp as [_ [Hm [_ [H0 Hb]]]].
  split; [apply Hm; lra | split; [apply H0; [lra |] | apply Hb; lra]].
  destruct (getChapter_cases 0.1) as [H|[H|[H|[H|H]]]];
    solve [apply H | lra].
Defined.

(** The earlier scene ramps with [smooth] instead of [outExpo]; the same
    bounds and monotonicity hold for it. *)
Lemma scene_visibleCount_bounds (ch : nat) (p : R) :
  (4 <= Scene.visibleCount ch p <= 200)%Z.
Proof.
  unfold Scene.visibleCount, SAT_POOL.
  destruct (ch =? 0)%nat; [lia |].
  destruct (ch =? 1)%nat; [| lia].
  apply round_between. apply lerp_bounds; [lra |].
  apply smooth_bounds. apply remap_bounds.
Qed.

Lemma scene_visibleCount_ramp_mono (p q : R) :
  p <= q -> (Scene.visibleCount 1 p <= Scene.visibleCount 1 q)%Z.
Proof.
  intros Hpq. unfold Scene.visibleCount. simpl.
  apply round_mono, lerp_mono; [unfold SAT_POOL; lra |].
  assert (H12 : PHASES.P1 < PHASES.P2) by (unfold PHASES.P1, PHASES.P2; lra).
  apply smooth_mono.
  - apply remap_bounds.
  - apply remap_mono; assumption.
  - apply remap_bounds.
Qed.

(** ** Orbital kinematics *)

Lemma sin_cos_sq (x : R) : sin x * sin x + cos x * cos x = 1.
Proof. exact (sin2_cos2 x). Qed.

Lemma orbitPos_sqnorm (r inc asc angle : R) :
  let p := orbitPos r inc asc angle in
  vx p * vx p + vy p * vy p + vz p * vz p = r * r.
Proof.
  simpl.
  pose proof (sin_cos_sq inc) as Hi.
  pose proof (sin_cos_sq asc) as Ha.
  pose proof (sin_cos_sq angle) as Hg.
  replace ((cos angle * r * cos asc - sin angle * r * cos inc * sin asc) *
           (cos angle * r * cos asc - sin angle * r * cos inc * sin asc) +
           - (sin angle * r) * sin inc * (- (sin angle * r) * sin inc) +
           (cos angle * r * sin asc + sin angle * r * cos inc * cos asc) *
           (cos angle * r * sin asc + sin angle * r * cos inc * cos asc))
    with (r * r *
          (cos angle * cos angle * (sin asc * sin asc + cos asc * cos asc) +
           sin angle * sin angle *
           (sin inc * sin inc +
            cos inc * cos inc * (sin asc * sin asc + cos asc * cos asc))))
    by ring.
  rewrite Ha, !Rmult_1_r, Hi, Rmult_1_r.
  rewrite (Rplus_comm (cos angle * cos angle)), Hg.
  ring.
Qed.

Lemma vlength_sub_zero (p : Vec3) : distance p vzero = vlength p.
Proof.
  unfold distance, vzero. simpl. rewrite !Rminus_0_r. reflexivity.
Qed.

Lemma orbitPos_length (r inc asc angle : R) :
  0 <= r -> vlength (orbitPos r inc asc angle) = r.
Proof.
  intros Hr. unfold vlength.
  pose proof (orbitPos_sqnorm r inc asc angle) as H. simpl in H.
  simpl. rewrite H. apply sqrt_square. assumption.
Qed.

Lemma satPosition_is_orbitPos (sat : Scene.SatData) (t : R) :
  Scene.satPosition sat t =
  orbitPos (Scene.radius sat) (Scene.inclination sat) (Scene.ascension sat)
           (Scene.phase sat + Scene.speed sat * t).
Proof. reflexivity. Qed.


(** ** The scroll-progress tracker *)

Import LocoScroll.

Lemma ticks_S (n : nat) (st : ScrollState) :
  ticks (S n) st = tick (ticks n st).
Proof.
  revert st. induction n as [| n IH]; intros st; [reflexivity |].
  change (ticks (S (S n)) st) with (ticks (S n) (tick st)).
  rewrite IH. reflexivity.
Qed.

Lemma tick_raw (st : ScrollState) : raw (tick st) = raw st.
Proof. reflexivity. Qed.

Lemma ticks_raw (n : nat) (st : ScrollState) : raw (ticks n st) = raw st.
Proof.
  induction n as [| n IH]; [reflexivity |].
  rewrite ticks_S, tick_raw. exact IH.
Qed.

(** What one frame does to the gap [raw - smooth]: it is closed when it is
    already below 0.00003, and otherwise shrunk by the factor [1 - speed]. *)
Lemma tick_gap (st : ScrollState) :
  let d := raw st - smooth st in
  raw (tick st) - smooth (tick st) =
  if Rltb (Rabs d) 0.00003 then 0
  else d * (1 - (if Rgtb (Rabs d) 0.06 then 0.055 else 0.028)).
Proof.
  unfold tick. simpl.
  destruct (Rltb (Rabs (raw st - smooth st)) 0.00003); [ring |].
  destruct (Rgtb (Rabs (raw st - smooth st)) 0.06); ring.
Qed.

Lemma tick_gap_same_side (st : ScrollState) :
  let d := raw st - smooth st in
  let d' := raw (tick st) - smooth (tick st) in
  (0 <= d -> 0 <= d' <= d) /\ (d <= 0 -> d <= d' <= 0).
Proof.
  intros d d'. unfold d'. rewrite tick_gap. fold d.
  destruct (Rltb (Rabs d) 0.00003);
    [| destruct (Rgtb (Rabs d) 0.06)]; split; intros H; split; nra.
Qed.

Lemma tick_gap_contracts (st : ScrollState) :
  Rabs (raw (tick st) - smooth (tick st)) <=
  0.972 * Rabs (raw st - smooth st).
Proof.
  rewrite tick_gap. cbv zeta.
  pose proof (Rabs_pos (raw st - smooth st)) as Hp.
  destruct (Rltb (Rabs (raw st - smooth st)) 0.00003).
  - rewrite Rabs_R0. lra.
  - rewrite Rabs_mult.
    destruct (Rgtb (Rabs (raw st - smooth st)) 0.06).
    + rewrite (Rabs_right (1 - 0.055)) by lra. nra.
    + rewrite (Rabs_right (1 - 0.028)) by lra. nra.
Qed.

Lemma ticks_gap_geometric (n : nat) (st : ScrollState) :
  Rabs (raw (ticks n st) - smooth (ticks n st)) <=
  0.972 ^ n * Rabs (raw st - smooth st).
Proof.
  induction n as [| n IH].
  - simpl. lra.
  - rewrite ticks_S.
    eapply Rle_trans; [apply tick_gap_contracts |].
    simpl pow. nra.
Qed.

(** A gap below the snap threshold is closed by the next frame, and a
    closed gap stays closed. *)
Lemma tick_snaps (st : ScrollState) :
  Rabs (raw st - smooth st) < 0.00003 -> smooth (tick st) = raw st.
Proof.
  intros H. unfold tick. simpl. rewrite (Rltb_true _ _ H). reflexivity.
Qed.

Lemma ticks_settled (n : nat) (st : ScrollState) :
  smooth st = raw st -> smooth (ticks n st) = raw st.
Proof.
  intros H. induction n as [| n IH]; [exact H |].
  rewrite ticks_S, <- (ticks_raw n st). apply tick_snaps.
  rewrite IH, ticks_raw.
  replace (raw st - raw st) with 0 by ring. rewrite Rabs_R0. lra.
Qed.

Lemma ticks_add (n m : nat) (st : ScrollState) :
  ticks (n + m) st = ticks m (ticks n st).
Proof.
  revert st. induction n as [| n IH]; intros st; [reflexivity |].
  simpl. apply IH.
Qed.

Lemma pow_972_367 : 0.972 ^ 367 < 0.00003.
Proof.
  assert (E : 0.972 ^ 367 * IZR (1000 ^ 367) = IZR (972 ^ 367)).
  { change 367%Z with (Z.of_nat 367).
    rewrite <- !pow_IZR, <- Rpow_mult_distr. f_equal. lra. }
  assert (P : 0 < IZR (1000 ^ 367)) by (apply IZR_lt; vm_compute; reflexivity).
  assert (L : IZR (972 ^ 367) * 100000 < 3 * IZR (1000 ^ 367)).
  { rewrite <- !mult_IZR. apply IZR_lt. vm_compute. reflexivity. }
  rewrite <- E in L. nra.
Qed.

(** From a gap of at most 1, 368 frames close it for good. *)
Lemma ticks_settle_unit (st : ScrollState) :
  Rabs (raw st - smooth st) <= 1 ->
  forall n, (368 <= n)%nat -> smooth (ticks n st) = raw st.
Proof.
  intros Hgap n Hn.
  assert (H367 : Rabs (raw (ticks 367 st) - smooth (ticks 367 st)) < 0.00003).
  { eapply Rle_lt_trans; [apply ticks_gap_geometric |].
    pose proof pow_972_367 as Hp.
    assert (0 <= 0.972 ^ 367) by (apply pow_le; lra).
    pose proof (Rabs_pos (raw st - smooth st)). nra. }
  assert (H368 : smooth (ticks 368 st) = raw st).
  { rewrite (ticks_S 367), <- (ticks_raw 367 st). apply tick_snaps. exact H367. }
  replace n with (368 + (n - 368))%nat by lia.
  rewrite ticks_add, <- (ticks_raw 368 st).
  apply ticks_settled. rewrite ticks_raw. exact H368.
Qed.

(** From any gap, finitely many frames bring it below a given epsilon. *)
Lemma ticks_gap_vanishes (st : ScrollState) (eps : R) :
  0 < eps ->
  exists N, forall n, (N <= n)%nat ->
    Rabs (smooth (ticks n st) - raw st) < eps.
Proof.
  intros Heps.
  set (D := Rabs (raw st - smooth st)).
  assert (HD : 0 <= D) by apply Rabs_pos.
  assert (Hq : 0 < eps / (D + 1)) by (apply Rdiv_lt_0_compat; lra).
  destruct (pow_lt_1_zero 0.972) with (y := eps / (D + 1)) as [N HN].
  - rewrite Rabs_right; lra.
  - exact Hq.
  - exists N. intros n Hn.
    rewrite Rabs_minus_sym, <- (ticks_raw n st) at 1.
    eapply Rle_lt_trans; [apply ticks_gap_geometric |]. fold D.
    specialize (HN n Hn).
    rewrite Rabs_right in HN by (apply Rle_ge, pow_le; lra).
    assert (H0 : 0 <= 0.972 ^ n) by (apply pow_le; lra).
    assert (Hm : 0.972 ^ n * (D + 1) < eps).
    { apply (Rmult_lt_reg_r (/ (D + 1))).
      - apply Rinv_0_lt_compat. lra.
      - rewrite Rmult_assoc, Rinv_r by lra. lra. }
    nra.
Qed.

Lemma ticks_no_overshoot (n : nat) (st : ScrollState) :
  (smooth st <= raw st ->
   smooth (ticks n st) <= smooth (ticks (S n) st) <= raw st) /\
  (raw st <= smooth st ->
   raw st <= smooth (ticks (S n) st) <= smooth (ticks n st)).
Proof.
  assert (Side : (smooth st <= raw st -> smooth (ticks n st) <= raw st) /\
                 (raw st <= smooth st -> raw st <= smooth (ticks n st))).
  { induction n as [| n [IH1 IH2]]; [split; intros; simpl; lra |].
    rewrite ticks_S.
    pose proof (tick_gap_same_side (ticks n st)) as [G1 G2].
    rewrite tick_raw, ticks_raw in G1, G2.
    split; intros H; [specialize (IH1 H) | specialize (IH2 H)]; lra. }
  destruct Side as [S1 S2].
  rewrite ticks_S.
  pose proof (tick_gap_same_side (ticks n st)) as [G1 G2].
  rewrite tick_raw, ticks_raw in G1, G2.
  split; intros H; [specialize (S1 H) | specialize (S2 H)]; lra.
Qed.

(** C8. Holding [raw] constant, repeated frames of the smoothing step
    bring [|smooth - raw|] below any positive epsilon after finitely many
    frames and keep it there; from a gap of at most 1 (both values in
    [0,1]) 368 frames suffice for every epsilon, the value then being [raw]
    itself.  The gap never grows and [smooth] never crosses [raw]: it moves
    monotonically towards it from the side it started on. *)
Theorem smoothing_converges (st : ScrollState) :
  (forall n, raw (ticks n st) = raw st) /\
  (forall eps, 0 < eps ->
     exists N, forall n, (N <= n)%nat ->
       Rabs (smooth (ticks n st) - raw st) < eps) /\
  (Rabs (raw st - smooth st) <= 1 ->
     forall n, (368 <= n)%nat -> smooth (ticks n st) = raw st) /\
  (forall n, Rabs (smooth (ticks (S n) st) - raw st) <=
             Rabs (smooth (ticks n st) - raw st)) /\
  (forall n,
     (smooth st <= raw st ->
      smooth (ticks n st) <= smooth (ticks (S n) st) <= raw st) /\
     (raw st <= smooth st ->
      raw st <= smooth (ticks (S n) st) <= smooth (ticks n st))).
Proof.
  split; [| split; [| split; [| split]]].
  - intros n. apply ticks_raw.
  - intros eps Heps. apply ticks_gap_vanishes. exact Heps.
  - apply ticks_settle_unit.
  - intros n.
    pose proof (tick_gap_contracts (ticks n st)) as H.
    rewrite tick_raw, ticks_raw, <- ticks_S in H.
    rewrite (Rabs_minus_sym (smooth (ticks (S n) st))).
    rewrite (Rabs_minus_sym (smooth (ticks n st))).
    pose proof (Rabs_pos (raw st - smooth (ticks n st))). lra.
  - intros n. apply ticks_no_overshoot.
Qed.

(** A jump from the top of the page to its end: after 368 frames the
    smoothed value is the raw one, and it never went past it. *)
Lemma smoothing_converges_witness :
  smooth (ticks 368 (mkScroll 1 0 0 false 0)) = 1 /\
  smooth (ticks 5 (mkScroll 1 0 0 false 0)) <=
  smooth (ticks 6 (mkScroll 1 0 0 false 0)) <= 1.
Proof.
  destruct (smoothing_converges (mkScroll 1 0 0 false 0))
    as [_ [_ [H368 [_ Hside]]]].
  split.
  - apply H368; [| apply Nat.le_refl].
    simpl. rewrite Rminus_0_r, Rabs_R1. apply Rle_refl.
  - apply (Hside 5%nat). simpl. apply Rle_0_1.
Defined.

(** One frame keeps a state of the unit interval in it. *)
Lemma tick_unit (st : ScrollState) :
  0 <= raw st <= 1 -> 0 <= smooth st <= 1 ->
  0 <= raw (tick st) <= 1 /\ 0 <= smooth (tick st) <= 1.
Proof.
  intros Hr Hs. split; [exact Hr |].
  unfold tick. simpl.
  destruct (Rltb (Rabs (raw st - smooth st)) 0.00003); [exact Hr |].
  destruct (Rgtb (Rabs (raw st - smooth st)) 0.06); split; nra.
Qed.

Lemma onScroll_raw_unit (y h ih : R) (st : ScrollState) :
  0 <= raw (onScroll y h ih st) <= 1.
Proof.
  unfold onScroll. simpl.
  destruct (Rgtb (h - ih) 0); [apply clamp01_bounds | lra].
Qed.

Lemma handle_unit (ev : Event) (st : ScrollState) :
  unit_state st -> unit_state (handle ev st).
Proof.
  intros [Hr Hs]. destruct ev as [y h ih | |]; simpl.
  - split; [apply onScroll_raw_unit | exact Hs].
  - split; assumption.
  - apply tick_unit; assumption.
Qed.

Lemma run_unit (evs : list Event) (st : ScrollState) :
  unit_state st -> unit_state (run evs st).
Proof.
  revert st. induction evs as [| ev evs IH]; intros st H; [exact H |].
  simpl. apply IH, handle_unit, H.
Qed.

(** C9. The raw value a scroll event stores is in [0,1] whatever the page
    geometry; a smoothing frame maps raw and smoothed values of [0,1] to
    values of [0,1]; hence both lie in [0,1] after any sequence of scroll
    events, idle timeouts and frames from the initial state. *)
Theorem scroll_progress_in_unit_interval :
  (forall y h ih st, 0 <= raw (onScroll y h ih st) <= 1) /\
  (forall st, 0 <= raw st <= 1 -> 0 <= smooth st <= 1 ->
              0 <= raw (tick st) <= 1 /\ 0 <= smooth (tick st) <= 1) /\
  (forall evs, 0 <= raw (run evs init) <= 1 /\
               0 <= smooth (run evs init) <= 1).
Proof.
  split; [| split].
  - apply onScroll_raw_unit.
  - apply tick_unit.
  - intros evs. apply (run_unit evs init).
    unfold unit_state, init. simpl. lra.
Qed.

(** One frame from raw 0.9 and smoothed 0.1. *)
Lemma scroll_progress_in_unit_interval_witness :
  0 <= smooth (tick (mkScroll 0.9 0.1 0 true 0)) <= 1.
Proof.
  destruct scroll_progress_in_unit_interval as [_ [H _]].
  apply (H (mkScroll 0.9 0.1 0 true 0)); simpl; lra.
Defined.


(** ** The collision state machine *)

Import Engine.

(** A frame changes the collision state in [_danger] only, and by the
    chapter and the flag alone. *)
Lemma frame_coll (f : Frame) (e : Engine) :
  coll (frame f e) =
  let c := coll e in
  if (chapterOf f <? 3)%nat then
    if collisionDone c
    then mkCollision false (collisionTime c) (collisionPt c) (collisionR c)
    else c
  else if (chapterOf f =? 4)%nat && negb (collisionDone c) then
    mkCollision true (f_time f) (dangerMid (f_time f))
                (vlength (dangerMid (f_time f)))
  else c.
Proof.
  unfold frame, _loop, chapterOf, setInputs, dangerMid.
  cbn [inp rig coll dview debris frags colLight].
  set (ch := getChapter (progress (f_inputs f))).
  unfold _danger.
  cbn [inp rig coll dview debris frags colLight].
  destruct (ch <? 3)%nat.
  - destruct (collisionDone (coll e)); reflexivity.
  - destruct (ch =? 3)%nat eqn:E3; destruct (ch =? 4)%nat eqn:E4;
      destruct (collisionDone (coll e)); try reflexivity.
    apply Nat.eqb_eq in E3, E4. lia.
Qed.

Lemma frame_coll_trigger (f : Frame) (e : Engine) :
  chapterOf f = 4%nat -> collisionDone (coll e) = false ->
  coll (frame f e) =
  mkCollision true (f_time f) (dangerMid (f_time f))
              (vlength (dangerMid (f_time f))).
Proof.
  intros Hch Hd. rewrite frame_coll. cbv zeta. rewrite Hch, Hd. reflexivity.
Qed.

Lemma frame_coll_hold (f : Frame) (e : Engine) :
  chapterOf f = 4%nat -> collisionDone (coll e) = true ->
  coll (frame f e) = coll e.
Proof.
  intros Hch Hd. rewrite frame_coll. cbv zeta. rewrite Hch, Hd. reflexivity.
Qed.

Lemma run_cons (f : Frame) (fs : list Frame) (e : Engine) :
  run (f :: fs) e = run fs (frame f e).
Proof. reflexivity. Qed.

Lemma triggers_cons (f : Frame) (fs : list Frame) (e : Engine) :
  triggers (f :: fs) e =
  ((if negb (collisionDone (coll e)) && collisionDone (coll (frame f e))
    then 1 else 0) + triggers fs (frame f e))%nat.
Proof. reflexivity. Qed.

Lemma run_app (fs gs : list Frame) (e : Engine) :
  run (fs ++ gs) e = run gs (run fs e).
Proof. unfold run. apply fold_left_app. Qed.

(** While the chapter stays 4 a set flag stays set, the collision state
    does not move, and nothing triggers. *)
Lemma run_hold (fs : list Frame) (e : Engine) :
  Forall (fun f => chapterOf f = 4%nat) fs ->
  collisionDone (coll e) = true ->
  coll (run fs e) = coll e /\ triggers fs e = 0%nat.
Proof.
  intros Hall. revert e. induction Hall as [| f fs Hf _ IH]; intros e Hd.
  - split; reflexivity.
  - rewrite run_cons, triggers_cons.
    pose proof (frame_coll_hold f e Hf Hd) as Hc.
    destruct (IH (frame f e)) as [IH1 IH2]; [rewrite Hc; exact Hd |].
    rewrite IH1, IH2, Hc, Hd. split; reflexivity.
Qed.

(** Values of [getChapter] at given numbers. *)
Ltac chapter_at p :=
  destruct (getChapter_cases p) as [H|[H|[H|[H|H]]]];
  solve [apply H | exfalso; lra].

Lemma chapter_0_5 : getChapter 0.5 = 2%nat.
Proof. chapter_at 0.5. Qed.
Lemma chapter_0_7 : getChapter 0.7 = 3%nat.
Proof. chapter_at 0.7. Qed.
Lemma chapter_0_75 : getChapter 0.75 = 3%nat.
Proof. chapter_at 0.75. Qed.
Lemma chapter_0_81 : getChapter 0.81 = 4%nat.
Proof. chapter_at 0.81. Qed.
Lemma chapter_0_82 : getChapter 0.82 = 4%nat.
Proof. chapter_at 0.82. Qed.
Lemma chapter_0_9 : getChapter 0.9 = 4%nat.
Proof. chapter_at 0.9. Qed.
Lemma chapter_0_95 : getChapter 0.95 = 4%nat.
Proof. chapter_at 0.95. Qed.

(** The scripted scenario: 0.75, then 0.81 (the collision), 0.95 (no new
    trigger, same point), back to 0.5 (flag cleared), and 0.81 again (a new
    trigger, with the midpoint of that later time). *)
Lemma scripted_scenario :
  let e1 := frame (scrollFrame 1 0.75) init in
  let e2 := frame (scrollFrame 2 0.81) e1 in
  let e3 := frame (scrollFrame 3 0.95) e2 in
  let e4 := frame (scrollFrame 4 0.5) e3 in
  let e5 := frame (scrollFrame 5 0.81) e4 in
  collisionDone (coll e1) = false /\
  collisionDone (coll e2) = true /\ collisionPt (coll e2) = dangerMid 2 /\
  coll e3 = coll e2 /\
  collisionDone (coll e4) = false /\
  collisionDone (coll e5) = true /\ collisionPt (coll e5) = dangerMid 5 /\
  triggers [scrollFrame 1 0.75; scrollFrame 2 0.81; scrollFrame 3 0.95;
            scrollFrame 4 0.5; scrollFrame 5 0.81] init = 2%nat.
Proof.
  intros e1 e2 e3 e4 e5.
  assert (C1 : coll e1 = coll init).
  { unfold e1. rewrite frame_coll. unfold chapterOf, scrollFrame. simpl progress.
    rewrite chapter_0_75. reflexivity. }
  assert (C2 : coll e2 = mkCollision true 2 (dangerMid 2) (vlength (dangerMid 2))).
  { unfold e2. apply frame_coll_trigger; [exact chapter_0_81 |].
    rewrite C1. reflexivity. }
  assert (C3 : coll e3 = coll e2).
  { unfold e3. apply frame_coll_hold; [exact chapter_0_95 |].
    rewrite C2. reflexivity. }
  assert (C4 : coll e4 =
               mkCollision false 2 (dangerMid 2) (vlength (dangerMid 2))).
  { unfold e4. rewrite frame_coll. unfold chapterOf, scrollFrame. simpl progress.
    rewrite chapter_0_5, C3, C2. reflexivity. }
  assert (C5 : coll e5 = mkCollision true 5 (dangerMid 5) (vlength (dangerMid 5))).
  { unfold e5. apply frame_coll_trigger; [exact chapter_0_81 |].
    rewrite C4. reflexivity. }
  rewrite !triggers_cons. fold e1. fold e2. fold e3. fold e4. fold e5.
  rewrite C1, C3, C2, C4, C5. simpl. repeat split; reflexivity.
Qed.

Lemma frame_inp (f : Frame) (e : Engine) : inp (frame f e) = f_inputs f.
Proof.
  unfold frame, _loop, setInputs.
  cbn [inp rig coll dview debris frags colLight].
  set (ch := getChapter (progress (f_inputs f))).
  unfold _danger.
  cbn [inp rig coll dview debris frags colLight].
  destruct (ch <? 3)%nat.
  - destruct (collisionDone (coll e)); reflexivity.
  - destruct (ch =? 3)%nat; destruct (ch =? 4)%nat;
      destruct (collisionDone (coll e)); reflexivity.
Qed.

Lemma chapterOf_le_4 (f : Frame) : (chapterOf f <= 4)%nat.
Proof. apply getChapter_le_4. Qed.

(** The flag after a frame, chapter by chapter. *)
Lemma frame_flag (f : Frame) (e : Engine) :
  collisionDone (coll (frame f e)) =
  if (chapterOf f <? 3)%nat then false
  else if (chapterOf f =? 4)%nat then true
  else collisionDone (coll e).
Proof.
  rewrite frame_coll. cbv zeta.
  destruct (chapterOf f <? 3)%nat.
  - destruct (collisionDone (coll e)) eqn:E; [reflexivity | exact E].
  - destruct (chapterOf f =? 4)%nat; simpl;
      destruct (collisionDone (coll e)) eqn:E; simpl; auto.
Qed.

(** Along runs from the constructor's state a set flag implies a chapter
    of at least 3 on the last frame. *)
Lemma run_flag_chapter (fs : list Frame) :
  collisionDone (coll (run fs init)) = true ->
  (3 <= getChapter (progress (inp (run fs init))))%nat.
Proof.
  destruct fs as [| f fs] using rev_ind; [discriminate |].
  rewrite run_app. simpl run. rewrite frame_inp, frame_flag.
  fold (chapterOf f).
  destruct (chapterOf f <? 3)%nat eqn:E; [discriminate |].
  apply Nat.ltb_ge in E. intros _. exact E.
Qed.

(** C1. On a frame of chapter 4 entered with the flag false, the flag goes
    from false to true and the collision time, point and radius are
    recorded from the clock and from the midpoint of the danger satellites
    at that instant.  On a frame of chapter 4 entered with the flag true
    the collision state is left as it is.  So along a run of frames that
    all lie in chapter 4, entered with the flag false (as it is after any
    frame of a chapter below 3), the flag flips exactly once, on the first
    of them, and the collision state after the run is the one recorded by
    that first frame. *)
Theorem collision_trigger_fires_once :
  (forall f e,
     chapterOf f = 4%nat -> collisionDone (coll e) = false ->
     collisionDone (coll (frame f e)) = true /\
     collisionTime (coll (frame f e)) = f_time f /\
     collisionPt (coll (frame f e)) =
       multiplyScalar (vadd (satPos dA (f_time f)) (satPos dB (f_time f))) 0.5 /\
     collisionR (coll (frame f e)) = vlength (collisionPt (coll (frame f e)))) /\
  (forall f e,
     chapterOf f = 4%nat -> collisionDone (coll e) = true ->
     coll (frame f e) = coll e) /\
  (forall f fs e,
     chapterOf f = 4%nat -> collisionDone (coll e) = false ->
     Forall (fun g => chapterOf g = 4%nat) fs ->
     triggers (f :: fs) e = 1%nat /\
     coll (run (f :: fs) e) = coll (frame f e) /\
     collisionDone (coll (run (f :: fs) e)) = true /\
     collisionPt (coll (run (f :: fs) e)) = dangerMid (f_time f) /\
     collisionTime (coll (run (f :: fs) e)) = f_time f) /\
  (forall g f fs e,
     (chapterOf g < 3)%nat -> chapterOf f = 4%nat ->
     Forall (fun h => chapterOf h = 4%nat) fs ->
     triggers (g :: f :: fs) e = 1%nat /\
     collisionPt (coll (run (g :: f :: fs) e)) = dangerMid (f_time f)).
Proof.
  assert (Hrun : forall f fs e,
     chapterOf f = 4%nat -> collisionDone (coll e) = false ->
     Forall (fun g => chapterOf g = 4%nat) fs ->
     triggers (f :: fs) e = 1%nat /\
     coll (run (f :: fs) e) = coll (frame f e) /\
     collisionDone (coll (run (f :: fs) e)) = true /\
     collisionPt (coll (run (f :: fs) e)) = dangerMid (f_time f) /\
     collisionTime (coll (run (f :: fs) e)) = f_time f).
  { intros f fs e Hch Hd Hall.
    pose proof (frame_coll_trigger f e Hch Hd) as Hc.
    destruct (run_hold fs (frame f e) Hall) as [H1 H2];
      [rewrite Hc; reflexivity |].
    rewrite run_cons, H1, triggers_cons, H2, Hd, Hc. simpl.
    repeat split; reflexivity. }
  split; [| split; [| split]].
  - intros f e Hch Hd. rewrite (frame_coll_trigger f e Hch Hd). simpl.
    repeat split; reflexivity.
  - apply frame_coll_hold.
  - exact Hrun.
  - intros g f fs e Hg Hf Hall.
    assert (Hd : collisionDone (coll (frame g e)) = false).
    { rewrite frame_flag. apply Nat.ltb_lt in Hg. rewrite Hg. reflexivity. }
    destruct (Hrun f fs (frame g e) Hf Hd Hall) as [H1 [_ [_ [H2 _]]]].
    rewrite run_cons, triggers_cons, Hd, H1, H2, andb_false_r.
    split; reflexivity.
Qed.

(** Entering chapter 4 at time 1 and scrolling on within it at time 2:
    one trigger, and the point recorded at time 1 is still there. *)
Lemma collision_trigger_fires_once_witness :
  triggers [scrollFrame 1 0.81; scrollFrame 2 0.95] init = 1%nat /\
  collisionPt (coll (run [scrollFrame 1 0.81; scrollFrame 2 0.95] init)) =
  dangerMid 1.
Proof.
  destruct collision_trigger_fires_once as [_ [_ [H _]]].
  destruct (H (scrollFrame 1 0.81) [scrollFrame 2 0.95] init)
    as [H1 [_ [_ [H2 _]]]].
  - exact chapter_0_81.
  - reflexivity.
  - constructor; [exact chapter_0_95 | constructor].
  - split; [exact H1 | exact H2].
Defined.

(** C2, as the code has it.  After a frame the flag is true when the
    chapter is 4, false when the chapter is below 3, and what it was when
    the chapter is 3 (the whole collision state is then left alone).  The
    flag goes from true to false exactly on a frame whose chapter is below
    3.  So, from the constructor's state on, the flag is false whenever the
    chapter is below 3. *)
Theorem collision_flag_by_chapter :
  (forall f e, chapterOf f = 4%nat ->
               collisionDone (coll (frame f e)) = true) /\
  (forall f e, (chapterOf f < 3)%nat ->
               collisionDone (coll (frame f e)) = false) /\
  (forall f e, chapterOf f = 3%nat -> coll (frame f e) = coll e) /\
  (forall f e,
     (collisionDone (coll e) = true /\
      collisionDone (coll (frame f e)) = false) <->
     (collisionDone (coll e) = true /\ (chapterOf f < 3)%nat)) /\
  (forall fs,
     (getChapter (progress (inp (run fs init))) < 3)%nat ->
     collisionDone (coll (run fs init)) = false).
Proof.
  split; [| split; [| split; [| split]]].
  - intros f e H. rewrite frame_flag, H. reflexivity.
  - intros f e H. rewrite frame_flag.
    apply Nat.ltb_lt in H. rewrite H. reflexivity.
  - intros f e H. rewrite frame_coll, H. reflexivity.
  - intros f e. rewrite frame_flag.
    destruct (chapterOf f <? 3)%nat eqn:E.
    + apply Nat.ltb_lt in E. tauto.
    + apply Nat.ltb_ge in E.
      destruct (chapterOf f =? 4)%nat; split; intros [H1 H2];
        try congruence; lia.
  - intros fs H.
    destruct (collisionDone (coll (run fs init))) eqn:E; [| reflexivity].
    apply run_flag_chapter in E. lia.
Qed.

(** A frame of chapter 4, one of chapter 3 (nothing changes), one of
    chapter 2 (the flag is cleared). *)
Lemma collision_flag_by_chapter_witness :
  collisionDone (coll (frame (scrollFrame 1 0.9) init)) = true /\
  coll (frame (scrollFrame 2 0.7) (frame (scrollFrame 1 0.9) init)) =
  coll (frame (scrollFrame 1 0.9) init) /\
  collisionDone (coll (frame (scrollFrame 3 0.5) init)) = false.
Proof.
  destruct collision_flag_by_chapter as [H4 [Hlow [H3 _]]].
  split; [| split].
  - apply H4. exact chapter_0_9.
  - apply H3. exact chapter_0_7.
  - apply Hlow. unfold chapterOf, scrollFrame. simpl progress.
    rewrite chapter_0_5. apply Nat.lt_succ_diag_r.
Defined.

(** C2 as stated fails: enter chapter 4 at progress 0.9, scroll back to 0.7.
    The chapter is 3, below the terminal one, and the flag is still true. *)
Lemma flag_still_set_in_chapter_3 :
  let e := run [scrollFrame 1 0.9; scrollFrame 2 0.7] init in
  getChapter (progress (inp e)) = 3%nat /\
  collisionDone (coll e) = true /\
  ~ (collisionDone (coll e) = true <->
     getChapter (progress (inp e)) = 4%nat).
Proof.
  intros e.
  assert (Hch : getChapter (progress (inp e)) = 3%nat).
  { unfold e. rewrite !run_cons. simpl run. rewrite frame_inp.
    exact chapter_0_7. }
  assert (Hd : collisionDone (coll e) = true).
  { unfold e. rewrite !run_cons. simpl run. rewrite !frame_flag.
    unfold chapterOf, scrollFrame. simpl progress.
    rewrite chapter_0_7, chapter_0_9. reflexivity. }
  split; [exact Hch | split; [exact Hd |]].
  intros [H _]. specialize (H Hd). rewrite Hch in H. discriminate.
Qed.

(** The other side of the same design: coming back into chapter 4 from
    chapter 3 with the flag still set starts no second collision; the
    point recorded at time 1 is kept. *)
Lemma reentry_from_chapter_3_keeps_collision :
  let fs := [scrollFrame 1 0.9; scrollFrame 2 0.7; scrollFrame 3 0.9] in
  triggers fs init = 1%nat /\
  collisionPt (coll (run fs init)) = dangerMid 1 /\
  collisionTime (coll (run fs init)) = 1.
Proof.
  intros fs. unfold fs.
  set (e1 := frame (scrollFrame 1 0.9) init).
  set (e2 := frame (scrollFrame 2 0.7) e1).
  set (e3 := frame (scrollFrame 3 0.9) e2).
  assert (C1 : coll e1 = mkCollision true 1 (dangerMid 1) (vlength (dangerMid 1))).
  { unfold e1. apply frame_coll_trigger; [exact chapter_0_9 | reflexivity]. }
  assert (C2 : coll e2 = coll e1).
  { unfold e2. rewrite frame_coll. unfold chapterOf, scrollFrame.
    simpl progress. rewrite chapter_0_7. reflexivity. }
  assert (C3 : coll e3 = coll e2).
  { unfold e3. apply frame_coll_hold; [exact chapter_0_9 |].
    rewrite C2, C1. reflexivity. }
  rewrite !triggers_cons, !run_cons. fold e1. fold e2. fold e3.
  simpl run. rewrite C3, C2, C1. simpl. repeat split; reflexivity.
Qed.

(** The earlier scene does clear its flag as soon as the chapter is below
    4: with [_prevChapter4] equal to the flag (as it is from the constructor
    on), the flag after [_updateDebris] is true exactly in chapter 4. *)
Lemma scene_flag_iff_terminal (t : R) (ch : nat) (p4 : R)
      (s : Scene.DebrisState) :
  (ch <= 4)%nat ->
  Scene.prevChapter4 s = Scene.debrisExploded s ->
  let s' := Scene._updateDebris t ch p4 s in
  (Scene.debrisExploded s' = true <-> ch = 4%nat) /\
  Scene.prevChapter4 s' = Scene.debrisExploded s'.
Proof.
  intros Hle Hinv. unfold Scene._updateDebris.
  destruct ch as [|[|[|[|[|ch]]]]]; try lia; simpl;
    rewrite ?Hinv; destruct (Scene.debrisExploded s) eqn:E; simpl;
    rewrite ?Hinv, ?E; simpl; split; try split; try congruence; try lia; auto.
Qed.


(** ** The Kessler cloud *)

(** The opacity [_debris] hands to the cloud in chapter 4, as a function of
    the progress. *)
Lemma frame_kesslerOp (f : Frame) (e : Engine) :
  kesslerOp (debris (frame f e)) =
  if (chapterOf f =? 4)%nat then
    clamp (smootherstep (remap (progress (f_inputs f)) PHASES.P4 1.0) * 2.0)
          0 0.8
  else 0.
Proof.
  pose proof (frame_flag f e) as Hflag.
  pose proof (chapterOf_le_4 f) as Hle.
  unfold frame, _loop, chapterOf, setInputs in *.
  cbn [inp rig coll dview debris frags colLight] in *.
  set (ch := getChapter (progress (f_inputs f))) in *.
  unfold _debris.
  destruct (ch =? 4)%nat eqn:E4.
  - apply Nat.eqb_eq in E4. rewrite E4 in *. simpl in Hflag.
    rewrite Hflag. reflexivity.
  - apply Nat.eqb_neq in E4.
    replace (4 <=? ch)%nat with false
      by (symmetry; apply Nat.leb_gt; lia).
    reflexivity.
Qed.

Lemma kessler_level_mono (p q : R) :
  p <= q ->
  clamp (smootherstep (remap p PHASES.P4 1.0) * 2.0) 0 0.8 <=
  clamp (smootherstep (remap q PHASES.P4 1.0) * 2.0) 0 0.8.
Proof.
  intros Hpq. apply clamp_mono.
  assert (smootherstep (remap p PHASES.P4 1.0) <=
          smootherstep (remap q PHASES.P4 1.0)).
  { apply smootherstep_mono, remap_mono; [unfold PHASES.P4; lra | exact Hpq]. }
  lra.
Qed.

Lemma frame_kesslerOp_bounds (f : Frame) (e : Engine) :
  0 <= kesslerOp (debris (frame f e)) <= 0.8.
Proof.
  rewrite frame_kesslerOp.
  destruct (chapterOf f =? 4)%nat; [apply clamp_bounds |]; lra.
Qed.

Lemma frame_kesslerOp_mono (f g : Frame) (e e' : Engine) :
  progress (f_inputs f) <= progress (f_inputs g) ->
  kesslerOp (debris (frame f e)) <= kesslerOp (debris (frame g e')).
Proof.
  intros Hpq. rewrite !frame_kesslerOp.
  pose proof (getChapter_mono _ _ Hpq) as Hch.
  pose proof (chapterOf_le_4 g) as Hle.
  unfold chapterOf in *.
  destruct (getChapter (progress (f_inputs f)) =? 4)%nat eqn:Ef.
  - apply Nat.eqb_eq in Ef.
    replace (getChapter (progress (f_inputs g)) =? 4)%nat with true
      by (symmetry; apply Nat.eqb_eq; lia).
    apply kessler_level_mono. exact Hpq.
  - destruct (getChapter (progress (f_inputs g)) =? 4)%nat;
      [apply clamp_bounds |]; lra.
Qed.

Lemma run_kesslerOp_bounds (fs : list Frame) :
  0 <= kesslerOp (debris (run fs init)) <= 0.8.
Proof.
  destruct fs as [| f fs] using rev_ind.
  - simpl. lra.
  - rewrite run_app. simpl run. apply frame_kesslerOp_bounds.
Qed.

Lemma frame_kesslerOp_at_cap (f : Frame) (e : Engine) :
  0.9 <= progress (f_inputs f) -> kesslerOp (debris (frame f e)) = 0.8.
Proof.
  intros Hp. rewrite frame_kesslerOp.
  replace (chapterOf f =? 4)%nat with true.
  - assert (H5 : smootherstep 0.5 <=
                 smootherstep (remap (progress (f_inputs f)) PHASES.P4 1.0)).
    { apply smootherstep_mono.
      replace 0.5 with (remap 0.9 PHASES.P4 1.0).
      - apply remap_mono; [unfold PHASES.P4; lra | exact Hp].
      - unfold remap, clamp01, PHASES.P4.
        replace ((0.9 - 0.8) / (1.0 - 0.8)) with 0.5 by lra.
        apply clamp_id. lra. }
    assert (E5 : smootherstep 0.5 = 0.5) by (unfold smootherstep; lra).
    unfold clamp. rewrite Rmin_left by lra. apply Rmax_right. lra.
  - symmetry. apply Nat.eqb_eq. unfold chapterOf.
    destruct (getChapter_cases (progress (f_inputs f)))
      as [H|[H|[H|[H|H]]]]; solve [apply H | exfalso; lra].
Qed.

(** C6, as the code has it.  The opacity of the Kessler cloud is at most
    0.8, below full opacity, after every frame and along every run.  It is
    set anew on each frame from that frame's progress alone, and grows with
    it: a frame at a lower or equal progress gives a lower or equal
    opacity, whatever came before.  Forward scrolling therefore never
    reduces it, and it stays at the cap from progress 0.9 on. *)
Theorem kessler_opacity_capped_and_monotone :
  (forall f e, 0 <= kesslerOp (debris (frame f e)) <= 0.8) /\
  (forall fs, 0 <= kesslerOp (debris (run fs init)) <= 0.8) /\
  0.8 < 1 /\
  (forall f g e e',
     progress (f_inputs f) <= progress (f_inputs g) ->
     kesslerOp (debris (frame f e)) <= kesslerOp (debris (frame g e'))) /\
  (forall f e, 0.9 <= progress (f_inputs f) ->
               kesslerOp (debris (frame f e)) = 0.8).
Proof.
  split; [| split; [| split; [| split]]].
  - apply frame_kesslerOp_bounds.
  - apply run_kesslerOp_bounds.
  - lra.
  - apply frame_kesslerOp_mono.
  - apply frame_kesslerOp_at_cap.
Qed.

(** Scrolling forward from 0.82 to 0.9, and the cap at 0.95. *)
Lemma kessler_opacity_capped_and_monotone_witness :
  kesslerOp (debris (frame (scrollFrame 1 0.82) init)) <=
  kesslerOp (debris (frame (scrollFrame 2 0.9) init)) /\
  kesslerOp (debris (frame (scrollFrame 3 0.95) init)) = 0.8.
Proof.
  destruct kessler_opacity_capped_and_monotone as [_ [_ [_ [Hm Hc]]]].
  split; [apply Hm | apply Hc]; simpl; lra.
Defined.

(** C6 as stated fails: both frames are in chapter 4, the cloud is visible
    after the first (opacity 0.8), and scrolling back from 0.9 to 0.82
    reduces its opacity. *)
Lemma kessler_opacity_drops_on_backscroll :
  let e1 := frame (scrollFrame 1 0.9) init in
  let e2 := frame (scrollFrame 2 0.82) e1 in
  chapterOf (scrollFrame 1 0.9) = 4%nat /\
  chapterOf (scrollFrame 2 0.82) = 4%nat /\
  kesslerOp (debris e1) = 0.8 /\
  kesslerOp (debris e2) < kesslerOp (debris e1).
Proof.
  intros e1 e2.
  assert (H1 : kesslerOp (debris e1) = 0.8).
  { apply frame_kesslerOp_at_cap. simpl. lra. }
  assert (H2 : kesslerOp (debris e2) = 0.01712).
  { unfold e2. rewrite frame_kesslerOp. unfold chapterOf, scrollFrame.
    simpl progress. rewrite chapter_0_82. simpl.
    unfold remap, clamp01, PHASES.P4.
    replace ((0.82 - 0.8) / (1.0 - 0.8)) with 0.1 by lra.
    rewrite (clamp_id 0.1) by lra.
    replace (smootherstep 0.1 * 2.0) with 0.01712 by (unfold smootherstep; lra).
    apply clamp_id. lra. }
  split; [exact chapter_0_9 | split; [exact chapter_0_82 | split]].
  - exact H1.
  - rewrite H1, H2. lra.
Qed.

(** The earlier scene sets its cloud the same way, capped at 0.92. *)
Lemma scene_kesslerOpacity (t : R) (ch : nat) (p4 : R) (s : Scene.DebrisState) :
  Scene.kesslerOpacity (Scene._updateDebris t ch p4 s) =
  if (4 <=? ch)%nat then clamp (p4 * 2.5) 0 0.92 else 0.
Proof.
  unfold Scene._updateDebris. destruct (4 <=? ch)%nat; reflexivity.
Qed.


(** ** The camera *)

Lemma vec3_eq (a b : Vec3) :
  vx a = vx b -> vy a = vy b -> vz a = vz b -> a = b.
Proof. destruct a, b. simpl. intros -> -> ->. reflexivity. Qed.

(** [_cam] puts the camera at the rig's spherical position, adds the
    scroll-velocity skew, and adds the shake offset while shaking. *)
Lemma cam_position (t : R) (ch : nat) (p3 : R) (i : Inputs) (c : CameraRig) :
  let c' := _cam t ch p3 i c in
  cameraPos c' =
  vadd (vadd (setFromSpherical (camSph c')) (velSkewOffset i))
       (if shaking t c then shakeOffset t (t - shakeT c) else vzero).
Proof.
  unfold _cam, shaking, velSkewOffset.
  destruct (negb (isScrolling i)); destruct (isDragging i);
    destruct (ch =? 3)%nat; destruct (shakeOn c);
    try destruct (Rgtb (t - shakeT c) 1.8);
    cbv beta iota zeta; cbn [cameraPos camSph andb negb];
    apply vec3_eq; unfold vadd, vzero, shakeOffset; cbn [vx vy vz]; ring.
Qed.

(** [_danger], [_debris], [_fragUpdate] and [_colLight] leave the camera
    where [_cam] put it. *)
Lemma frame_rig (f : Frame) (e : Engine) :
  let c' := _cam (f_time f) (chapterOf f)
                 (smootherstep (remap (progress (f_inputs f))
                                      PHASES.P3 PHASES.P4))
                 (f_inputs f) (rig e) in
  cameraPos (rig (frame f e)) = cameraPos c' /\
  camSph (rig (frame f e)) = camSph c' /\
  camTarget (rig (frame f e)) = camTarget c' /\
  camUserTheta (rig (frame f e)) = camUserTheta c' /\
  camUserPhi (rig (frame f e)) = camUserPhi c'.
Proof.
  unfold frame, _loop, chapterOf, setInputs.
  cbn [inp rig coll dview debris frags colLight].
  set (ch := getChapter (progress (f_inputs f))).
  set (c' := _cam _ _ _ _ _).
  unfold _danger.
  cbn [inp rig coll dview debris frags colLight].
  destruct (ch <? 3)%nat.
  - destruct (collisionDone (coll e)); repeat split; reflexivity.
  - destruct (ch =? 3)%nat; destruct (ch =? 4)%nat;
      destruct (collisionDone (coll e)); repeat split; reflexivity.
Qed.

Lemma frame_cameraPos (f : Frame) (e : Engine) :
  cameraPos (rig (frame f e)) =
  vadd (vadd (setFromSpherical (camSph (rig (frame f e))))
             (velSkewOffset (f_inputs f)))
       (if shaking (f_time f) (rig e)
        then shakeOffset (f_time f) (f_time f - shakeT (rig e)) else vzero).
Proof.
  destruct (frame_rig f e) as [Hp [Hs _]]. rewrite Hp, Hs.
  apply cam_position.
Qed.

Lemma vadd_zero_r (a : Vec3) : vadd a vzero = a.
Proof. apply vec3_eq; simpl; ring. Qed.

(** The target of the rig is the chapter's locked framing plus the user
    offsets (outside chapter 3, where the framing leans to the danger
    pair), and the rig follows its target by 3.5 percent a frame. *)
Lemma cam_rig_follows (t : R) (ch : nat) (p3 : R) (i : Inputs) (c : CameraRig) :
  let c' := _cam t ch p3 i c in
  let L := nth ch camLocked (mkLocked 0 0 0) in
  (ch <> 3%nat ->
   theta (camTarget c') = l_th L + camUserTheta c' /\
   phi (camTarget c') = l_ph L + camUserPhi c' /\
   radius (camTarget c') = l_d L) /\
  theta (camSph c') =
    theta (camSph c) + (theta (camTarget c') - theta (camSph c)) * 0.035 /\
  radius (camSph c') =
    radius (camSph c) + (radius (camTarget c') - radius (camSph c)) * 0.035 /\
  phi (camSph c') =
    clamp (phi (camSph c) + (phi (camTarget c') - phi (camSph c)) * 0.035)
          0.15 (PI - 0.15).
Proof.
  unfold _cam.
  destruct (negb (isScrolling i)); destruct (isDragging i);
    destruct (ch =? 3)%nat eqn:E3; destruct (shakeOn c);
    try destruct (Rgtb (t - shakeT c) 1.8);
    (split; [intros H3; try (apply Nat.eqb_eq in E3; contradiction) |]);
    cbn -[clamp]; repeat split; reflexivity.
Qed.

(** C7, as the code has it.  After every frame the camera's position is
    the position of the rig's spherical coordinates displaced upwards by
    4.5 times the scroll velocity, and, while the shake envelope is on,
    by the shake offset as well; with no shake and no scroll velocity it is
    the spherical position itself.  The spherical coordinates follow a
    target that is the chapter's framing plus the user's azimuth and polar
    offsets. *)
Theorem camera_position_from_rig (f : Frame) (e : Engine) :
  let c' := rig (frame f e) in
  let base := setFromSpherical (camSph c') in
  let t := f_time f in
  (shaking t (rig e) = false ->
   cameraPos c' = vadd base (velSkewOffset (f_inputs f)) /\
   vx (cameraPos c') = vx base /\
   vy (cameraPos c') = vy base + 4.5 * scrollVelocity (f_inputs f) /\
   vz (cameraPos c') = vz base) /\
  (shaking t (rig e) = false -> scrollVelocity (f_inputs f) = 0 ->
   cameraPos c' = base) /\
  (shaking t (rig e) = true ->
   cameraPos c' =
   vadd (vadd base (velSkewOffset (f_inputs f)))
        (shakeOffset t (t - shakeT (rig e)))) /\
  (chapterOf f <> 3%nat ->
   let L := nth (chapterOf f) camLocked (mkLocked 0 0 0) in
   theta (camTarget c') = l_th L + camUserTheta c' /\
   phi (camTarget c') = l_ph L + camUserPhi c' /\
   radius (camTarget c') = l_d L) /\
  theta (camSph c') =
    theta (camSph (rig e)) +
    (theta (camTarget c') - theta (camSph (rig e))) * 0.035 /\
  radius (camSph c') =
    radius (camSph (rig e)) +
    (radius (camTarget c') - radius (camSph (rig e))) * 0.035.
Proof.
  intros c' base t.
  pose proof (frame_cameraPos f e) as Hpos. fold c' base t in Hpos.
  destruct (frame_rig f e) as [_ [Hs [Ht [Hut Hup]]]].
  fold c' in Hs, Ht, Hut, Hup.
  pose proof (cam_rig_follows t (chapterOf f)
                (smootherstep (remap (progress (f_inputs f))
                                     PHASES.P3 PHASES.P4))
                (f_inputs f) (rig e)) as Hrig.
  cbv zeta in Hrig. fold t in Hs, Ht, Hut, Hup.
  rewrite <- Hs, <- Ht, <- Hut, <- Hup in Hrig.
  destruct Hrig as [Hlock [Hth [Hrad _]]].
  split; [| split; [| split; [| split; [| split]]]].
  - intros Hsh. rewrite Hsh, vadd_zero_r in Hpos. rewrite Hpos.
    split; [reflexivity |].
    unfold velSkewOffset, vadd. cbn [vx vy vz]. repeat split; lra.
  - intros Hsh Hv. rewrite Hsh, vadd_zero_r in Hpos. rewrite Hpos.
    unfold velSkewOffset, vadd. rewrite Hv.
    apply vec3_eq; cbn [vx vy vz]; ring.
  - intros Hsh. rewrite Hsh in Hpos. exact Hpos.
  - exact Hlock.
  - exact Hth.
  - exact Hrad.
Qed.

(** The first frame after construction, the page at rest. *)
Lemma camera_position_from_rig_witness :
  cameraPos (rig (frame (scrollFrame 0 0) init)) =
  setFromSpherical (camSph (rig (frame (scrollFrame 0 0) init))).
Proof.
  destruct (camera_position_from_rig (scrollFrame 0 0) init) as [_ [H _]].
  apply H; reflexivity.
Defined.

(** C7 as stated fails: no shake is on (none has ever been started), the
    page scrolls with velocity 0.01, and the camera is not at the position
    of the rig's spherical coordinates: it sits 0.045 above it. *)
Lemma camera_displaced_by_scroll_velocity :
  let f := mkFrame 0 (mkInputs 0 true false 0 0 0.01) in
  let c' := rig (frame f init) in
  shakeOn (rig init) = false /\
  shaking (f_time f) (rig init) = false /\
  vy (cameraPos c') = vy (setFromSpherical (camSph c')) + 0.045 /\
  cameraPos c' <> setFromSpherical (camSph c').
Proof.
  intros f c'.
  assert (Hy : vy (cameraPos c') = vy (setFromSpherical (camSph c')) + 0.045).
  { unfold c'. rewrite (frame_cameraPos f init).
    change (shaking (f_time f) (rig init)) with false.
    rewrite vadd_zero_r. unfold velSkewOffset, f. simpl. lra. }
  repeat split; try reflexivity; [exact Hy |].
  intros E. rewrite E in Hy. lra.
Qed.


(** ** Vectors *)

Lemma sqnorm_nonneg (v : Vec3) : 0 <= vx v * vx v + vy v * vy v + vz v * vz v.
Proof. nra. Qed.

Lemma vlength_nonneg (v : Vec3) : 0 <= vlength v.
Proof. apply sqrt_pos. Qed.

Lemma vlength_sq (v : Vec3) :
  vlength v * vlength v = vx v * vx v + vy v * vy v + vz v * vz v.
Proof. apply sqrt_sqrt, sqnorm_nonneg. Qed.

Lemma vlength_multiplyScalar (v : Vec3) (k : R) :
  vlength (multiplyScalar v k) = Rabs k * vlength v.
Proof.
  unfold vlength, multiplyScalar. simpl.
  replace (vx v * k * (vx v * k) + vy v * k * (vy v * k) + vz v * k * (vz v * k))
    with (Rsqr k * (vx v * vx v + vy v * vy v + vz v * vz v))
    by (unfold Rsqr; ring).
  rewrite sqrt_mult; [| apply Rle_0_sqr | apply sqnorm_nonneg].
  rewrite sqrt_Rsqr_abs. reflexivity.
Qed.

Lemma vlength_normalize (v : Vec3) :
  vlength v <> 0 -> vlength (normalize v) = 1.
Proof.
  intros H. unfold normalize. destruct (Reqb_spec (vlength v) 0); [contradiction |].
  rewrite vlength_multiplyScalar.
  pose proof (vlength_nonneg v).
  rewrite Rabs_right.
  - apply Rinv_l. assumption.
  - apply Rle_ge. left. apply Rinv_0_lt_compat. lra.
Qed.

Lemma vlength_setLength (v : Vec3) (l : R) :
  vlength v <> 0 -> 0 <= l -> vlength (setLength v l) = l.
Proof.
  intros Hv Hl. unfold setLength.
  rewrite vlength_multiplyScalar, vlength_normalize by assumption.
  rewrite Rabs_right; lra.
Qed.

(** The zero vector has no direction to stretch: [setLength] leaves it. *)
Lemma setLength_zero (l : R) : setLength vzero l = vzero.
Proof.
  unfold setLength, normalize, multiplyScalar, vzero. simpl.
  apply vec3_eq; simpl; ring.
Qed.

Lemma dot_le_lengths (a b : Vec3) :
  vx a * vx b + vy a * vy b + vz a * vz b <= vlength a * vlength b.
Proof.
  pose proof (vlength_nonneg a) as Ha. pose proof (vlength_nonneg b) as Hb.
  pose proof (vlength_sq a) as Sa. pose proof (vlength_sq b) as Sb.
  set (d := vx a * vx b + vy a * vy b + vz a * vz b).
  destruct (Rle_dec d 0) as [Hd | Hd]; [nra |].
  assert (Hsq : d * d <= (vlength a * vlength b) * (vlength a * vlength b)).
  { replace (vlength a * vlength b * (vlength a * vlength b))
      with ((vlength a * vlength a) * (vlength b * vlength b)) by ring.
    rewrite Sa, Sb.
    pose proof (Rle_0_sqr (vx a * vy b - vy a * vx b)) as H1.
    pose proof (Rle_0_sqr (vx a * vz b - vz a * vx b)) as H2.
    pose proof (Rle_0_sqr (vy a * vz b - vz a * vy b)) as H3.
    assert (E : (vx a * vx a + vy a * vy a + vz a * vz a) *
                (vx b * vx b + vy b * vy b + vz b * vz b) - d * d =
                Rsqr (vx a * vy b - vy a * vx b) +
                Rsqr (vx a * vz b - vz a * vx b) +
                Rsqr (vy a * vz b - vz a * vy b))
      by (unfold d, Rsqr; ring).
    lra. }
  assert (Hd' : 0 < d) by lra.
  assert (Hab : 0 <= vlength a * vlength b) by (apply Rmult_le_pos; assumption).
  destruct (Rle_dec d (vlength a * vlength b)) as [Hle | Hgt]; [exact Hle |].
  exfalso.
  assert (vlength a * vlength b < d) by lra.
  assert ((vlength a * vlength b) * (vlength a * vlength b) < d * d)
    by (apply Rmult_le_0_lt_compat; lra).
  lra.
Qed.

Lemma vlength_triangle (a b : Vec3) :
  vlength (vadd a b) <= vlength a + vlength b.
Proof.
  pose proof (vlength_nonneg a) as Ha. pose proof (vlength_nonneg b) as Hb.
  pose proof (vlength_nonneg (vadd a b)) as Hab.
  pose proof (vlength_sq a) as Sa. pose proof (vlength_sq b) as Sb.
  pose proof (vlength_sq (vadd a b)) as Sab. simpl in Sab.
  pose proof (dot_le_lengths a b) as Hdot.
  nra.
Qed.

Lemma vlength_triangle_rev (a b : Vec3) :
  vlength a - vlength b <= vlength (vadd a b).
Proof.
  pose proof (vlength_triangle (vadd a b) (multiplyScalar b (-1))) as H.
  rewrite vlength_multiplyScalar in H.
  replace (vadd (vadd a b) (multiplyScalar b (-1))) with a in H
    by (apply vec3_eq; simpl; ring).
  assert (E : Rabs (-1) = 1) by (unfold Rabs; destruct (Rcase_abs (-1)); lra).
  rewrite E in H. lra.
Qed.

(** ** The debris shell *)

(** The drift moves a particle by less than 0.0036. *)
Lemma driftOffset_small (t : R) (i : nat) (d : Particle) :
  vlength (driftOffset t i d) <= 0.0036.
Proof.
  unfold vlength, driftOffset. cbn [vx vy vz].
  set (a := t * (0.035 + life d * 0.05) + INR i * 0.031).
  set (b := t * (0.035 + life d * 0.05) + INR i * 0.7).
  pose proof (sin_cos_sq a) as Ha. pose proof (sin_cos_sq b) as Hb.
  rewrite <- (sqrt_square 0.0036) by lra.
  apply sqrt_le_1_alt. nra.
Qed.

(** With the integrated position at or above the floor, the clamps leave
    its distance from the origin between 0.85 and 1.18 times the collision
    radius. *)
Lemma shellClamp_band (cR : R) (p : Vec3) :
  0 <= cR -> EARTH_RADIUS * 1.03 <= vlength p ->
  cR * 0.85 <= vlength (shellClamp cR p) <= cR * 1.18.
Proof.
  intros HR Hfloor. unfold shellClamp, Rgtb.
  assert (Hpos : vlength p <> 0) by (unfold EARTH_RADIUS in Hfloor; lra).
  rewrite (Rltb_false (vlength p) (EARTH_RADIUS * 1.03)) by lra.
  destruct (Rltb_spec (cR * 1.18) (vlength p)) as [Hhi | Hhi].
  - rewrite (Rltb_false (vlength p) (cR * 0.85)) by lra.
    rewrite vlength_setLength by lra. lra.
  - destruct (Rltb_spec (vlength p) (cR * 0.85)) as [Hlo | Hlo].
    + rewrite vlength_setLength by lra. lra.
    + lra.
Qed.

(** Below the floor (the integrated position not the origin, the collision
    radius not 0) the last clamp decides: the particle is put on the sphere
    of radius 1.03 times the planet's. *)
Lemma shellClamp_floor (cR : R) (p : Vec3) :
  0 < cR -> vlength p <> 0 -> vlength p < EARTH_RADIUS * 1.03 ->
  vlength (shellClamp cR p) = EARTH_RADIUS * 1.03.
Proof.
  intros HR Hpos Hlow. unfold shellClamp, Rgtb.
  rewrite (Rltb_true (vlength p) (EARTH_RADIUS * 1.03)) by lra.
  assert (HE : 0 <= EARTH_RADIUS * 1.03) by (unfold EARTH_RADIUS; lra).
  pose proof (vlength_nonneg p) as Hp.
  destruct (Rltb_spec (cR * 1.18) (vlength p)) as [Hhi | Hhi];
    destruct (Rltb_spec (vlength p) (cR * 0.85)) as [Hlo | Hlo].
  - lra.
  - apply vlength_setLength; [| exact HE].
    rewrite vlength_setLength by lra. lra.
  - apply vlength_setLength; [| exact HE].
    rewrite vlength_setLength by lra. lra.
  - apply vlength_setLength; assumption.
Qed.

Lemma mapi_from_nth_error {A B} (f : nat -> A -> B) (k : nat) (l : list A)
      (i : nat) :
  nth_error (mapi_from f k l) i = option_map (f (k + i)%nat) (nth_error l i).
Proof.
  revert k i. induction l as [| a l IH]; intros k i.
  - destruct i; reflexivity.
  - destruct i as [| i]; simpl.
    + rewrite Nat.add_0_r. reflexivity.
    + rewrite IH. replace (S k + i)%nat with (k + S i)%nat by lia. reflexivity.
Qed.

Lemma mapi_nth_error {A B} (f : nat -> A -> B) (l : list A) (i : nat) :
  nth_error (mapi f l) i = option_map (f i) (nth_error l i).
Proof. unfold mapi. apply (mapi_from_nth_error f 0 l i). Qed.

(** In chapter 4 with the collision triggered, [_debris] steps each active
    particle and leaves an inactive one as it is. *)
Lemma debris_particle (t : R) (ch : nat) (p4 : R) (c : CollisionState)
      (s : DebrisSys) (i : nat) (d : Particle) :
  (4 <= ch)%nat -> collisionDone c = true ->
  nth_error (debrisP s) i = Some d ->
  nth_error (debrisP (_debris t ch p4 c s)) i =
  Some (if active d
        then debrisStep (collisionR c) (Rmax 0 (t - collisionTime c)) t i d
        else d).
Proof.
  intros Hch Hd Hi. unfold _debris.
  apply Nat.leb_le in Hch. rewrite Hch, Hd. simpl.
  rewrite mapi_nth_error, Hi. reflexivity.
Qed.

Lemma sqrt_ge_of_sq (a x : R) : 0 <= a -> a * a <= x -> a <= sqrt x.
Proof.
  intros Ha H. rewrite <- (sqrt_square a Ha). apply sqrt_le_1_alt. exact H.
Qed.

Lemma sqrt_le_of_sq (a x : R) : 0 <= a -> x <= a * a -> sqrt x <= a.
Proof.
  intros Ha H. rewrite <- (sqrt_square a Ha). apply sqrt_le_1_alt. exact H.
Qed.

(** With the floor not above the ceiling of the band, a position at or
    above the floor stays at or above it through the clamps. *)
Lemma shellClamp_keeps_floor (cR : R) (p : Vec3) :
  EARTH_RADIUS * 1.03 <= cR * 1.18 -> EARTH_RADIUS * 1.03 <= vlength p ->
  EARTH_RADIUS * 1.03 <= vlength (shellClamp cR p).
Proof.
  intros Hfit Hfloor. unfold shellClamp, Rgtb.
  assert (Hpos : vlength p <> 0) by (unfold EARTH_RADIUS in Hfloor; lra).
  assert (HR : 0 <= cR) by (unfold EARTH_RADIUS in Hfit; lra).
  rewrite (Rltb_false (vlength p) (EARTH_RADIUS * 1.03)) by lra.
  destruct (Rltb_spec (cR * 1.18) (vlength p)) as [Hhi | Hhi].
  - rewrite (Rltb_false (vlength p) (cR * 0.85)) by lra.
    rewrite vlength_setLength by lra. lra.
  - destruct (Rltb_spec (vlength p) (cR * 0.85)) as [Hlo | Hlo].
    + rewrite vlength_setLength by lra. lra.
    + lra.
Qed.

(** Where the ceiling of the band is below the floor, the floor is missed:
    the test [len < EARTH_RADIUS * 1.03] reads the length taken before the
    clamps, so a position at or above the floor is put on the ceiling and
    left there, below the floor. *)
Lemma shellClamp_below_floor (cR : R) (p : Vec3) :
  0 <= cR -> cR * 1.18 < EARTH_RADIUS * 1.03 ->
  EARTH_RADIUS * 1.03 <= vlength p ->
  vlength (shellClamp cR p) = cR * 1.18.
Proof.
  intros HR Hfit Hfloor. unfold shellClamp, Rgtb.
  assert (Hpos : vlength p <> 0) by (unfold EARTH_RADIUS in Hfloor; lra).
  rewrite (Rltb_false (vlength p) (EARTH_RADIUS * 1.03)) by lra.
  rewrite (Rltb_true (cR * 1.18) (vlength p)) by lra.
  rewrite (Rltb_false (vlength p) (cR * 0.85)) by lra.
  apply vlength_setLength; lra.
Qed.


(** A worked example: one frame at time 0 integrates the sample particle
    from (3, 0, 0) to (3, 0, 0.02). *)
Lemma sample_integrate :
  integrate (pos sampleParticle) (vel sampleParticle)
            (exp (- Rmax 0 (0 - collisionTime sampleCollision) * 0.12)) 0.01 =
  mkVec3 3 0 0.02.
Proof.
  simpl. replace (0 - 0) with 0 by ring. rewrite Rmax_left by lra.
  replace (- 0 * 0.12) with 0 by ring. rewrite exp_0.
  unfold integrate. simpl. apply vec3_eq; simpl; lra.
Qed.

Lemma sample_length : 3 <= vlength (mkVec3 3 0 0.02) <= 3.01.
Proof.
  unfold vlength. simpl. split.
  - apply sqrt_ge_of_sq; lra.
  - apply sqrt_le_of_sq; lra.
Qed.

(** The recorded radius is the length of the recorded point, from the
    constructor on; in particular it is never negative. *)
Lemma frame_collisionR (f : Frame) (e : Engine) :
  collisionR (coll e) = vlength (collisionPt (coll e)) ->
  collisionR (coll (frame f e)) = vlength (collisionPt (coll (frame f e))).
Proof.
  intros H. rewrite frame_coll. cbv zeta.
  destruct (chapterOf f <? 3)%nat.
  - destruct (collisionDone (coll e)); [simpl |]; exact H.
  - destruct ((chapterOf f =? 4)%nat && negb (collisionDone (coll e)));
      [reflexivity | exact H].
Qed.

Lemma run_collisionR (fs : list Frame) :
  collisionR (coll (run fs init)) = vlength (collisionPt (coll (run fs init))).
Proof.
  induction fs as [| f fs IH] using rev_ind.
  - simpl. unfold vlength. simpl.
    replace (0 * 0 + 0 * 0 + 0 * 0) with 0 by ring. symmetry. apply sqrt_0.
  - rewrite run_app. simpl run. apply frame_collisionR. exact IH.
Qed.

Lemma run_collisionR_nonneg (fs : list Frame) :
  0 <= collisionR (coll (run fs init)).
Proof. rewrite run_collisionR. apply vlength_nonneg. Qed.

(** On a frame of chapter 4 entered with the flag set, the particles are
    the ones [_debris] makes of the previous frame's. *)
Lemma frame_debris_hold (f : Frame) (e : Engine) :
  chapterOf f = 4%nat -> collisionDone (coll e) = true ->
  debris (frame f e) =
  _debris (f_time f) 4
          (smootherstep (remap (progress (f_inputs f)) PHASES.P4 1.0))
          (coll e) (debris e).
Proof.
  intros Hch Hd. unfold frame, _loop, chapterOf, setInputs in *.
  cbn [inp rig coll dview debris frags colLight] in *.
  rewrite Hch. unfold _danger.
  cbn [inp rig coll dview debris frags colLight].
  rewrite Hd. reflexivity.
Qed.

(** The band of C3 along runs of the engine from its constructor. *)
Lemma run_debris_within_shell (fs : list Frame) (f : Frame) (i : nat)
      (d : Particle) :
  let e := run fs init in
  chapterOf f = 4%nat -> collisionDone (coll e) = true ->
  EARTH_RADIUS * 1.03 <= collisionR (coll e) * 1.18 ->
  nth_error (debrisP (debris e)) i = Some d -> active d = true ->
  EARTH_RADIUS * 1.03 <=
    vlength (integrate (pos d) (vel d)
               (exp (- Rmax 0 (f_time f - collisionTime (coll e)) * 0.12))
               0.01) ->
  exists d',
    nth_error (debrisP (debris (frame f e))) i = Some d' /\
    active d' = true /\
    collisionR (coll e) * 0.85 - 0.0036 <= vlength (pos d')
                                        <= collisionR (coll e) * 1.18 + 0.0036 /\
    EARTH_RADIUS < vlength (pos d').
Proof.
  intros e Hch Hd Hfit Hi Hact Hfloor.
  rewrite (frame_debris_hold f e Hch Hd).
  pose proof (debris_particle (f_time f) 4
              (smootherstep (remap (progress (f_inputs f)) PHASES.P4 1.0))
              (coll e) (debris e) i d (Nat.le_refl 4) Hd Hi) as Hn.
  rewrite Hact in Hn.
  eexists. split; [exact Hn | split; [exact Hact |]].
  pose proof (shellClamp_band (collisionR (coll e)) _
                (run_collisionR_nonneg fs) Hfloor) as Hband.
  pose proof (shellClamp_keeps_floor (collisionR (coll e)) _ Hfit Hfloor)
    as Hkeep.
  pose proof (driftOffset_small (f_time f) i d) as Hdrift.
  unfold debrisStep. cbn [pos].
  match goal with
  | |- _ <= vlength (vadd ?a ?b) <= _ /\ _ =>
      pose proof (vlength_triangle a b); pose proof (vlength_triangle_rev a b)
  end.
  fold e in Hband, Hkeep. unfold EARTH_RADIUS in *. split; lra.
Qed.


(** ** The generator and the satellite pool *)

Lemma toUint32_range (z : Z) : (0 <= toUint32 z < 4294967296)%Z.
Proof. unfold toUint32. apply Z.mod_pos_bound. lia. Qed.

(** A draw is a number of [0,1]; it is 1 only when the state is -1. *)
Lemma rng_range (st : Z) : 0 <= fst (rng st) <= 1.
Proof.
  unfold rng, prng_draw. simpl.
  pose proof (toUint32_range (prng_next st)) as [H0 H1].
  apply IZR_le in H0.
  assert (H2 : IZR (toUint32 (prng_next st)) <= 4294967295)
    by (apply IZR_le; lia).
  split.
  - apply Rmult_le_pos; [exact H0 |]. left. apply Rinv_0_lt_compat. lra.
  - apply (Rmult_le_reg_r 4294967295); [lra |].
    unfold Rdiv. rewrite Rmult_assoc, Rinv_l by lra. lra.
Qed.

Lemma rng_below_one (st : Z) :
  toUint32 (prng_next st) <> 4294967295%Z -> fst (rng st) < 1.
Proof.
  intros H. unfold rng, prng_draw. simpl.
  pose proof (toUint32_range (prng_next st)) as [H0 H1].
  assert (H2 : IZR (toUint32 (prng_next st)) < 4294967295)
    by (apply IZR_lt; lia).
  apply (Rmult_lt_reg_r 4294967295); [lra |].
  unfold Rdiv. rewrite Rmult_assoc, Rinv_l by lra. lra.
Qed.

Lemma rng_state (st : Z) : snd (rng st) = prng_next st.
Proof. reflexivity. Qed.


Lemma fillOrbit_on_orbit (orbits : list OrbitDef) (o : OrbitDef)
      (n k j : nat) (sats : list Sat) (st : Z) :
  In o orbits -> Forall (on_orbit_of orbits) sats ->
  Forall (on_orbit_of orbits) (fst (fillOrbit o n k j sats st)).
Proof.
  intros Ho. revert j sats st.
  induction k as [| k IH]; intros j sats st Hs; [exact Hs |].
  simpl. destruct (Z.of_nat (length sats) <? SAT_POOL)%Z; [| exact Hs].
  unfold rbind, rng, prng_draw. apply IH.
  apply Forall_app. split; [exact Hs |].
  constructor; [| constructor]. exists o. split; [exact Ho | reflexivity].
Qed.

Lemma eachOrbit_on_orbit (orbits rest : list OrbitDef) (many oi : nat)
      (sats : list Sat) (st : Z) :
  incl rest orbits -> Forall (on_orbit_of orbits) sats ->
  Forall (on_orbit_of orbits) (fst (eachOrbit many rest oi sats st)).
Proof.
  revert oi sats st.
  induction rest as [| o rest IH]; intros oi sats st Hin Hs; [exact Hs |].
  simpl. unfold rbind.
  destruct (fillOrbit o (if (oi <? 4)%nat then 1%nat else many)
                      (if (oi <? 4)%nat then 1%nat else many) 0 sats st)
    as [sats' st'] eqn:E.
  apply IH.
  - intros x Hx. apply Hin. right. exact Hx.
  - replace sats' with (fst (fillOrbit o (if (oi <? 4)%nat then 1%nat else many)
                      (if (oi <? 4)%nat then 1%nat else many) 0 sats st))
      by (rewrite E; reflexivity).
    apply fillOrbit_on_orbit; [apply Hin; left; reflexivity | exact Hs].
Qed.

Lemma topUp_on_orbit (orbits : list OrbitDef) (k : nat) (sats : list Sat)
      (st : Z) (l : list Sat) :
  Forall (on_orbit_of orbits) sats ->
  fst (topUp orbits k sats st) = Some l ->
  Forall (on_orbit_of orbits) l.
Proof.
  revert sats st. induction k as [| k IH]; intros sats st Hs.
  - simpl. intros E. injection E as <-. exact Hs.
  - simpl. unfold rbind at 1. unfold rng at 1, prng_draw.
    destruct (nth_error orbits _) as [o |] eqn:En; [| discriminate].
    unfold rbind, rng, prng_draw. apply IH.
    apply Forall_app. split; [exact Hs |].
    constructor; [| constructor]. exists o.
    split; [eapply nth_error_In; exact En | reflexivity].
Qed.

Lemma Forall_firstn {A} (P : A -> Prop) (n : nat) (l : list A) :
  Forall P l -> Forall P (firstn n l).
Proof.
  revert n. induction l as [| a l IH]; intros n H.
  - destruct n; constructor.
  - destruct n; [constructor |]. inversion H; subst.
    simpl. constructor; [assumption | apply IH; assumption].
Qed.

Lemma generateSats_on_orbit (orbits : list OrbitDef) (st : Z) (l : list Sat) :
  fst (generateSats orbits st) = Some l -> Forall (on_orbit_of orbits) l.
Proof.
  unfold generateSats. unfold rbind at 1.
  destruct (eachOrbit _ orbits 0 [] st) as [sats st1] eqn:E1.
  unfold rbind.
  destruct (topUp orbits _ sats st1) as [r st2] eqn:E2.
  unfold rret. cbn [fst]. destruct r as [l' |]; [| discriminate].
  intros E.
  assert (El : l = firstn (Z.to_nat SAT_POOL) l')
    by (unfold option_map in E; congruence).
  rewrite El. apply Forall_firstn.
  apply (topUp_on_orbit orbits (Z.to_nat (SAT_POOL - Z.of_nat (length sats)))
                        sats st1).
  - replace sats with (fst (eachOrbit
       (Z.to_nat (Zceil (IZR SAT_POOL / INR (length orbits)))) orbits 0 [] st))
      by (rewrite E1; reflexivity).
    apply eachOrbit_on_orbit; [apply incl_refl | constructor].
  - rewrite E2. reflexivity.
Qed.

Lemma ORBIT_DEFS_positive (o : OrbitDef) : In o ORBIT_DEFS -> 0 < o_r o.
Proof.
  unfold ORBIT_DEFS. simpl.
  intros H. repeat (destruct H as [<- | H]; [simpl; lra |]). contradiction.
Qed.

Lemma pool_radius_positive (l : list Sat) (s : Sat) :
  satData = Some l -> In s l -> 0 < s_r s.
Proof.
  intros Hl Hs. apply generateSats_on_orbit in Hl.
  rewrite Forall_forall in Hl. destruct (Hl s Hs) as [o [Ho ->]].
  apply ORBIT_DEFS_positive in Ho. unfold EARTH_RADIUS. nra.
Qed.

(** The pool is built without an exception, and is full. *)

Lemma many_is_17 :
  Z.to_nat (Zceil (IZR SAT_POOL / INR (length ORBIT_DEFS))) = 17%nat.
Proof.
  replace (Zceil (IZR SAT_POOL / INR (length ORBIT_DEFS))) with 17%Z;
    [reflexivity |].
  symmetry. apply Zceil_eq. rewrite INR_IZR_INZ. unfold SAT_POOL. simpl. lra.
Qed.

Lemma fillOrbit_state (o : OrbitDef) (n k j : nat) (sats : list Sat) (st : Z) :
  (length sats + k <= 200)%nat ->
  snd (fillOrbit o n k j sats st) = Nat.iter k prng_next3 st /\
  length (fst (fillOrbit o n k j sats st)) = (length sats + k)%nat.
Proof.
  revert j sats st. induction k as [| k IH]; intros j sats st Hlen.
  - simpl. split; [reflexivity | lia].
  - cbn [fillOrbit].
    replace (Z.of_nat (length sats) <? SAT_POOL)%Z with true
      by (symmetry; apply Z.ltb_lt; unfold SAT_POOL; lia).
    unfold rbind, rng, prng_draw.
    match goal with
    | |- context [fillOrbit o n k (S j) ?l ?s] =>
        destruct (IH (S j) l s) as [IH1 IH2];
        [rewrite length_app; simpl; lia |]
    end.
    rewrite IH1, IH2, length_app, Nat.iter_succ_r. simpl length.
    split; [reflexivity | lia].
Qed.

Lemma eachOrbit_state (many : nat) (rest : list OrbitDef) (oi : nat)
      (sats : list Sat) (st : Z) :
  (length sats + orbitCount many rest oi <= 200)%nat ->
  snd (eachOrbit many rest oi sats st) =
    Nat.iter (orbitCount many rest oi) prng_next3 st /\
  length (fst (eachOrbit many rest oi sats st)) =
    (length sats + orbitCount many rest oi)%nat.
Proof.
  revert oi sats st. induction rest as [| o rest IH]; intros oi sats st Hlen.
  - simpl. split; [reflexivity | lia].
  - cbn [eachOrbit orbitCount] in *. unfold rbind.
    set (n := if (oi <? 4)%nat then 1%nat else many) in *.
    destruct (fillOrbit_state o n n 0 sats st) as [F1 F2]; [lia |].
    destruct (fillOrbit o n n 0 sats st) as [sats' st'].
    simpl in F1, F2. subst st'.
    destruct (IH (S oi) sats' (Nat.iter n prng_next3 st)) as [I1 I2]; [lia |].
    rewrite I1, I2, F2.
    split; [| lia].
    rewrite (Nat.add_comm n), Nat.iter_add. reflexivity.
Qed.

Lemma draws_below_one_4 (k : nat) (st : Z) :
  draws_below_one (4 * S k) st = true ->
  toUint32 (prng_next st) <> 4294967295%Z /\
  draws_below_one (4 * k) (prng_next (prng_next3 st)) = true.
Proof.
  replace (4 * S k)%nat with (S (S (S (S (4 * k))))) by lia.
  cbn [draws_below_one]. unfold prng_next3. intros H.
  repeat (apply andb_prop in H; destruct H as [?H H]).
  split; [| exact H].
  intros E. rewrite E in H0. discriminate.
Qed.

Lemma topUp_defined (orbits : list OrbitDef) (k : nat) (sats : list Sat)
      (st : Z) :
  orbits <> [] -> draws_below_one (4 * k) st = true ->
  exists l, fst (topUp orbits k sats st) = Some l /\
            length l = (length sats + k)%nat.
Proof.
  intros Hne. revert sats st. induction k as [| k IH]; intros sats st Hd.
  - exists sats. split; [reflexivity | simpl; lia].
  - apply draws_below_one_4 in Hd. destruct Hd as [H1 Hd].
    cbn [topUp]. unfold rbind at 1.
    pose proof (rng_range st) as [Hx0 _].
    pose proof (rng_below_one st H1) as Hx1.
    pose proof (rng_state st) as Hst.
    destruct (rng st) as [x st1]. simpl in Hx0, Hx1, Hst. subst st1.
    assert (HL : 0 < INR (length orbits)).
    { apply lt_0_INR. destruct orbits; [contradiction | simpl; lia]. }
    assert (Hidx : (Z.to_nat (Zfloor (x * INR (length orbits)))
                    < length orbits)%nat).
    { pose proof (Zfloor_bound (x * INR (length orbits))) as [Hf _].
      assert (H0 : (0 <= Zfloor (x * INR (length orbits)))%Z).
      { apply Zfloor_lub. simpl. apply Rmult_le_pos; lra. }
      assert (Hlt : IZR (Zfloor (x * INR (length orbits)))
                    < IZR (Z.of_nat (length orbits))).
      { rewrite <- INR_IZR_INZ. nra. }
      apply lt_IZR in Hlt. lia. }
    destruct (nth_error orbits (Z.to_nat (Zfloor (x * INR (length orbits)))))
      as [o |] eqn:En.
    + unfold rbind, rng, prng_draw.
      match goal with
      | |- context [topUp orbits k ?l ?s] =>
          destruct (IH l s) as [r [R1 R2]]; [exact Hd |];
          exists r; split; [exact R1 |];
          rewrite R2, length_app; simpl; lia
      end.
    + apply nth_error_None in En. lia.
Qed.

Lemma orbitCount_pool : orbitCount 17 ORBIT_DEFS 0 = 140%nat.
Proof. reflexivity. Qed.

Lemma pool_draws_below_one :
  draws_below_one (4 * 60) (Nat.iter 140 prng_next3 13%Z) = true.
Proof. vm_compute. reflexivity. Qed.

(** [satData] is an array of exactly [SAT_POOL] satellites. *)
Lemma satData_defined :
  exists l, satData = Some l /\ length l = 200%nat.
Proof.
  unfold satData, generateSats. rewrite many_is_17.
  unfold rbind at 1.
  destruct (eachOrbit_state 17 ORBIT_DEFS 0 [] 13%Z) as [E1 E2];
    [rewrite orbitCount_pool; simpl; lia |].
  rewrite orbitCount_pool in E1, E2.
  destruct (eachOrbit 17 ORBIT_DEFS 0 [] 13%Z) as [sats st1].
  cbn [fst snd length Nat.add] in E1, E2. subst st1. rewrite E2.
  replace (Z.to_nat (SAT_POOL - Z.of_nat 140)) with 60%nat by reflexivity.
  destruct (topUp_defined ORBIT_DEFS 60 sats (Nat.iter 140 prng_next3 13%Z))
    as [l [L1 L2]]; [discriminate | exact pool_draws_below_one |].
  unfold rbind.
  destruct (topUp ORBIT_DEFS 60 sats (Nat.iter 140 prng_next3 13%Z))
    as [r st2].
  cbn [fst] in L1. subst r. unfold rret. cbn [fst option_map].
  exists (firstn (Z.to_nat SAT_POOL) l). split; [reflexivity |].
  rewrite length_firstn, L2, E2. reflexivity.
Qed.

(** C10. The position [orbitPos] computes lies at distance [r] from the
    world origin, for every radius [r >= 0], inclination, right ascension
    and angle (its squared distance is [r * r] for every [r]).  Hence, at
    every time [t], every satellite of the pool (which exists and has 200
    members), both danger satellites, and every satellite of the earlier
    scene with a radius [>= 0] are on the sphere of their orbit radius. *)
Theorem orbit_radius_preserved :
  (forall r inc asc angle,
     0 <= r -> distance (orbitPos r inc asc angle) vzero = r) /\
  (forall r inc asc angle,
     let p := orbitPos r inc asc angle in
     vx p * vx p + vy p * vy p + vz p * vz p = r * r) /\
  (exists pool, satData = Some pool /\ length pool = 200%nat /\
     forall s t, In s pool -> distance (satPos s t) vzero = s_r s) /\
  (forall t, distance (satPos Engine.dA t) vzero = s_r Engine.dA /\
             distance (satPos Engine.dB t) vzero = s_r Engine.dB) /\
  (forall sat t, 0 <= Scene.radius sat ->
     distance (Scene.satPosition sat t) vzero = Scene.radius sat).
Proof.
  split; [| split; [| split; [| split]]].
  - intros r inc asc angle Hr. rewrite vlength_sub_zero.
    apply orbitPos_length. exact Hr.
  - apply orbitPos_sqnorm.
  - destruct satData_defined as [pool [Hp Hl]].
    exists pool. split; [exact Hp | split; [exact Hl |]].
    intros s t Hs. rewrite vlength_sub_zero. unfold satPos.
    apply orbitPos_length. left. apply (pool_radius_positive pool s Hp Hs).
  - intros t. rewrite !vlength_sub_zero. unfold satPos.
    split; apply orbitPos_length; simpl; unfold EARTH_RADIUS; lra.
  - intros sat t Hr. rewrite vlength_sub_zero, satPosition_is_orbitPos.
    apply orbitPos_length. exact Hr.
Qed.

(** An orbit of radius 3 at some angles. *)
Lemma orbit_radius_preserved_witness :
  distance (orbitPos 3 0.35 0.4 1) vzero = 3.
Proof.
  destruct orbit_radius_preserved as [H _]. apply H. lra.
Defined.


(** ** The debris particles along a run *)

Lemma rmap_Forall {A B} (P : B -> Prop) (f : A -> Rng B) (l : list A) (st : Z) :
  (forall a s, P (fst (f a s))) -> Forall P (fst (rmap f l st)).
Proof.
  intros Hf. revert st. induction l as [| a l IH]; intros st; [constructor |].
  cbn [rmap]. unfold rbind.
  pose proof (Hf a st) as Ha. destruct (f a st) as [b s1].
  pose proof (IH s1) as Hl. destruct (rmap f l s1) as [bs s2].
  constructor; assumption.
Qed.

Lemma rmap_length {A B} (f : A -> Rng B) (l : list A) (st : Z) :
  length (fst (rmap f l st)) = length l.
Proof.
  revert st. induction l as [| a l IH]; intros st; [reflexivity |].
  cbn [rmap]. unfold rbind.
  destruct (f a st) as [b s1].
  pose proof (IH s1) as Hl. destruct (rmap f l s1) as [bs s2].
  simpl in *. rewrite Hl. reflexivity.
Qed.

Lemma spawnDebris_active (cpt : Vec3) (d : Particle) (st : Z) :
  active (fst (spawnDebris cpt d st)) = true.
Proof. reflexivity. Qed.


Lemma mapi_from_length {A B} (f : nat -> A -> B) (k : nat) (l : list A) :
  length (mapi_from f k l) = length l.
Proof.
  revert k. induction l as [| a l IH]; intros k; [reflexivity |].
  simpl. rewrite IH. reflexivity.
Qed.

Lemma mapi_from_Forall {A B} (P : A -> Prop) (Q : B -> Prop)
      (f : nat -> A -> B) (k : nat) (l : list A) :
  (forall i a, P a -> Q (f i a)) -> Forall P l -> Forall Q (mapi_from f k l).
Proof.
  intros Hf H. revert k. induction H as [| a l Ha _ IH]; intros k.
  - constructor.
  - simpl. constructor; [apply Hf; exact Ha | apply IH].
Qed.

(** [_debris] keeps the number of particles and their [active] marks. *)
Lemma debris_length (t : R) (ch : nat) (p4 : R) (c : CollisionState)
      (s : DebrisSys) :
  length (debrisP (_debris t ch p4 c s)) = length (debrisP s).
Proof.
  unfold _debris. destruct ((4 <=? ch)%nat && collisionDone c); simpl.
  - apply mapi_from_length.
  - reflexivity.
Qed.

Lemma debris_active (t : R) (ch : nat) (p4 : R) (c : CollisionState)
      (s : DebrisSys) :
  Forall (fun d => active d = true) (debrisP s) ->
  Forall (fun d => active d = true) (debrisP (_debris t ch p4 c s)).
Proof.
  intros H. unfold _debris.
  destruct ((4 <=? ch)%nat && collisionDone c); simpl; [| exact H].
  apply (mapi_from_Forall (fun d => active d = true)); [| exact H].
  intros i a Ha. rewrite Ha. exact Ha.
Qed.

(** On the frame of the trigger every particle is respawned, active. *)
Lemma frame_debris_trigger (f : Frame) (e : Engine) :
  chapterOf f = 4%nat -> collisionDone (coll e) = false ->
  debris (frame f e) =
  _debris (f_time f) 4
          (smootherstep (remap (progress (f_inputs f)) PHASES.P4 1.0))
          (coll (frame f e))
          (mkDebris
             (fst (rmap (spawnDebris (dangerMid (f_time f)))
                        (debrisP (debris e)) 1234%Z))
             (posBuf (debris e)) (kesslerOp (debris e))).
Proof.
  intros Hch Hd. rewrite (frame_coll_trigger f e Hch Hd).
  unfold frame, _loop, chapterOf, setInputs, dangerMid in *.
  cbn [inp rig coll dview debris frags colLight] in *.
  rewrite Hch. unfold _danger.
  cbn [inp rig coll dview debris frags colLight].
  rewrite Hd. reflexivity.
Qed.

Lemma frame_trigger_all_active (f : Frame) (e : Engine) :
  chapterOf f = 4%nat -> collisionDone (coll e) = false ->
  Forall (fun d => active d = true) (debrisP (debris (frame f e))).
Proof.
  intros Hch Hd. rewrite (frame_debris_trigger f e Hch Hd).
  apply debris_active. cbn [debrisP].
  apply rmap_Forall. intros a s. apply spawnDebris_active.
Qed.

(** The earlier scene triggers once as well: the first chapter-4 frame sets
    the flag and the explosion time, later chapter-4 frames leave them. *)
Lemma scene_trigger_once (t : R) (p4 : R) (s : Scene.DebrisState) :
  let s' := Scene._updateDebris t 4 p4 s in
  Scene.debrisExploded s' = true /\
  (Scene.debrisExploded s = false -> Scene.debrisExpTime s' = t) /\
  (Scene.debrisExploded s = true ->
   Scene.debrisExpTime s' = Scene.debrisExpTime s).
Proof.
  unfold Scene._updateDebris. simpl.
  destruct (Scene.debrisExploded s) eqn:E; simpl; rewrite ?E;
    repeat split; intros; try reflexivity; try discriminate.
Qed.


(* ================================================================== *)
(** * Part III: further properties of the code                         *)
(* ================================================================== *)

(** ** The phase mapper *)

(** X1. For bounds [a < b], [remap] is 0 at and below [a], 1 at and above
    [b], the linear ratio in between, always in [0,1], and does not
    decrease with its argument. *)
Theorem remap_boundaries (a b : R) :
  a < b ->
  remap a a b = 0 /\ remap b a b = 1 /\
  (forall v, v <= a -> remap v a b = 0) /\
  (forall v, b <= v -> remap v a b = 1) /\
  (forall v, a <= v <= b -> remap v a b = (v - a) / (b - a)) /\
  (forall v, 0 <= remap v a b <= 1) /\
  (forall v w, v <= w -> remap v a b <= remap w a b).
Proof.
  intros Hab.
  assert (Hinv : 0 < / (b - a)) by (apply Rinv_0_lt_compat; lra).
  assert (Hlow : forall v, v <= a -> remap v a b = 0).
  { intros v Hv. unfold remap, clamp01, clamp.
    assert ((v - a) / (b - a) <= 0) by (unfold Rdiv; nra).
    rewrite Rmin_right by lra. apply Rmax_left. lra. }
  assert (Hhigh : forall v, b <= v -> remap v a b = 1).
  { intros v Hv. unfold remap, clamp01, clamp.
    assert (1 <= (v - a) / (b - a)).
    { apply (Rmult_le_reg_r (b - a)); [lra |].
      unfold Rdiv. rewrite Rmult_assoc, Rinv_l by lra. lra. }
    rewrite Rmin_left by lra. apply Rmax_right. lra. }
  repeat split.
  - apply Hlow. lra.
  - apply Hhigh. lra.
  - exact Hlow.
  - exact Hhigh.
  - intros v [H1 H2]. unfold remap, clamp01. apply clamp_id. split.
    + unfold Rdiv. apply Rmult_le_pos; lra.
    + apply (Rmult_le_reg_r (b - a)); [lra |].
      unfold Rdiv. rewrite Rmult_assoc, Rinv_l by lra. lra.
  - apply remap_bounds.
  - apply remap_bounds.
  - intros v w Hvw. apply remap_mono; assumption.
Qed.

Lemma remap_boundaries_witness :
  remap 0.2 0.2 0.4 = 0 /\ remap 0.4 0.2 0.4 = 1.
Proof.
  destruct (remap_boundaries 0.2 0.4) as [H0 [H1 _]]; [lra |].
  split; [exact H0 | exact H1].
Defined.

Lemma loop_phase_done (j : nat) (p : R) :
  (j < getChapter p)%nat -> loop_phase j p = 1.
Proof.
  intros Hj.
  destruct (getChapter_cases p) as [[Hp E]|[[Hp E]|[[Hp E]|[[Hp E]|[Hp E]]]]];
    rewrite E in Hj;
    destruct j as [|[|[|[|j]]]]; try lia;
    unfold loop_phase, loop_p0, loop_p1, loop_p2, loop_p3, PHASES.P0,
      PHASES.P1, PHASES.P2, PHASES.P3, PHASES.P4;
    match goal with
    | |- smootherstep (remap p ?a ?b) = 1 =>
        destruct (remap_boundaries a b) as [_ [_ [_ [H _]]]]; [lra |];
        rewrite H by lra; apply smootherstep_1
    end.
Qed.

Lemma loop_phase_not_started (j : nat) (p : R) :
  (getChapter p < j)%nat -> (j <= 4)%nat -> loop_phase j p = 0.
Proof.
  intros Hj H4.
  destruct (getChapter_cases p) as [[Hp E]|[[Hp E]|[[Hp E]|[[Hp E]|[Hp E]]]]];
    rewrite E in Hj;
    destruct j as [|[|[|[|[|j]]]]]; try lia;
    unfold loop_phase, loop_p1, loop_p2, loop_p3, loop_p4,
      PHASES.P1, PHASES.P2, PHASES.P3, PHASES.P4;
    match goal with
    | |- smootherstep (remap p ?a ?b) = 0 =>
        destruct (remap_boundaries a b) as [_ [_ [H _]]]; [lra |];
        rewrite H by lra; apply smootherstep_0
    end.
Qed.

Lemma loop_phase_bounds (j : nat) (p : R) : 0 <= loop_phase j p <= 1.
Proof.
  destruct j as [|[|[|[|j]]]]; apply smootherstep_bounds, remap_bounds.
Qed.

Lemma loop_phase_mono (j : nat) (p q : R) :
  p <= q -> loop_phase j p <= loop_phase j q.
Proof.
  intros H.
  destruct j as [|[|[|[|j]]]]; apply smootherstep_mono, remap_mono;
    unfold PHASES.P0, PHASES.P1, PHASES.P2, PHASES.P3, PHASES.P4; lra.
Qed.

(** X2. Of the five phase values [p0 .. p4] that [_loop] computes, those
    of the chapters before the current one are 1, those of the chapters
    after it are 0; each is in [0,1] and does not decrease as the progress
    grows.  So only the current chapter's phase is ever in between. *)
Theorem loop_phases_by_chapter (j : nat) (p : R) :
  (j <= 4)%nat ->
  ((j < getChapter p)%nat -> loop_phase j p = 1) /\
  ((getChapter p < j)%nat -> loop_phase j p = 0) /\
  0 <= loop_phase j p <= 1 /\
  (forall q, p <= q -> loop_phase j p <= loop_phase j q).
Proof.
  intros H4. split; [| split; [| split]].
  - apply loop_phase_done.
  - intros H. apply loop_phase_not_started; assumption.
  - apply loop_phase_bounds.
  - intros q. apply loop_phase_mono.
Qed.

(** In chapter 2 (progress 0.5) the congestion phase is complete and the
    risk phase has not started. *)
Lemma loop_phases_by_chapter_witness :
  loop_phase 1 0.5 = 1 /\ loop_phase 3 0.5 = 0.
Proof.
  destruct (loop_phases_by_chapter 1 0.5) as [H1 _]; [repeat constructor |].
  destruct (loop_phases_by_chapter 3 0.5) as [_ [H3 _]]; [repeat constructor |].
  assert (E : getChapter 0.5 = 2%nat) by exact chapter_0_5.
  split; [apply H1 | apply H3]; rewrite E; repeat constructor.
Defined.

(** ** The generator *)

Lemma toInt32_range (z : Z) : (-2147483648 <= toInt32 z < 2147483648)%Z.
Proof.
  unfold toInt32.
  pose proof (Z.mod_pos_bound (z + 2147483648) 4294967296). lia.
Qed.

(** X3. From a state that is a signed 32-bit integer, the product the
    generator forms stays below 2^53 in absolute value (so a double holds
    it exactly), the next state is again a signed 32-bit integer, and the
    number returned is in [0,1]. *)
Theorem prng_stays_int32 (s : Z) :
  (-2147483648 <= s < 2147483648)%Z ->
  (Z.abs (s * 1664525 + 1013904223) < 2 ^ 53)%Z /\
  (-2147483648 <= fst (prng_draw s) < 2147483648)%Z /\
  0 <= snd (prng_draw s) <= 1 /\
  snd (rng s) = fst (prng_draw s) /\ fst (rng s) = snd (prng_draw s).
Proof.
  intros Hs. split; [| split; [| split; [| split]]].
  - change (2 ^ 53)%Z with 9007199254740992%Z. lia.
  - apply toInt32_range.
  - apply (rng_range s).
  - reflexivity.
  - reflexivity.
Qed.

Lemma prng_stays_int32_witness :
  (-2147483648 <= fst (prng_draw 13) < 2147483648)%Z.
Proof.
  destruct (prng_stays_int32 13) as [_ [H _]]; [lia | exact H].
Defined.

(** ** Points on spheres *)

Lemma randOnSphere_length (r : R) (st : Z) :
  0 <= r -> vlength (fst (randOnSphere r st)) = r.
Proof.
  intros Hr. unfold randOnSphere, rbind, rng, prng_draw, rret. cbn [fst].
  set (th := _ * PI * 2). set (ph := acos _).
  unfold vlength. cbn [vx vy vz].
  pose proof (sin_cos_sq th) as Ht. pose proof (sin_cos_sq ph) as Hp.
  replace (r * sin ph * cos th * (r * sin ph * cos th) +
           r * cos ph * (r * cos ph) +
           r * sin ph * sin th * (r * sin ph * sin th))
    with (r * r * (sin ph * sin ph * (sin th * sin th + cos th * cos th)
                   + cos ph * cos ph)) by ring.
  rewrite Ht, Rmult_1_r, Hp, Rmult_1_r. apply sqrt_square. exact Hr.
Qed.

Lemma rtimes_Forall {A} (P : A -> Prop) (m : Rng A) (n : nat) (st : Z) :
  (forall s, P (fst (m s))) -> Forall P (fst (rtimes n m st)).
Proof.
  intros Hm. revert st. induction n as [| n IH]; intros st; [constructor |].
  cbn [rtimes]. unfold rbind.
  pose proof (Hm st) as Ha. destruct (m st) as [a s1].
  pose proof (IH s1) as Hl. destruct (rtimes n m s1) as [l s2].
  constructor; assumption.
Qed.

Lemma rtimes_length {A} (m : Rng A) (n : nat) (st : Z) :
  length (fst (rtimes n m st)) = n.
Proof.
  revert st. induction n as [| n IH]; intros st; [reflexivity |].
  cbn [rtimes]. unfold rbind.
  destruct (m st) as [a s1].
  pose proof (IH s1) as Hl. destruct (rtimes n m s1) as [l s2].
  simpl in *. rewrite Hl. reflexivity.
Qed.

Lemma rrepeat_Forall {A} (P : A -> Prop) (m : Rng A) (n : nat) (st : Z) :
  (forall s, P (fst (m s))) -> Forall P (fst (rrepeat n m st)).
Proof.
  intros Hm. revert st. induction n as [| n IH]; intros st; [constructor |].
  cbn [rrepeat]. unfold rbind.
  pose proof (Hm st) as Ha. destruct (m st) as [a s1].
  pose proof (IH s1) as Hl. destruct (rrepeat n m s1) as [l s2].
  constructor; assumption.
Qed.

Lemma rrepeat_length {A} (m : Rng A) (n : nat) (st : Z) :
  length (fst (rrepeat n m st)) = n.
Proof.
  revert st. induction n as [| n IH]; intros st; [reflexivity |].
  cbn [rrepeat]. unfold rbind.
  destruct (m st) as [a s1].
  pose proof (IH s1) as Hl. destruct (rrepeat n m s1) as [l s2].
  simpl in *. rewrite Hl. reflexivity.
Qed.

(** X4. [randOnSphere(r, rng)] returns a point at distance exactly [r]
    from the origin, whatever the generator draws ([r >= 0]). *)
Theorem randOnSphere_on_sphere (r : R) (st : Z) :
  0 <= r -> distance (fst (randOnSphere r st)) vzero = r.
Proof.
  intros Hr. rewrite vlength_sub_zero. apply randOnSphere_length. exact Hr.
Qed.

Lemma randOnSphere_on_sphere_witness :
  distance (fst (randOnSphere 85 99%Z)) vzero = 85.
Proof. apply randOnSphere_on_sphere. lra. Defined.

Lemma initCloudPoint_range (st : Z) :
  let k := fst (initCloudPoint st) in
  EARTH_RADIUS * 1.28 <= vlength (k_pos k) <= EARTH_RADIUS * 1.76 /\
  0.3 <= k_size k <= 2.1.
Proof.
  unfold initCloudPoint, rbind, rret.
  pose proof (rng_range st) as Ha. destruct (rng st) as [a s1].
  cbn [fst] in Ha.
  pose proof (randOnSphere_length (EARTH_RADIUS * (1.28 + a * 0.48)) s1) as Hv.
  destruct (randOnSphere (EARTH_RADIUS * (1.28 + a * 0.48)) s1) as [v s2].
  pose proof (rng_range s2) as Hs. destruct (rng s2) as [sz s3].
  destruct (rng s3) as [h s4]. destruct (rng s4) as [l s5].
  cbn [fst k_pos k_size] in *.
  unfold EARTH_RADIUS in *. rewrite Hv by nra. split; nra.
Qed.

Lemma kesslerRingPoint_range (st : Z) :
  let k := fst (Scene.kesslerRingPoint st) in
  EARTH_RADIUS * 1.35 <= vlength (fst k) <= EARTH_RADIUS * 1.80.
Proof.
  unfold Scene.kesslerRingPoint, rbind, rret.
  pose proof (rng_range st) as Ha. destruct (rng st) as [a s1].
  cbn [fst] in Ha.
  pose proof (randOnSphere_length (EARTH_RADIUS * (1.35 + a * 0.45)) s1) as Hv.
  destruct (randOnSphere (EARTH_RADIUS * (1.35 + a * 0.45)) s1) as [v s2].
  destruct (rng s2) as [sz s3]. destruct (rng s3) as [c s4].
  cbn [fst] in *.
  unfold EARTH_RADIUS in *. rewrite Hv by nra. split; nra.
Qed.

(** X5. Every point of the persistent Kessler cloud lies between 1.28 and
    1.76 planet radii from the origin, above the surface, and there are
    1800 of them; the cloud of the earlier scene has 1200 points between
    1.35 and 1.80 planet radii. *)
Theorem kessler_cloud_in_annulus :
  length initKessler = 1800%nat /\
  Forall (fun k => EARTH_RADIUS < EARTH_RADIUS * 1.28 <= vlength (k_pos k) /\
                   vlength (k_pos k) <= EARTH_RADIUS * 1.76 /\
                   0.3 <= k_size k <= 2.1) initKessler /\
  length Scene.kesslerRing = 1200%nat /\
  Forall (fun k => EARTH_RADIUS * 1.35 <= vlength (fst k)
                   <= EARTH_RADIUS * 1.80) Scene.kesslerRing.
Proof.
  split; [| split; [| split]].
  - apply rrepeat_length.
  - apply rrepeat_Forall. intros s.
    pose proof (initCloudPoint_range s) as [[H1 H2] H3].
    unfold EARTH_RADIUS in *. repeat split; lra.
  - apply rtimes_length.
  - apply rtimes_Forall. intros s. apply kesslerRingPoint_range.
Qed.

Lemma buildStar_range (st : Z) :
  let s := fst (buildStar st) in
  85 <= vlength (star_pos s) <= 185 /\
  0.3 <= star_size s <= 2.3 /\ 0.4 <= star_alpha s <= 1 /\
  0.15 <= star_twinkle s <= 1.65.
Proof.
  unfold buildStar, rbind, rret.
  pose proof (rng_range st) as Ha. destruct (rng st) as [a s1].
  cbn [fst] in Ha.
  pose proof (randOnSphere_length (85 + a * 100) s1) as Hv.
  destruct (randOnSphere (85 + a * 100) s1) as [v s2].
  pose proof (rng_range s2) as H2. destruct (rng s2) as [sz s3].
  pose proof (rng_range s3) as H3. destruct (rng s3) as [al s4].
  pose proof (rng_range s4) as H4. destruct (rng s4) as [tw s5].
  cbn [fst star_pos star_size star_alpha star_twinkle] in *.
  rewrite Hv by lra. repeat split; lra.
Qed.

Lemma initNebulaPoint_range (st : Z) :
  30 <= vlength (fst (fst (initNebulaPoint st))) <= 80.
Proof.
  unfold initNebulaPoint, rbind, rret.
  pose proof (rng_range st) as Ha. destruct (rng st) as [a s1].
  cbn [fst] in Ha.
  pose proof (randOnSphere_length (30 + a * 50) s1) as Hv.
  destruct (randOnSphere (30 + a * 50) s1) as [v s2].
  destruct (rng s2) as [sz s3].
  cbn [fst] in *. rewrite Hv by lra. lra.
Qed.

Lemma starFieldPoint_range (st : Z) :
  120 <= vlength (fst (fst (fst (Scene.starFieldPoint st)))) <= 180.
Proof.
  unfold Scene.starFieldPoint, rbind, rret.
  pose proof (rng_range st) as Ha. destruct (rng st) as [a s1].
  cbn [fst] in Ha.
  pose proof (randOnSphere_length (120 + a * 60) s1) as Hv.
  destruct (randOnSphere (120 + a * 60) s1) as [v s2].
  destruct (rng s2) as [sz s3]. destruct (rng s3) as [al s4].
  cbn [fst] in *. rewrite Hv by lra. lra.
Qed.

(** ** The camera rig *)

Lemma PI_gt_3 : 3 < PI.
Proof. pose proof PI2_3_2. lra. Qed.

Lemma cam_fields (t : R) (ch : nat) (p3 : R) (i : Inputs) (c : CameraRig) :
  let c' := _cam t ch p3 i c in
  let L := nth ch camLocked (mkLocked 0 0 0) in
  currentFov c' = currentFov c + (nth ch FOV_MAP 0 - currentFov c) * 0.022 /\
  radius (camTarget c') =
    (if (ch =? 3)%nat then lerp (l_d L) (l_d L - 1.8) p3 else l_d L) /\
  camUserPhi c' =
    (if negb (isScrolling i) then
       if isDragging i
       then clamp (camUserPhi c - dragDY i * 0.004) (- PI * 0.38) (PI * 0.38)
       else camUserPhi c
     else camUserPhi c * 0.93) /\
  camUserTheta c' =
    (if negb (isScrolling i) then
       if isDragging i then camUserTheta c + dragDX i * 0.004
       else camUserTheta c + 0.003
     else camUserTheta c * 0.93) /\
  camFree c' = negb (isScrolling i) /\
  shakeT c' = shakeT c /\
  shakeOn c' = shaking t c.
Proof.
  unfold _cam, shaking.
  destruct (negb (isScrolling i)); destruct (isDragging i);
    destruct (ch =? 3)%nat; destruct (shakeOn c);
    try destruct (Rgtb (t - shakeT c) 1.8);
    cbn -[clamp nth]; repeat split; reflexivity.
Qed.

(** The rig after a frame: what [_cam] made of it, with the shake started
    when the frame is the one of the collision. *)
Lemma frame_rig_eq (f : Frame) (e : Engine) :
  let c' := _cam (f_time f) (chapterOf f)
                 (smootherstep (remap (progress (f_inputs f))
                                      PHASES.P3 PHASES.P4))
                 (f_inputs f) (rig e) in
  rig (frame f e) =
  if (chapterOf f =? 4)%nat && negb (collisionDone (coll e)) then
    mkRig (currentFov c') (camSph c') (camTarget c') (camUserTheta c')
          (camUserPhi c') (camFree c') true (f_time f) (cameraPos c')
  else c'.
Proof.
  unfold frame, _loop, chapterOf, setInputs.
  cbn [inp rig coll dview debris frags colLight].
  set (ch := getChapter (progress (f_inputs f))).
  set (c' := _cam _ _ _ _ _).
  unfold _danger.
  cbn [inp rig coll dview debris frags colLight].
  destruct (ch <? 3)%nat eqn:E.
  - apply Nat.ltb_lt in E.
    replace (ch =? 4)%nat with false by (symmetry; apply Nat.eqb_neq; lia).
    destruct (collisionDone (coll e)); reflexivity.
  - destruct (ch =? 3)%nat eqn:E3; destruct (ch =? 4)%nat eqn:E4;
      destruct (collisionDone (coll e)); try reflexivity.
    apply Nat.eqb_eq in E3, E4. lia.
Qed.

Lemma FOV_MAP_range (ch : nat) : (ch <= 4)%nat -> 30 <= nth ch FOV_MAP 0 <= 62.
Proof.
  intros H. destruct ch as [|[|[|[|[|ch]]]]]; simpl; try lra. lia.
Qed.

Lemma camLocked_dist_range (ch : nat) (p3 : R) :
  (ch <= 4)%nat -> 0 <= p3 <= 1 ->
  let L := nth ch camLocked (mkLocked 0 0 0) in
  3.7 <= (if (ch =? 3)%nat then lerp (l_d L) (l_d L - 1.8) p3 else l_d L) <= 10.
Proof.
  intros H Hp. destruct ch as [|[|[|[|[|ch]]]]]; simpl;
    unfold CAM_DIST, lerp; try lra; try lia.
Qed.

Lemma cam_rig_ok (t : R) (ch : nat) (p3 : R) (i : Inputs) (c : CameraRig) :
  (ch <= 4)%nat -> 0 <= p3 <= 1 -> rig_ok c -> rig_ok (_cam t ch p3 i c).
Proof.
  intros Hch Hp [Hfov [Hrad [Hphi Huser]]].
  destruct (cam_fields t ch p3 i c) as [Ef [Et [Eu _]]].
  destruct (cam_rig_follows t ch p3 i c) as [_ [_ [Er Ep]]].
  pose proof (FOV_MAP_range ch Hch) as HF.
  pose proof (camLocked_dist_range ch p3 Hch Hp) as HD. cbv zeta in HD.
  pose proof PI_gt_3 as Hpi.
  unfold rig_ok. rewrite Ef, Er, Et, Ep, Eu.
  split; [| split; [| split]].
  - split; nra.
  - split; nra.
  - apply clamp_bounds. lra.
  - destruct (negb (isScrolling i)); [destruct (isDragging i) |].
    + apply clamp_bounds. lra.
    + exact Huser.
    + split; nra.
Qed.

Lemma frame_rig_ok (f : Frame) (e : Engine) :
  rig_ok (rig e) -> rig_ok (rig (frame f e)).
Proof.
  intros H. rewrite frame_rig_eq. cbv zeta.
  assert (Hc : rig_ok (_cam (f_time f) (chapterOf f)
                 (smootherstep (remap (progress (f_inputs f))
                                      PHASES.P3 PHASES.P4))
                 (f_inputs f) (rig e))).
  { apply cam_rig_ok; [apply chapterOf_le_4 | | exact H].
    apply smootherstep_bounds, remap_bounds. }
  destruct ((chapterOf f =? 4)%nat && negb (collisionDone (coll e)));
    exact Hc.
Qed.

Lemma init_rig_ok : rig_ok (rig init).
Proof.
  pose proof PI_gt_3. pose proof PI_4.
  unfold rig_ok, init, initSph, CAM_DIST. simpl. repeat split; lra.
Qed.

Lemma run_rig_ok (fs : list Frame) : rig_ok (rig (run fs init)).
Proof.
  induction fs as [| f fs IH] using rev_ind; [exact init_rig_ok |].
  rewrite run_app. simpl run. apply frame_rig_ok. exact IH.
Qed.

(** X6. From the constructor on, whatever the inputs of the frames: the
    field of view stays between 30 and 62 degrees, the rig's distance
    between 3.7 and 10 (so outside the planet, whose radius is 2.2), its
    polar angle between 0.15 and pi - 0.15 (never over a pole), and the
    user's polar offset within 0.38 pi of zero. *)
Theorem camera_rig_invariants (fs : list Frame) :
  let c := rig (run fs init) in
  30 <= currentFov c <= 62 /\
  EARTH_RADIUS < 3.7 <= radius (camSph c) /\ radius (camSph c) <= 10 /\
  0.15 <= phi (camSph c) <= PI - 0.15 /\
  - PI * 0.38 <= camUserPhi c <= PI * 0.38.
Proof.
  destruct (run_rig_ok fs) as [H1 [H2 [H3 H4]]]. unfold EARTH_RADIUS.
  repeat split; lra.
Qed.

(** X7. Every star of [buildStars] is between 85 and 185 from the origin
    and every nebula point between 30 and 80, so all of them are farther
    out than the camera rig ever is; there are 5000 stars, with sizes,
    alphas and twinkle rates in their ranges.  The earlier scene's 3000
    stars are between 120 and 180. *)
Theorem stars_beyond_camera (fs : list Frame) :
  length buildStars = 5000%nat /\
  Forall (fun s => radius (camSph (rig (run fs init))) < vlength (star_pos s) /\
                   85 <= vlength (star_pos s) <= 185 /\
                   0.3 <= star_size s <= 2.3 /\ 0.4 <= star_alpha s <= 1 /\
                   0.15 <= star_twinkle s <= 1.65) buildStars /\
  Forall (fun n => radius (camSph (rig (run fs init))) < vlength (fst n) /\
                   30 <= vlength (fst n) <= 80) initNebula /\
  length Scene.buildStarField = 3000%nat /\
  Forall (fun s => 120 <= vlength (fst (fst s)) <= 180) Scene.buildStarField.
Proof.
  destruct (run_rig_ok fs) as [_ [[_ Hr] _]].
  split; [| split; [| split; [| split]]].
  - apply rtimes_length.
  - apply rtimes_Forall. intros s. pose proof (buildStar_range s) as [H1 H2].
    split; [lra | split; [exact H1 | exact H2]].
  - apply rrepeat_Forall. intros s. pose proof (initNebulaPoint_range s).
    split; lra.
  - apply rtimes_length.
  - apply rtimes_Forall. intros s. apply starFieldPoint_range.
Qed.

(** ** The camera shake *)

Lemma exp_le (x y : R) : x <= y -> exp x <= exp y.
Proof.
  intros [H | ->]; [left; apply exp_increasing; exact H | apply Rle_refl].
Qed.

Lemma exp_neg_le_1 (x : R) : 0 <= x -> 0 < exp (- x) <= 1.
Proof.
  intros H. split; [apply exp_pos |].
  rewrite <- exp_0. apply exp_le. lra.
Qed.

Lemma shakeOffset_bound (t el : R) :
  0 <= el ->
  Rabs (vx (shakeOffset t el)) <= 0.22 /\
  Rabs (vy (shakeOffset t el)) <= 0.22 /\
  vz (shakeOffset t el) = 0.
Proof.
  intros Hel. unfold shakeOffset. cbn [vx vy vz].
  replace (- el * 3.2) with (- (el * 3.2)) by ring.
  pose proof (exp_neg_le_1 (el * 3.2)) as He.
  assert (H0 : 0 <= el * 3.2) by lra. specialize (He H0).
  set (a := exp (- (el * 3.2))) in *.
  pose proof (SIN_bound (t * 93)). pose proof (SIN_bound (t * 47)).
  pose proof (SIN_bound (t * 211)). pose proof (SIN_bound (t * 78)).
  pose proof (SIN_bound (t * 34)). pose proof (SIN_bound (t * 157)).
  repeat split; try apply Rabs_le; try split; nra.
Qed.

(** The shake flag and its start time after a frame. *)
Lemma frame_shake (f : Frame) (e : Engine) :
  let trig := (chapterOf f =? 4)%nat && negb (collisionDone (coll e)) in
  shakeOn (rig (frame f e)) = trig || shaking (f_time f) (rig e) /\
  shakeT (rig (frame f e)) = if trig then f_time f else shakeT (rig e).
Proof.
  cbv zeta. rewrite frame_rig_eq. cbv zeta.
  destruct (cam_fields (f_time f) (chapterOf f)
              (smootherstep (remap (progress (f_inputs f))
                                   PHASES.P3 PHASES.P4))
              (f_inputs f) (rig e)) as [_ [_ [_ [_ [_ [ET EO]]]]]].
  destruct ((chapterOf f =? 4)%nat && negb (collisionDone (coll e)));
    cbn [shakeOn shakeT orb]; split; auto.
Qed.

Lemma run_no_collision_no_shake (fs : list Frame) :
  Forall (fun f => (chapterOf f < 4)%nat) fs ->
  shakeOn (rig (run fs init)) = false.
Proof.
  induction fs as [| f fs IH] using rev_ind; intros Hall; [reflexivity |].
  apply Forall_app in Hall. destruct Hall as [Hfs Hf].
  inversion Hf as [| ? ? Hlt _]; subst.
  rewrite run_app. simpl run.
  destruct (frame_shake f (run fs init)) as [E _]. rewrite E.
  replace (chapterOf f =? 4)%nat with false
    by (symmetry; apply Nat.eqb_neq; lia).
  unfold shaking. rewrite (IH Hfs). reflexivity.
Qed.

(** X8. The camera shake: it is started by the frame of a collision and
    by nothing else, it is over once a frame comes more than 1.8 after its
    start, and as long as no frame has reached chapter 4 it never
    happens.  While it lasts it moves the camera by at most 0.22 along x
    and along y and not at all along z. *)
Theorem camera_shake_envelope :
  (forall f e,
     chapterOf f = 4%nat -> collisionDone (coll e) = false ->
     shakeOn (rig (frame f e)) = true /\ shakeT (rig (frame f e)) = f_time f) /\
  (forall f e,
     shakeOn (rig (frame f e)) = true ->
     (chapterOf f = 4%nat /\ collisionDone (coll e) = false) \/
     (shakeOn (rig e) = true /\ f_time f - shakeT (rig e) <= 1.8)) /\
  (forall fs, Forall (fun f => (chapterOf f < 4)%nat) fs ->
              shakeOn (rig (run fs init)) = false) /\
  (forall f e,
     shaking (f_time f) (rig e) = true -> shakeT (rig e) <= f_time f ->
     let c' := rig (frame f e) in
     let still := vadd (setFromSpherical (camSph c'))
                       (velSkewOffset (f_inputs f)) in
     Rabs (vx (cameraPos c') - vx still) <= 0.22 /\
     Rabs (vy (cameraPos c') - vy still) <= 0.22 /\
     vz (cameraPos c') = vz still).
Proof.
  split; [| split; [| split]].
  - intros f e Hch Hd. destruct (frame_shake f e) as [E1 E2].
    rewrite E1, E2, Hch, Hd. split; reflexivity.
  - intros f e H. destruct (frame_shake f e) as [E1 _]. rewrite E1 in H.
    apply orb_prop in H. destruct H as [H | H].
    + left. apply andb_prop in H. destruct H as [H1 H2].
      apply Nat.eqb_eq in H1. apply negb_true_iff in H2. split; assumption.
    + right. unfold shaking in H. apply andb_prop in H. destruct H as [H1 H2].
      split; [exact H1 |]. apply negb_true_iff in H2.
      unfold Rgtb in H2. destruct (Rltb_spec 1.8 (f_time f - shakeT (rig e)));
        [discriminate | lra].
  - apply run_no_collision_no_shake.
  - intros f e Hsh Ht c' still.
    pose proof (frame_cameraPos f e) as Hpos. rewrite Hsh in Hpos.
    fold c' in Hpos. fold still in Hpos. rewrite Hpos.
    destruct (shakeOffset_bound (f_time f) (f_time f - shakeT (rig e)))
      as [Hx [Hy Hz]]; [lra |].
    set (off := shakeOffset (f_time f) (f_time f - shakeT (rig e))) in *.
    assert (Ex : vx (vadd still off) - vx still = vx off)
      by (unfold vadd; cbn [vx]; ring).
    assert (Ey : vy (vadd still off) - vy still = vy off)
      by (unfold vadd; cbn [vy]; ring).
    assert (Ez : vz (vadd still off) = vz still + vz off) by reflexivity.
    rewrite Ex, Ey, Ez.
    rewrite Hz. repeat split; [exact Hx | exact Hy | ring].
Qed.

(** A collision at time 1. *)
Lemma camera_shake_envelope_witness :
  shakeOn (rig (frame (scrollFrame 1 0.9) init)) = true /\
  shakeT (rig (frame (scrollFrame 1 0.9) init)) = 1.
Proof.
  destruct camera_shake_envelope as [H _].
  apply (H (scrollFrame 1 0.9) init); [exact chapter_0_9 | reflexivity].
Defined.

(** ** The scroll velocity *)

Lemma tick_velocity (st : ScrollState) :
  velocity (tick st) =
  (raw st - smooth st) *
  (if Rgtb (Rabs (raw st - smooth st)) 0.06 then 0.055 else 0.028).
Proof.
  unfold tick. cbn [velocity smooth raw].
  destruct (Rgtb (Rabs (raw st - smooth st)) 0.06); ring.
Qed.

Lemma tick_velocity_bound (st : ScrollState) :
  Rabs (velocity (tick st)) <= 0.055 * Rabs (raw st - smooth st).
Proof.
  rewrite tick_velocity, Rabs_mult.
  pose proof (Rabs_pos (raw st - smooth st)).
  destruct (Rgtb (Rabs (raw st - smooth st)) 0.06).
  - rewrite (Rabs_right 0.055) by lra. lra.
  - rewrite (Rabs_right 0.028) by lra. lra.
Qed.

Lemma unit_state_gap (st : ScrollState) :
  unit_state st -> Rabs (raw st - smooth st) <= 1.
Proof. intros [H1 H2]. apply Rabs_le. lra. Qed.

Lemma scroll_run_velocity (evs : list Event) :
  Rabs (velocity (LocoScroll.run evs LocoScroll.init)) <= 0.055.
Proof.
  assert (H : unit_state (LocoScroll.run evs LocoScroll.init) /\
              Rabs (velocity (LocoScroll.run evs LocoScroll.init)) <= 0.055);
    [| apply H].
  induction evs as [| ev evs [IHu IHv]] using rev_ind.
  - split.
    + unfold unit_state. simpl. lra.
    + simpl. rewrite Rabs_R0. lra.
  - unfold LocoScroll.run in *. rewrite fold_left_app. simpl fold_left.
    split; [apply handle_unit; exact IHu |].
    destruct ev as [y h ih | |]; simpl handle.
    + exact IHv.
    + exact IHv.
    + eapply Rle_trans; [apply tick_velocity_bound |].
      pose proof (unit_state_gap _ IHu). lra.
Qed.

(** X9. The velocity a smoothing frame reports is the step it took: the
    gap times 0.055 or 0.028, zero once the smoothed value has settled, at
    most 0.055 in size whatever events came before.  Handed to the engine
    as scroll velocity, it lifts or lowers the camera by at most 0.2475
    when no shake is on. *)
Theorem scroll_velocity_bounded :
  (forall st, Rabs (velocity (tick st)) <= 0.055 * Rabs (raw st - smooth st)) /\
  (forall st, smooth st = raw st -> velocity (tick st) = 0) /\
  (forall evs, Rabs (velocity (LocoScroll.run evs LocoScroll.init)) <= 0.055) /\
  (forall evs f e,
     scrollVelocity (f_inputs f) =
       velocity (LocoScroll.run evs LocoScroll.init) ->
     shaking (f_time f) (rig e) = false ->
     let c' := rig (frame f e) in
     vx (cameraPos c') = vx (setFromSpherical (camSph c')) /\
     vz (cameraPos c') = vz (setFromSpherical (camSph c')) /\
     Rabs (vy (cameraPos c') - vy (setFromSpherical (camSph c'))) <= 0.2475).
Proof.
  split; [| split; [| split]].
  - apply tick_velocity_bound.
  - intros st H. rewrite tick_velocity, H.
    replace (raw st - raw st) with 0 by ring. ring.
  - apply scroll_run_velocity.
  - intros evs f e Hv Hsh c'.
    pose proof (frame_cameraPos f e) as Hpos. rewrite Hsh, vadd_zero_r in Hpos.
    fold c' in Hpos. rewrite Hpos.
    unfold vadd, velSkewOffset. cbn [vx vy vz]. rewrite Hv.
    pose proof (scroll_run_velocity evs) as Hb.
    split; [ring | split; [ring |]].
    set (v := velocity _) in *.
    assert (Hv2 : - 0.055 <= v <= 0.055).
    { unfold Rabs in Hb. destruct (Rcase_abs v); lra. }
    apply Rabs_le. split; lra.
Qed.

Lemma scroll_velocity_bounded_witness :
  velocity (tick (mkScroll 0.5 0.5 0.01 false 2)) = 0.
Proof.
  destruct scroll_velocity_bounded as [_ [H _]]. apply H. reflexivity.
Defined.

(** ** Fragments *)

Lemma fragStep_hidden (cR dt : R) (f : Fragment) :
  f_visible f = false -> fragStep cR dt f = f.
Proof. intros H. unfold fragStep. rewrite H. reflexivity. Qed.

Lemma fragStep_life (cR dt : R) (f : Fragment) :
  f_visible f = true ->
  let f' := fragStep cR dt f in
  f_life f' = Rmax 0 (1 - dt * 0.1) /\
  f_opacity f' = f_life f' /\
  f_emissive f' = 3.0 * f_life f' /\
  f_visible f' = negb (Rltb (f_life f') 0.005).
Proof.
  intros H. unfold fragStep. rewrite H. cbn. repeat split; reflexivity.
Qed.

Lemma map_map_Forall {A B} (P : A -> Prop) (Q : B -> Prop) (g : A -> B)
      (ls : list (list A)) :
  (forall a, P a -> Q (g a)) ->
  Forall (Forall P) ls -> Forall (Forall Q) (map (map g) ls).
Proof.
  intros Hg H. induction H as [| l ls Hl _ IH]; [constructor |].
  simpl. constructor; [| exact IH].
  induction Hl as [| a l Ha _ IHl]; simpl; constructor; auto.
Qed.

Lemma Forall_Forall_True {A} (ls : list (list A)) :
  Forall (Forall (fun _ => True)) ls.
Proof.
  induction ls as [| l ls IH]; constructor; [| exact IH].
  induction l; constructor; auto.
Qed.

Lemma rmap_rmap_Forall {A B} (P : B -> Prop) (g : A -> Rng B)
      (ls : list (list A)) (st : Z) :
  (forall a s, P (fst (g a s))) ->
  Forall (Forall P) (fst (rmap (rmap g) ls st)).
Proof.
  intros Hg. apply rmap_Forall. intros l s. apply rmap_Forall. exact Hg.
Qed.

(** The fragments after a frame. *)
Lemma frame_frags (f : Frame) (e : Engine) :
  frags (frame f e) =
  let c := coll e in
  if (chapterOf f <? 3)%nat then
    if collisionDone c then map (map hideFragment) (frags e) else frags e
  else if (chapterOf f =? 4)%nat && negb (collisionDone c) then
    map (map (fragStep (vlength (dangerMid (f_time f)))
                       (Rmax 0 (f_time f - f_time f))))
        (fst (rmap (rmap (spawnFragment (dangerMid (f_time f))))
                   (frags e) 999%Z))
  else
    _fragUpdate (f_time f) c (frags e).
Proof.
  unfold frame, _loop, chapterOf, setInputs, dangerMid.
  cbn [inp rig coll dview debris frags colLight].
  set (ch := getChapter (progress (f_inputs f))).
  unfold _danger.
  cbn [inp rig coll dview debris frags colLight].
  destruct (ch <? 3)%nat.
  - destruct (collisionDone (coll e)) eqn:E;
      cbn [inp rig coll dview debris frags colLight];
      unfold _fragUpdate; cbn [collisionDone]; rewrite ?E; reflexivity.
  - destruct (ch =? 3)%nat eqn:E3; destruct (ch =? 4)%nat eqn:E4;
      destruct (collisionDone (coll e)) eqn:E;
      cbn [inp rig coll dview debris frags colLight andb negb];
      try reflexivity.
    apply Nat.eqb_eq in E3, E4. lia.
Qed.

(** X10. A visible fragment's life after a frame is [max(0, 1 - dt/10)]
    for the time [dt >= 0] since the collision: in [0,1], not growing with
    [dt], and its opacity is that life and its emissive intensity three
    times it.  A fragment is hidden once its life is below 0.005, which is
    the case as soon as [dt] exceeds 9.95, and a hidden fragment is not
    touched again.  On the frame of a collision every fragment is visible
    with life and opacity 1; on the frame that clears the flag every
    fragment is hidden with opacity 0. *)
Theorem fragments_fade :
  (forall cR dt f, 0 <= dt -> f_visible f = true ->
     let f' := fragStep cR dt f in
     0 <= f_life f' <= 1 /\ f_opacity f' = f_life f' /\
     f_emissive f' = 3 * f_life f' /\
     (f_visible f' = true <-> 0.005 <= f_life f') /\
     (9.95 < dt -> f_visible f' = false)) /\
  (forall cR dt1 dt2 f, dt1 <= dt2 -> f_visible f = true ->
     f_life (fragStep cR dt2 f) <= f_life (fragStep cR dt1 f)) /\
  (forall cR dt f, f_visible f = false -> fragStep cR dt f = f) /\
  (forall f e, chapterOf f = 4%nat -> collisionDone (coll e) = false ->
     Forall (Forall (fun g => f_visible g = true /\ f_life g = 1 /\
                              f_opacity g = 1 /\ f_emissive g = 3))
            (frags (frame f e))) /\
  (forall f e, (chapterOf f < 3)%nat -> collisionDone (coll e) = true ->
     Forall (Forall (fun g => f_visible g = false /\ f_opacity g = 0))
            (frags (frame f e))).
Proof.
  split; [| split; [| split; [| split]]].
  - intros cR dt f Hdt Hv f'.
    destruct (fragStep_life cR dt f Hv) as [El [Eo [Ee Ev]]].
    fold f' in El, Eo, Ee, Ev.
    assert (Hl : 0 <= f_life f' <= 1).
    { rewrite El. split; [apply Rmax_l | apply Rmax_lub; lra]. }
    split; [exact Hl | split; [exact Eo | split; [rewrite Ee; lra | split]]].
    + rewrite Ev. destruct (Rltb_spec (f_life f') 0.005); simpl; split;
        intros; try lra; try reflexivity; discriminate.
    + intros H995. rewrite Ev.
      assert (f_life f' < 0.005).
      { rewrite El. apply Rmax_lub_lt; lra. }
      rewrite Rltb_true by assumption. reflexivity.
  - intros cR dt1 dt2 f Hdt Hv.
    destruct (fragStep_life cR dt1 f Hv) as [E1 _].
    destruct (fragStep_life cR dt2 f Hv) as [E2 _].
    rewrite E1, E2. apply Rle_max_compat_l. lra.
  - apply fragStep_hidden.
  - intros f e Hch Hd. rewrite frame_frags. cbv zeta. rewrite Hch, Hd.
    cbn [Nat.ltb Nat.leb Nat.eqb andb negb].
    apply (map_map_Forall (fun g => f_visible g = true)).
    + intros g Hg.
      destruct (fragStep_life (vlength (dangerMid (f_time f)))
                  (Rmax 0 (f_time f - f_time f)) g Hg) as [El [Eo [Ee Ev]]].
      replace (Rmax 0 (f_time f - f_time f)) with 0 in *
        by (replace (f_time f - f_time f) with 0 by ring;
            symmetry; apply Rmax_left; lra).
      assert (E1 : Rmax 0 (1 - 0 * 0.1) = 1)
        by (replace (1 - 0 * 0.1) with 1 by ring; apply Rmax_right; lra).
      rewrite E1 in El. rewrite Ev, Eo, Ee, El.
      rewrite Rltb_false by lra. repeat split; try reflexivity. lra.
    + apply rmap_rmap_Forall. intros a s. reflexivity.
  - intros f e Hch Hd. rewrite frame_frags. cbv zeta.
    apply Nat.ltb_lt in Hch. rewrite Hch, Hd.
    apply (map_map_Forall (fun _ => True)).
    + intros g _. split; reflexivity.
    + apply Forall_Forall_True.
Qed.

(** A fragment 5 time units after the collision is half faded. *)
Lemma fragments_fade_witness :
  f_life (fragStep 3 5 (mkFragment (mkVec3 3 0 0) vzero 1 true 1 3)) <=
  f_life (fragStep 3 2 (mkFragment (mkVec3 3 0 0) vzero 1 true 1 3)).
Proof.
  destruct fragments_fade as [_ [H _]]. apply H; [lra | reflexivity].
Defined.

(** X11. A visible fragment whose integrated position is not the origin
    ends the frame between the surface floor (1.01 planet radii) and 1.35
    collision radii from the origin, provided the floor is not above that
    ceiling. *)
Theorem fragment_within_shell (cR dt : R) (f : Fragment) :
  f_visible f = true ->
  EARTH_RADIUS * 1.01 <= cR * 1.35 ->
  vlength (integrate (f_pos f) (f_vel f) (exp (- dt * 0.25)) 0.008) <> 0 ->
  EARTH_RADIUS < EARTH_RADIUS * 1.01 <= vlength (f_pos (fragStep cR dt f)) /\
  vlength (f_pos (fragStep cR dt f)) <= cR * 1.35.
Proof.
  intros Hv Hfloor Hnz. unfold fragStep. rewrite Hv. cbn [f_pos].
  set (p := integrate _ _ _ _) in *.
  pose proof (vlength_nonneg p) as Hp.
  assert (HE : 0 < EARTH_RADIUS * 1.01) by (unfold EARTH_RADIUS; lra).
  assert (HE2 : EARTH_RADIUS < EARTH_RADIUS * 1.01)
    by (unfold EARTH_RADIUS; lra).
  unfold Rgtb.
  destruct (Rltb_spec (cR * 1.35) (vlength p)) as [Hhi | Hhi];
    destruct (Rltb_spec (vlength p) (EARTH_RADIUS * 1.01)) as [Hlo | Hlo].
  - lra.
  - rewrite vlength_setLength by lra. lra.
  - rewrite vlength_setLength by lra. lra.
  - lra.
Qed.

Lemma fragment_within_shell_witness :
  vlength (f_pos (fragStep 3 0 (mkFragment (mkVec3 3 0 0) vzero 1 true 1 3)))
  <= 3 * 1.35.
Proof.
  apply fragment_within_shell.
  - reflexivity.
  - unfold EARTH_RADIUS. lra.
  - unfold integrate, vlength. simpl.
    replace (sqrt _) with 3.
    + lra.
    + symmetry. apply sqrt_lem_1; [nra | lra | ring].
Defined.

(** ** Debris and the planet's surface *)

Lemma shellClamp_above_floor (cR : R) (p : Vec3) :
  0 < cR -> EARTH_RADIUS * 1.03 <= cR * 1.18 -> vlength p <> 0 ->
  EARTH_RADIUS * 1.03 <= vlength (shellClamp cR p) <= cR * 1.18.
Proof.
  intros HR Hfit Hnz.
  destruct (Rlt_le_dec (vlength p) (EARTH_RADIUS * 1.03)) as [Hlow | Hhigh].
  - rewrite (shellClamp_floor cR p HR Hnz Hlow). lra.
  - pose proof (shellClamp_band cR p (Rlt_le _ _ HR) Hhigh) as [H1 H2].
    split; [| exact H2].
    unfold shellClamp, Rgtb in *.
    rewrite (Rltb_false (vlength p) (EARTH_RADIUS * 1.03)) in * by lra.
    destruct (Rltb_spec (cR * 1.18) (vlength p)) as [Hhi | Hhi].
    + rewrite (Rltb_false (vlength p) (cR * 0.85)) in * by lra.
      rewrite vlength_setLength by lra. lra.
    + destruct (Rltb_spec (vlength p) (cR * 0.85)) as [Hlo | Hlo].
      * rewrite vlength_setLength by lra. lra.
      * lra.
Qed.

(** X12. On a frame of chapter 4 with the collision triggered, an active
    particle never ends inside the planet: if the collision radius is
    positive, the surface floor (1.03 planet radii) is not above the band's
    ceiling (1.18 collision radii), and the integrated position is not the
    origin, then the clamped position is between the floor and the ceiling
    and the position kept after the drift is more than one planet radius
    from the origin. *)
Theorem debris_above_surface
        (t : R) (ch : nat) (p4 : R) (c : CollisionState) (s : DebrisSys)
        (i : nat) (d : Particle) :
  (4 <= ch)%nat -> collisionDone c = true ->
  0 < collisionR c -> EARTH_RADIUS * 1.03 <= collisionR c * 1.18 ->
  nth_error (debrisP s) i = Some d -> active d = true ->
  let dt := Rmax 0 (t - collisionTime c) in
  let q := integrate (pos d) (vel d) (exp (- dt * 0.12)) 0.01 in
  vlength q <> 0 ->
  exists d',
    nth_error (debrisP (_debris t ch p4 c s)) i = Some d' /\
    EARTH_RADIUS * 1.03 <= vlength (shellClamp (collisionR c) q)
                        <= collisionR c * 1.18 /\
    EARTH_RADIUS < vlength (pos d') <= collisionR c * 1.18 + 0.0036.
Proof.
  intros Hch Hd HR Hfit Hi Hact dt q Hnz.
  exists (debrisStep (collisionR c) dt t i d).
  pose proof (debris_particle t ch p4 c s i d Hch Hd Hi) as Hn.
  rewrite Hact in Hn. fold dt in Hn.
  pose proof (shellClamp_above_floor (collisionR c) q HR Hfit Hnz) as Hband.
  pose proof (driftOffset_small t i d) as Hdrift.
  pose proof (vlength_triangle (shellClamp (collisionR c) q)
                               (driftOffset t i d)) as Hup.
  pose proof (vlength_triangle_rev (shellClamp (collisionR c) q)
                                   (driftOffset t i d)) as Hlow.
  split; [exact Hn | split; [exact Hband |]].
  unfold debrisStep. cbn [pos]. fold q. unfold EARTH_RADIUS in *. lra.
Qed.

Lemma debris_above_surface_witness :
  exists d',
    nth_error (debrisP (_debris 0 4 0 sampleCollision sampleDebris)) 0 =
      Some d' /\
    EARTH_RADIUS < vlength (pos d') <= 3 * 1.18 + 0.0036.
Proof.
  destruct (debris_above_surface 0 4 0 sampleCollision sampleDebris 0
                                 sampleParticle)
    as [d' [Hn [_ Hb]]].
  - apply Nat.le_refl.
  - reflexivity.
  - simpl. lra.
  - simpl. unfold EARTH_RADIUS. lra.
  - reflexivity.
  - reflexivity.
  - rewrite sample_integrate. pose proof sample_length. lra.
  - exists d'. split; [exact Hn | exact Hb].
Defined.

(** ** The collision light *)

Lemma frame_colLight (f : Frame) (e : Engine) :
  colLight (frame f e) =
  _colLight (f_time f) (chapterOf f) (coll (frame f e)) (colLight e).
Proof.
  unfold frame, _loop, chapterOf, setInputs, dangerMid.
  cbn [inp rig coll dview debris frags colLight].
  set (ch := getChapter (progress (f_inputs f))).
  unfold _danger.
  cbn [inp rig coll dview debris frags colLight].
  destruct (ch <? 3)%nat.
  - destruct (collisionDone (coll e)) eqn:E;
      cbn [inp rig coll dview debris frags colLight]; reflexivity.
  - destruct (ch =? 3)%nat eqn:E3; destruct (ch =? 4)%nat eqn:E4;
      destruct (collisionDone (coll e)) eqn:E;
      cbn [inp rig coll dview debris frags colLight andb negb];
      reflexivity.
Qed.

(** X13. The point light of the collision: after a frame outside chapter
    4 its intensity is 0; on the frame of the collision it is 22 and the
    light sits at the collision point; on a later frame of chapter 4, at
    time [t] not before the collision time [T], it is [22 exp(-1.8 (t -
    T))], in (0, 22] and lower the later the frame. *)
Theorem collision_light_decays :
  (forall f e, chapterOf f <> 4%nat ->
     cl_intensity (colLight (frame f e)) = 0) /\
  (forall f e, chapterOf f = 4%nat -> collisionDone (coll e) = false ->
     cl_intensity (colLight (frame f e)) = 22 /\
     cl_position (colLight (frame f e)) = collisionPt (coll (frame f e)) /\
     cl_position (colLight (frame f e)) = dangerMid (f_time f)) /\
  (forall f e, chapterOf f = 4%nat -> collisionDone (coll e) = true ->
     collisionTime (coll e) <= f_time f ->
     cl_intensity (colLight (frame f e)) =
       22 * exp (- (f_time f - collisionTime (coll e)) * 1.8) /\
     0 < cl_intensity (colLight (frame f e)) <= 22 /\
     cl_position (colLight (frame f e)) = collisionPt (coll e)) /\
  (forall f g e, chapterOf f = 4%nat -> chapterOf g = 4%nat ->
     collisionDone (coll e) = true ->
     collisionTime (coll e) <= f_time f -> f_time f <= f_time g ->
     cl_intensity (colLight (frame g e)) <=
     cl_intensity (colLight (frame f e))).
Proof.
  assert (Hold : forall f e, chapterOf f = 4%nat ->
     collisionDone (coll e) = true -> collisionTime (coll e) <= f_time f ->
     cl_intensity (colLight (frame f e)) =
       22 * exp (- (f_time f - collisionTime (coll e)) * 1.8) /\
     0 < cl_intensity (colLight (frame f e)) <= 22 /\
     cl_position (colLight (frame f e)) = collisionPt (coll e)).
  { intros f e Hch Hd Ht. rewrite frame_colLight, (frame_coll_hold f e Hch Hd).
    unfold _colLight. rewrite Hch, Hd. cbn [Nat.eqb andb cl_intensity cl_position].
    replace (- (f_time f - collisionTime (coll e)) * 1.8)
      with (- ((f_time f - collisionTime (coll e)) * 1.8)) by ring.
    pose proof (exp_neg_le_1 ((f_time f - collisionTime (coll e)) * 1.8))
      as He.
    assert (H0 : 0 <= (f_time f - collisionTime (coll e)) * 1.8) by lra.
    specialize (He H0).
    rewrite Rmax_right by lra. repeat split; lra. }
  split; [| split; [| split]].
  - intros f e Hch. rewrite frame_colLight. unfold _colLight.
    apply Nat.eqb_neq in Hch. rewrite Hch. reflexivity.
  - intros f e Hch Hd.
    rewrite frame_colLight, (frame_coll_trigger f e Hch Hd).
    unfold _colLight. rewrite Hch.
    cbn [Nat.eqb andb collisionDone collisionTime collisionPt
         cl_intensity cl_position].
    replace (- (f_time f - f_time f) * 1.8) with 0 by ring.
    rewrite exp_0, Rmax_right by lra. repeat split; lra.
  - exact Hold.
  - intros f g e Hf Hg Hd Ht Hfg.
    destruct (Hold f e Hf Hd Ht) as [Ef _].
    destruct (Hold g e Hg Hd) as [Eg _]; [lra |].
    rewrite Ef, Eg.
    apply Rmult_le_compat_l; [lra |]. apply exp_le. lra.
Qed.

Lemma collision_light_decays_witness :
  cl_intensity (colLight (frame (scrollFrame 1 0.9) init)) = 22.
Proof.
  destruct collision_light_decays as [_ [H _]].
  apply (H (scrollFrame 1 0.9) init); [exact chapter_0_9 | reflexivity].
Defined.

(** ** The two satellites on a collision course *)

Lemma frame_dview_chapter3 (f : Frame) (e : Engine) :
  chapterOf f = 3%nat -> collisionDone (coll e) = false ->
  let t := f_time f in
  let p3 := loop_p3 (progress (f_inputs f)) in
  dview (frame f e) =
  mkDanger true
           (vlerp (satPos dA t) (dangerMid t) (p3 * 0.88))
           (vlerp (satPos dB t) (dangerMid t) (p3 * 0.88))
           (p3 * 0.45 * (0.5 + 0.5 * sin (t * (4 + p3 * 18)))).
Proof.
  intros Hch Hd.
  unfold frame, _loop, chapterOf, setInputs, dangerMid, loop_p3 in *.
  cbn [inp rig coll dview debris frags colLight progress] in *.
  rewrite Hch. unfold _danger.
  cbn [inp rig coll dview debris frags colLight Nat.ltb Nat.leb Nat.eqb].
  rewrite Hd. reflexivity.
Qed.

Lemma frame_dview_hidden (f : Frame) (e : Engine) :
  chapterOf f <> 3%nat -> dVisible (dview (frame f e)) = false.
Proof.
  intros H. pose proof (chapterOf_le_4 f) as H4.
  unfold frame, _loop, chapterOf, setInputs in *.
  cbn [inp rig coll dview debris frags colLight progress] in *.
  set (ch := getChapter (progress (f_inputs f))) in *.
  unfold _danger.
  cbn [inp rig coll dview debris frags colLight].
  destruct (ch <? 3)%nat eqn:E.
  - destruct (collisionDone (coll e)); reflexivity.
  - apply Nat.ltb_ge in E.
    replace (ch =? 3)%nat with false
      by (symmetry; apply Nat.eqb_neq; lia).
    replace (ch =? 4)%nat with true
      by (symmetry; apply Nat.eqb_eq; lia).
    destruct (collisionDone (coll e)); reflexivity.
Qed.

Lemma frame_dview_kept (f : Frame) (e : Engine) :
  chapterOf f = 3%nat -> collisionDone (coll e) = true ->
  dview (frame f e) = dview e.
Proof.
  intros Hch Hd.
  unfold frame, _loop, chapterOf, setInputs in *.
  cbn [inp rig coll dview debris frags colLight progress] in *.
  rewrite Hch. unfold _danger.
  cbn [inp rig coll dview debris frags colLight Nat.ltb Nat.leb Nat.eqb].
  rewrite Hd. reflexivity.
Qed.

(** From the initial state, the pair is never shown while the flag is
    set. *)
Lemma run_pair_hidden (fs : list Frame) :
  collisionDone (coll (run fs init)) = true ->
  dVisible (dview (run fs init)) = false.
Proof.
  induction fs as [| f fs IH] using rev_ind; [reflexivity |].
  rewrite run_app. simpl run. rewrite frame_flag.
  destruct (Nat.eq_dec (chapterOf f) 3) as [E3 | E3].
  - rewrite E3. cbn [Nat.ltb Nat.leb Nat.eqb]. intros Hd.
    rewrite (frame_dview_kept f _ E3 Hd). exact (IH Hd).
  - intros _. apply frame_dview_hidden. exact E3.
Qed.

Lemma mid_lerp (a b k : R) :
  (a + ((a + b) * 0.5 - a) * k + (b + ((a + b) * 0.5 - b) * k)) * 0.5 =
  (a + b) * 0.5.
Proof. replace 0.5 with (/ 2) by lra. field. Qed.

Lemma distance_vlerp_mid (a b : Vec3) (k : R) :
  0 <= k <= 1 ->
  let mid := multiplyScalar (vadd a b) 0.5 in
  distance (vlerp a mid k) (vlerp b mid k) = (1 - k) * distance a b.
Proof.
  intros Hk mid. unfold distance.
  rewrite <- (Rabs_right (1 - k)) by lra.
  rewrite <- (vlength_multiplyScalar
                (mkVec3 (vx a - vx b) (vy a - vy b) (vz a - vz b)) (1 - k)).
  f_equal. apply vec3_eq; unfold mid, vlerp, multiplyScalar, vadd;
    cbn [vx vy vz]; ring.
Qed.

(** X14. In chapter 3, before any collision, a frame shows the two danger
    satellites, each pulled from its orbital position towards the midpoint
    of the two by the fraction [0.88 p3]: their midpoint is still the
    orbital midpoint, their distance is [1 - 0.88 p3] times the orbital
    distance, hence between 12% and 100% of it, and the ring opacity is
    within [0, 0.45]. A frame of another chapter hides them, and after any
    run from the initial state a frame shows them exactly when the chapter
    is 3 and the flag is clear: scrolling back into chapter 3 after the
    collision does not bring them back. *)
Theorem danger_pair_converges (fs : list Frame) (f : Frame) :
  let e := run fs init in
  let t := f_time f in
  let p3 := loop_p3 (progress (f_inputs f)) in
  let v := dview (frame f e) in
  (chapterOf f = 3%nat -> collisionDone (coll e) = false ->
     multiplyScalar (vadd (dMeshPosA v) (dMeshPosB v)) 0.5 = dangerMid t /\
     distance (dMeshPosA v) (dMeshPosB v) =
       (1 - 0.88 * p3) * distance (satPos dA t) (satPos dB t) /\
     0.12 * distance (satPos dA t) (satPos dB t)
       <= distance (dMeshPosA v) (dMeshPosB v)
       <= distance (satPos dA t) (satPos dB t) /\
     0 <= dRingOpacity v <= 0.45) /\
  dVisible v =
    ((chapterOf f =? 3)%nat && negb (collisionDone (coll e))).
Proof.
  intros e t p3 v. split.
  - intros Hch Hd. unfold v.
    rewrite (frame_dview_chapter3 f e Hch Hd).
    cbn [dVisible dMeshPosA dMeshPosB dRingOpacity].
    fold t. fold p3.
    assert (Hp : 0 <= p3 <= 1) by apply smootherstep_bounds, remap_bounds.
    assert (Hd0 : 0 <= distance (satPos dA t) (satPos dB t))
      by apply vlength_nonneg.
    assert (Ed : distance (vlerp (satPos dA t) (dangerMid t) (p3 * 0.88))
                          (vlerp (satPos dB t) (dangerMid t) (p3 * 0.88)) =
                 (1 - 0.88 * p3) * distance (satPos dA t) (satPos dB t)).
    { unfold dangerMid. rewrite distance_vlerp_mid by lra.
      f_equal. ring. }
    split; [| split; [exact Ed | split]].
    + apply vec3_eq; unfold dangerMid, vlerp, multiplyScalar, vadd;
        cbn [vx vy vz]; apply mid_lerp.
    + rewrite Ed. split; nra.
    + pose proof (SIN_bound (t * (4 + p3 * 18))) as [Hs1 Hs2].
      split; nra.
  - unfold v. destruct (Nat.eq_dec (chapterOf f) 3) as [E3 | E3].
    + rewrite E3. cbn [Nat.eqb andb].
      destruct (collisionDone (coll e)) eqn:Hd.
      * rewrite (frame_dview_kept f e E3 Hd). cbn [negb].
        apply run_pair_hidden. exact Hd.
      * rewrite (frame_dview_chapter3 f e E3 Hd). reflexivity.
    + rewrite (frame_dview_hidden f e E3).
      apply Nat.eqb_neq in E3. rewrite E3. reflexivity.
Qed.

Lemma danger_pair_converges_witness :
  0 <= dRingOpacity (dview (frame (scrollFrame 1 0.7) (run [] init)))
    <= 0.45.
Proof.
  destruct (danger_pair_converges [] (scrollFrame 1 0.7)) as [H _].
  destruct (H chapter_0_7 eq_refl) as [_ [_ [_ Hv]]]. exact Hv.
Defined.

(** ** When the debris is drawn *)

Lemma frame_debris_outside (f : Frame) (e : Engine) :
  chapterOf f <> 4%nat ->
  debris (frame f e) =
  mkDebris (debrisP (debris e)) (repeat parked DEBRIS_N) 0.
Proof.
  intros H. pose proof (chapterOf_le_4 f) as H4.
  unfold frame, _loop, chapterOf, setInputs in *.
  cbn [inp rig coll dview debris frags colLight progress] in *.
  set (ch := getChapter (progress (f_inputs f))) in *.
  unfold _debris.
  replace (4 <=? ch)%nat with false by (symmetry; apply Nat.leb_gt; lia).
  cbn [andb]. unfold _danger.
  cbn [inp rig coll dview debris frags colLight].
  destruct (ch <? 3)%nat eqn:E.
  - destruct (collisionDone (coll e)); reflexivity.
  - apply Nat.ltb_ge in E.
    replace (ch =? 3)%nat with true by (symmetry; apply Nat.eqb_eq; lia).
    replace (ch =? 4)%nat with false by (symmetry; apply Nat.eqb_neq; lia).
    destruct (collisionDone (coll e)); reflexivity.
Qed.

Lemma debris_posBuf_active (t : R) (ch : nat) (p4 : R) (c : CollisionState)
      (s : DebrisSys) :
  (4 <= ch)%nat -> collisionDone c = true ->
  Forall (fun d => active d = true) (debrisP s) ->
  posBuf (_debris t ch p4 c s) = map pos (debrisP (_debris t ch p4 c s)).
Proof.
  intros Hch Hd Hact.
  pose proof (debris_active t ch p4 c s Hact) as Hact'.
  unfold _debris in *. apply Nat.leb_le in Hch. rewrite Hch, Hd in *.
  cbn [andb posBuf debrisP] in *.
  apply map_ext_in. intros d Hin.
  rewrite Forall_forall in Hact'. rewrite (Hact' d Hin). reflexivity.
Qed.

(** Along a run from the initial state there are [DEBRIS_N] particles, all
    of them active while the flag is set. *)
Lemma run_debris_inv (fs : list Frame) :
  length (debrisP (debris (run fs init))) = DEBRIS_N /\
  (collisionDone (coll (run fs init)) = true ->
   Forall (fun d => active d = true) (debrisP (debris (run fs init)))).
Proof.
  induction fs as [| f fs [IHl IHa]] using rev_ind.
  - split; [apply rrepeat_length | discriminate].
  - rewrite run_app. simpl run. set (e := run fs init) in *.
    destruct (Nat.eq_dec (chapterOf f) 4) as [E4 | E4].
    + destruct (collisionDone (coll e)) eqn:Hd.
      * rewrite (frame_debris_hold f e E4 Hd). split.
        -- rewrite debris_length. exact IHl.
        -- intros _. apply debris_active. apply IHa. reflexivity.
      * split.
        -- rewrite (frame_debris_trigger f e E4 Hd), debris_length.
           cbn [debrisP]. rewrite rmap_length. exact IHl.
        -- intros _. apply frame_trigger_all_active; assumption.
    + rewrite (frame_debris_outside f e E4). cbn [debrisP].
      split; [exact IHl |].
      rewrite frame_flag.
      pose proof (chapterOf_le_4 f) as H4.
      destruct (chapterOf f <? 3)%nat eqn:E; [discriminate |].
      apply Nat.ltb_ge in E.
      replace (chapterOf f =? 4)%nat with false
        by (symmetry; apply Nat.eqb_neq; lia).
      exact IHa.
Qed.

(** X15. After any run from the initial state and one more frame, the
    debris has [DEBRIS_N] particles and [DEBRIS_N] drawn positions. If the
    frame is outside chapter 4 every drawn position is the parking point
    (9999, 9999, 9999), the Kessler opacity is 0 and the particles are as
    before the frame; if it is in chapter 4 every particle is active and
    is drawn at its own position. *)
Theorem debris_drawn_in_chapter_4_only (fs : list Frame) (f : Frame) :
  let e := run fs init in
  let s := debris (frame f e) in
  length (debrisP s) = DEBRIS_N /\ length (posBuf s) = DEBRIS_N /\
  (chapterOf f <> 4%nat ->
     posBuf s = repeat parked DEBRIS_N /\ kesslerOp s = 0 /\
     debrisP s = debrisP (debris e)) /\
  (chapterOf f = 4%nat ->
     Forall (fun d => active d = true) (debrisP s) /\
     posBuf s = map pos (debrisP s)).
Proof.
  intros e s.
  destruct (run_debris_inv fs) as [Hl Ha]. fold e in Hl, Ha.
  destruct (run_debris_inv (fs ++ [f])) as [Hl' Ha'].
  rewrite run_app in Hl', Ha'. simpl run in Hl', Ha'. fold e in Hl', Ha'.
  fold s in Hl', Ha'.
  assert (H4 : chapterOf f = 4%nat ->
               Forall (fun d => active d = true) (debrisP s) /\
               posBuf s = map pos (debrisP s)).
  { intros E4. split.
    - apply Ha'. rewrite frame_flag, E4. reflexivity.
    - unfold s. destruct (collisionDone (coll e)) eqn:Hd.
      + rewrite (frame_debris_hold f e E4 Hd).
        apply debris_posBuf_active; [lia | exact Hd | apply Ha; reflexivity].
      + rewrite (frame_debris_trigger f e E4 Hd).
        apply debris_posBuf_active.
        * lia.
        * rewrite (frame_coll_trigger f e E4 Hd). reflexivity.
        * cbn [debrisP]. apply rmap_Forall. intros a st.
          apply spawnDebris_active. }
  split; [exact Hl' |]. split; [| split; [| exact H4]].
  - destruct (Nat.eq_dec (chapterOf f) 4) as [E4 | E4].
    + destruct (H4 E4) as [_ Hp]. rewrite Hp, length_map. exact Hl'.
    + unfold s. rewrite (frame_debris_outside f e E4). cbn [posBuf].
      apply repeat_length.
  - intros E4. unfold s. rewrite (frame_debris_outside f e E4).
    repeat split.
Qed.

Lemma debris_drawn_in_chapter_4_only_witness :
  posBuf (debris (frame (scrollFrame 1 0.5) (run [] init))) =
  repeat parked DEBRIS_N.
Proof.
  destruct (debris_drawn_in_chapter_4_only [] (scrollFrame 1 0.5))
    as [_ [_ [H _]]].
  destruct H as [H _]; [| exact H].
  unfold chapterOf, scrollFrame. cbn [f_inputs progress].
  rewrite chapter_0_5. discriminate.
Defined.

(** ** How the collision launches debris and fragments *)

Lemma vlength_normalize_le (v : Vec3) : vlength (normalize v) <= 1.
Proof.
  destruct (Req_dec_T (vlength v) 0) as [E | E].
  - unfold normalize. destruct (Reqb_spec (vlength v) 0); [| contradiction].
    rewrite vlength_multiplyScalar, E. rewrite Rmult_0_r. lra.
  - rewrite vlength_normalize by exact E. lra.
Qed.

Lemma dot_self (v : Vec3) : dot v v = vlength v * vlength v.
Proof. unfold dot. symmetry. apply vlength_sq. Qed.

Lemma dot_normalize_cross (a b : Vec3) :
  dot (normalize (crossVectors a b)) a = 0.
Proof.
  unfold normalize, dot, multiplyScalar, crossVectors. cbn [vx vy vz]. ring.
Qed.

(** A velocity made of [a] along a tangent and [b] along the radial
    direction [up]. *)
Lemma launch_bound (p r : Vec3) (a b : R) :
  0 <= a ->
  let up := normalize p in
  let tan := normalize (crossVectors up r) in
  let v := vadd (multiplyScalar tan a) (multiplyScalar up b) in
  Rabs (dot v up) <= Rabs b /\ vlength v <= a + Rabs b.
Proof.
  intros Ha up tan v.
  pose proof (vlength_normalize_le p) as Hup. fold up in Hup.
  pose proof (vlength_nonneg up) as Hup0.
  pose proof (vlength_normalize_le (crossVectors up r)) as Htan.
  fold tan in Htan.
  pose proof (vlength_nonneg tan) as Htan0.
  split.
  - assert (E : dot v up = b * (vlength up * vlength up)).
    { rewrite <- dot_self.
      pose proof (dot_normalize_cross up r) as H0. fold tan in H0.
      unfold v, dot, vadd, multiplyScalar in *. cbn [vx vy vz] in *.
      replace ((vx tan * a + vx up * b) * vx up +
               (vy tan * a + vy up * b) * vy up +
               (vz tan * a + vz up * b) * vz up)
        with (a * (vx tan * vx up + vy tan * vy up + vz tan * vz up) +
              b * (vx up * vx up + vy up * vy up + vz up * vz up)) by ring.
      rewrite H0. ring. }
    assert (Hsq : 0 <= vlength up * vlength up <= 1).
    { split; [apply Rmult_le_pos; assumption |].
      apply Rle_trans with (1 * 1); [| lra].
      apply Rmult_le_compat; assumption. }
    rewrite E, Rabs_mult.
    rewrite (Rabs_right (vlength up * vlength up)) by lra.
    apply Rle_trans with (Rabs b * 1); [| lra].
    apply Rmult_le_compat_l; [apply Rabs_pos | apply Hsq].
  - unfold v.
    eapply Rle_trans; [apply vlength_triangle |].
    rewrite !vlength_multiplyScalar.
    rewrite (Rabs_right a) by lra.
    apply Rplus_le_compat.
    + apply Rle_trans with (a * 1); [| lra].
      apply Rmult_le_compat_l; assumption.
    + apply Rle_trans with (Rabs b * 1); [| lra].
      apply Rmult_le_compat_l; [apply Rabs_pos | assumption].
Qed.

Lemma Rabs_half (u k : R) : 0 <= u <= 1 -> 0 <= k -> Rabs ((u - 0.5) * k) <= 0.5 * k.
Proof.
  intros Hu Hk. unfold Rabs. destruct (Rcase_abs ((u - 0.5) * k)); nra.
Qed.

(** X16. The particles respawned at the collision are launched along the
    shell: whatever the generator draws, a respawned particle is active,
    keeps its life and size, has a speed of at most 6 and a velocity
    component along its own radial direction of at most 0.3 in absolute
    value. *)
Theorem debris_launched_along_shell (cpt : Vec3) (d : Particle) (st : Z) :
  let d' := fst (spawnDebris cpt d st) in
  active d' = true /\ life d' = life d /\ size d' = size d /\
  Rabs (dot (vel d') (normalize (pos d'))) <= 0.3 /\
  vlength (vel d') <= 6.
Proof.
  unfold spawnDebris, rbind, rret.
  destruct (rng st) as [jx s1]. destruct (rng s1) as [jy s2].
  destruct (rng s2) as [jz s3].
  destruct (rng s3) as [rx s4]. destruct (rng s4) as [ry s5].
  destruct (rng s5) as [rz s6].
  pose proof (rng_range s6) as Hk. destruct (rng s6) as [k s7].
  pose proof (rng_range s7) as Hu. destruct (rng s7) as [u s8].
  destruct (rng s8) as [h s9]. destruct (rng s9) as [l s10].
  cbn [fst pos vel active life size] in *.
  repeat (split; [reflexivity |]).
  pose proof (launch_bound (vadd cpt (jitter jx jy jz 0.08))
                           (mkVec3 (rx - 0.5) (ry - 0.5) (rz - 0.5))
                           (1.2 + k * 4.5) ((u - 0.5) * 0.6)) as H.
  cbv zeta in H. destruct H as [H1 H2]; [lra |].
  pose proof (Rabs_half u 0.6 Hu) as Hb.
  split; lra.
Qed.

Lemma jitter_length (x y z k : R) :
  0 <= x <= 1 -> 0 <= y <= 1 -> 0 <= z <= 1 -> 0 <= k ->
  vlength (jitter x y z k) <= 0.9 * k.
Proof.
  intros Hx Hy Hz Hk. unfold vlength, jitter. cbn [vx vy vz].
  apply sqrt_le_of_sq; [lra |].
  assert (Ex : (x - 0.5) * (x - 0.5) <= 0.25) by nra.
  assert (Ey : (y - 0.5) * (y - 0.5) <= 0.25) by nra.
  assert (Ez : (z - 0.5) * (z - 0.5) <= 0.25) by nra.
  assert (Ek : 0 <= k * k) by nra.
  replace ((x - 0.5) * k * ((x - 0.5) * k) + (y - 0.5) * k * ((y - 0.5) * k) +
           (z - 0.5) * k * ((z - 0.5) * k))
    with (((x - 0.5) * (x - 0.5) + (y - 0.5) * (y - 0.5) +
           (z - 0.5) * (z - 0.5)) * (k * k)) by ring.
  nra.
Qed.

(** X17. The fragments spawned at the collision fly off horizontally: a
    spawned fragment is visible with life 1, opacity 1 and emissive
    intensity 3, lies within 0.02 of the collision point on each axis, has
    a vertical speed of at most 0.6 and a speed of at most 6.4, whatever
    the generator draws. *)
Theorem fragments_launched_horizontally
        (cpt : Vec3) (f : Fragment) (st : Z) :
  let f' := fst (spawnFragment cpt f st) in
  f_visible f' = true /\ f_life f' = 1 /\ f_opacity f' = 1 /\
  f_emissive f' = 3 /\
  (Rabs (vx (f_pos f') - vx cpt) <= 0.02 /\
   Rabs (vy (f_pos f') - vy cpt) <= 0.02 /\
   Rabs (vz (f_pos f') - vz cpt) <= 0.02) /\
  Rabs (vy (f_vel f')) <= 0.6 /\
  vlength (f_vel f') <= 6.4.
Proof.
  unfold spawnFragment, rbind, rret.
  pose proof (rng_range st) as H1. destruct (rng st) as [jx s1].
  pose proof (rng_range s1) as H2. destruct (rng s1) as [jy s2].
  pose proof (rng_range s2) as H3. destruct (rng s2) as [jz s3].
  pose proof (rng_range s3) as Hk. destruct (rng s3) as [k s4].
  pose proof (rng_range s4) as Hnx. destruct (rng s4) as [nx s5].
  pose proof (rng_range s5) as Hny. destruct (rng s5) as [ny s6].
  pose proof (rng_range s6) as Hnz. destruct (rng s6) as [nz s7].
  cbn [fst f_pos f_vel f_visible f_life f_opacity f_emissive] in *.
  repeat (split; [reflexivity || lra |]).
  split; [| split].
  - unfold vadd, jitter. cbn [vx vy vz].
    pose proof (Rabs_half jx 0.04 H1) as A1.
    pose proof (Rabs_half jy 0.04 H2) as A2.
    pose proof (Rabs_half jz 0.04 H3) as A3.
    replace (vx cpt + (jx - 0.5) * 0.04 - vx cpt) with ((jx - 0.5) * 0.04)
      by ring.
    replace (vy cpt + (jy - 0.5) * 0.04 - vy cpt) with ((jy - 0.5) * 0.04)
      by ring.
    replace (vz cpt + (jz - 0.5) * 0.04 - vz cpt) with ((jz - 0.5) * 0.04)
      by ring.
    repeat split; lra.
  - set (p := vadd cpt (jitter jx jy jz 0.04)).
    assert (E : vy (normalize (crossVectors (normalize p) (mkVec3 0 1 0))) = 0).
    { unfold normalize at 1. unfold multiplyScalar, crossVectors.
      cbn [vx vy vz]. ring. }
    unfold vadd, multiplyScalar, jitter. cbn [vx vy vz]. rewrite E.
    replace (0 * (1.8 + k * 3.5) + (ny - 0.5) * 1.2) with ((ny - 0.5) * 1.2)
      by ring.
    pose proof (Rabs_half ny 1.2 Hny). lra.
  - eapply Rle_trans; [apply vlength_triangle |].
    rewrite vlength_multiplyScalar.
    pose proof (vlength_normalize_le
                  (crossVectors (normalize (vadd cpt (jitter jx jy jz 0.04)))
                                (mkVec3 0 1 0))) as Ht.
    pose proof (vlength_nonneg
                  (normalize
                     (crossVectors
                        (normalize (vadd cpt (jitter jx jy jz 0.04)))
                        (mkVec3 0 1 0)))) as Ht0.
    pose proof (jitter_length nx ny nz 1.2 Hnx Hny Hnz) as Hj.
    rewrite Rabs_right by lra. nra.
Qed.

(** ** The earlier scene: debris and camera *)

Lemma Rabs_le_sq (x k : R) : Rabs x <= k -> x * x <= k * k.
Proof. unfold Rabs. destruct (Rcase_abs x); nra. Qed.

Lemma explode_trapped (d : Scene.Debris) (st : Z) :
  Scene.trapped (fst (Scene.explode d st)).
Proof.
  unfold Scene.explode, rbind, rret.
  pose proof (rng_range st) as H1. destruct (rng st) as [x s1].
  pose proof (rng_range s1) as H2. destruct (rng s1) as [y s2].
  pose proof (rng_range s2) as H3. destruct (rng s2) as [z s3].
  destruct (rng s3) as [l s4].
  cbn [fst] in *. unfold Scene.trapped. cbn [Scene.pos Scene.vel vx vy vz].
  pose proof (Rabs_half x 6 H1). pose proof (Rabs_half y 6 H2).
  pose proof (Rabs_half z 6 H3).
  assert (E : vlength (mkVec3 (EARTH_RADIUS * 1.42) 0 0) = EARTH_RADIUS * 1.42).
  { unfold vlength. cbn [vx vy vz].
    replace (EARTH_RADIUS * 1.42 * (EARTH_RADIUS * 1.42) + 0 * 0 + 0 * 0)
      with ((EARTH_RADIUS * 1.42) * (EARTH_RADIUS * 1.42)) by ring.
    apply sqrt_square. unfold EARTH_RADIUS. lra. }
  rewrite E. unfold EARTH_RADIUS. repeat split; lra.
Qed.

Lemma scene_debrisStep_trapped (dt t : R) (i : nat) (d : Scene.Debris) :
  0 <= dt -> Scene.trapped d -> Scene.trapped (Scene.debrisStep dt t i d).
Proof.
  intros Hdt [[Hlo Hhi] [Hx [Hy Hz]]].
  unfold Scene.trapped, Scene.debrisStep.
  cbn [Scene.pos Scene.vel].
  split; [| repeat split; assumption].
  replace (- dt * 0.22) with (- (dt * 0.22)) by ring.
  pose proof (exp_neg_le_1 (dt * 0.22)) as [He0 He1]; [lra |].
  set (k := exp (- (dt * 0.22))) in *.
  set (p := mkVec3 (vx (Scene.pos d) + vx (Scene.vel d) * k * 0.016)
                   (vy (Scene.pos d) + vy (Scene.vel d) * k * 0.016)
                   (vz (Scene.pos d) + vz (Scene.vel d) * k * 0.016)).
  assert (Ep : p = vadd (Scene.pos d) (multiplyScalar (Scene.vel d) (k * 0.016))).
  { apply vec3_eq; unfold p, vadd, multiplyScalar; cbn [vx vy vz]; ring. }
  assert (Hv : vlength (Scene.vel d) <= 6).
  { unfold vlength. apply sqrt_le_of_sq; [lra |].
    apply Rabs_le_sq in Hx, Hy, Hz. lra. }
  assert (Hstep : vlength (multiplyScalar (Scene.vel d) (k * 0.016)) <= 0.1).
  { rewrite vlength_multiplyScalar, Rabs_right by nra.
    pose proof (vlength_nonneg (Scene.vel d)). nra. }
  assert (Hp : EARTH_RADIUS * 1.18 - 0.103 <= vlength p).
  { rewrite Ep.
    pose proof (vlength_triangle_rev (Scene.pos d)
                  (multiplyScalar (Scene.vel d) (k * 0.016))).
    lra. }
  assert (Hnz : vlength p <> 0) by (unfold EARTH_RADIUS in Hp; lra).
  set (p1 := if Rgtb (vlength p) (EARTH_RADIUS * 2.2)
             then setLength p (EARTH_RADIUS * 2.2) else p).
  set (p2 := if Rltb (vlength p) (EARTH_RADIUS * 1.18)
             then setLength p1 (EARTH_RADIUS * 1.18) else p1).
  assert (Hband : EARTH_RADIUS * 1.18 <= vlength p2 <= EARTH_RADIUS * 2.2).
  { unfold p2, p1, Rgtb.
    destruct (Rltb_spec (EARTH_RADIUS * 2.2) (vlength p)) as [Hgt | Hgt].
    - rewrite (Rltb_false (vlength p) (EARTH_RADIUS * 1.18))
        by (unfold EARTH_RADIUS in *; lra).
      rewrite vlength_setLength by (unfold EARTH_RADIUS; lra).
      unfold EARTH_RADIUS. lra.
    - destruct (Rltb_spec (vlength p) (EARTH_RADIUS * 1.18)) as [Hlt | Hlt].
      + rewrite vlength_setLength by (unfold EARTH_RADIUS; lra).
        unfold EARTH_RADIUS. lra.
      + lra. }
  set (a := t * 0.06 + INR i * 0.031) in *.
  set (drift := mkVec3 (sin (a + INR i) * 0.002) 0
                       (cos (a + INR i * 0.7) * 0.002)).
  assert (Ed : mkVec3 (vx p2 + sin (a + INR i) * 0.002) (vy p2)
                      (vz p2 + cos (a + INR i * 0.7) * 0.002) =
               vadd p2 drift).
  { apply vec3_eq; unfold vadd, drift; cbn [vx vy vz]; ring. }
  rewrite Ed.
  assert (Hdr : vlength drift <= 0.003).
  { unfold vlength, drift. cbn [vx vy vz].
    apply sqrt_le_of_sq; [lra |].
    pose proof (sin_cos_sq (a + INR i)) as Hs.
    pose proof (sin_cos_sq (a + INR i * 0.7)) as Hc. nra. }
  pose proof (vlength_triangle p2 drift).
  pose proof (vlength_triangle_rev p2 drift).
  lra.
Qed.

Lemma updateDebris_chapter4 (t p4 : R) (s : Scene.DebrisState) :
  Forall Scene.trapped (Scene.debrisParticles s) \/
  Scene.debrisExploded s = false ->
  let s' := Scene._updateDebris t 4 p4 s in
  Scene.debrisExploded s' = true /\
  Forall Scene.trapped (Scene.debrisParticles s') /\
  length (Scene.debrisParticles s') = length (Scene.debrisParticles s).
Proof.
  intros H. unfold Scene._updateDebris.
  cbn [Nat.eqb Nat.ltb Nat.leb andb].
  destruct (Scene.debrisExploded s) eqn:E; cbn [negb].
  - destruct H as [H | H]; [| discriminate].
    cbn [Scene.debrisParticles Scene.debrisExploded Scene.debrisExpTime].
    rewrite E. split; [reflexivity |]. split.
    + apply (mapi_from_Forall Scene.trapped); [| exact H].
      intros i a Ha. apply scene_debrisStep_trapped; [apply Rmax_l | exact Ha].
    + apply mapi_from_length.
  - cbn [Scene.debrisParticles Scene.debrisExploded Scene.debrisExpTime
         Scene.prevChapter4].
    split; [reflexivity |]. split.
    + apply (mapi_from_Forall Scene.trapped).
      * intros i a Ha.
        apply scene_debrisStep_trapped; [apply Rmax_l | exact Ha].
      * apply rmap_Forall. intros a st. apply explode_trapped.
    + unfold mapi. rewrite mapi_from_length. apply rmap_length.
Qed.

Lemma updateDebris_kessler4 (t p4 : R) (s : Scene.DebrisState) :
  Scene.kesslerOpacity (Scene._updateDebris t 4 p4 s) =
  clamp (p4 * 2.5) 0 0.92.
Proof. reflexivity. Qed.

Lemma updateDebris_below4 (t p4 : R) (ch : nat) (s : Scene.DebrisState) :
  (ch < 4)%nat ->
  let s' := Scene._updateDebris t ch p4 s in
  Scene.debrisParticles s' = Scene.debrisParticles s /\
  (Scene.debrisExploded s' = true -> Scene.debrisExploded s = true) /\
  Scene.shakeActive s' = Scene.shakeActive s /\
  Scene.shakeStartTime s' = Scene.shakeStartTime s /\
  Scene.kesslerOpacity s' = 0.
Proof.
  intros Hch. unfold Scene._updateDebris.
  replace (ch =? 4)%nat with false by (symmetry; apply Nat.eqb_neq; lia).
  replace (ch <? 4)%nat with true by (symmetry; apply Nat.ltb_lt; lia).
  replace (4 <=? ch)%nat with false by (symmetry; apply Nat.leb_gt; lia).
  cbn [andb].
  destruct (Scene.prevChapter4 s);
    cbn [Scene.debrisParticles Scene.debrisExploded Scene.shakeActive
         Scene.shakeStartTime Scene.kesslerOpacity];
    repeat split; try reflexivity; try discriminate; auto.
Qed.

Lemma debrisFrame_state (t : R) (ch : nat) (p4 : R)
      (sc : Scene.DebrisState * Vec3) :
  let s := Scene._updateDebris t ch p4 (fst sc) in
  let s' := fst (Scene.debrisFrame t ch p4 sc) in
  Scene.debrisParticles s' = Scene.debrisParticles s /\
  Scene.debrisExploded s' = Scene.debrisExploded s /\
  Scene.kesslerOpacity s' = Scene.kesslerOpacity s.
Proof.
  unfold Scene.debrisFrame.
  destruct (Scene._applyCameraShake _ _ _ _) as [a cam].
  cbn [fst Scene.debrisParticles Scene.debrisExploded Scene.kesslerOpacity].
  repeat split.
Qed.

Lemma sceneRun_app (fs gs : list (R * R)) (sc : Scene.DebrisState * Vec3) :
  Scene.sceneRun (fs ++ gs) sc = Scene.sceneRun gs (Scene.sceneRun fs sc).
Proof. unfold Scene.sceneRun. apply fold_left_app. Qed.

Lemma sceneRun_inv (fs : list (R * R)) :
  let s := fst (Scene.sceneRun fs Scene.sceneInit) in
  length (Scene.debrisParticles s) = 800%nat /\
  (Scene.debrisExploded s = true ->
   Forall Scene.trapped (Scene.debrisParticles s)) /\
  0 <= Scene.kesslerOpacity s <= 0.92.
Proof.
  induction fs as [| [t p] fs IH] using rev_ind.
  - cbn. split; [reflexivity | split; [discriminate | lra]].
  - rewrite sceneRun_app. cbn [Scene.sceneRun fold_left].
    fold (Scene.sceneRun fs Scene.sceneInit).
    set (sc := Scene.sceneRun fs Scene.sceneInit) in *.
    cbv zeta in IH. destruct IH as [IHl [IHt IHk]].
    unfold Scene.sceneFrame. cbn [fst snd].
    destruct (debrisFrame_state t (getChapter p)
                (Scene.smooth (remap p PHASES.P4 1.0)) sc) as [E1 [E2 E3]].
    cbv zeta. rewrite E1, E2, E3.
    pose proof (getChapter_le_4 p) as H4.
    destruct (Nat.eq_dec (getChapter p) 4) as [E | E].
    + rewrite E.
      destruct (updateDebris_chapter4 t (Scene.smooth (remap p PHASES.P4 1.0))
                  (fst sc)) as [Hx [Ht Hl]].
      { destruct (Scene.debrisExploded (fst sc));
          [left; apply IHt; reflexivity | right; reflexivity]. }
      split; [rewrite Hl; exact IHl |]. split; [intros _; exact Ht |].
      rewrite updateDebris_kessler4. apply clamp_bounds; lra.
    + destruct (updateDebris_below4 t (Scene.smooth (remap p PHASES.P4 1.0))
                  (getChapter p) (fst sc)) as [Hp [Hx [_ [_ Hk]]]]; [lia |].
      rewrite Hp, Hk. split; [exact IHl |].
      split; [intros Hd; apply IHt, Hx, Hd | lra].
Qed.

(** X18. The earlier scene keeps its debris trapped: along any sequence of
    frames from the constructor's state there are 800 particles and the
    ring opacity is within [0, 0.92], and after a frame of chapter 4 the
    explosion has happened and every particle is between 1.18 and 2.2
    planet radii from the origin, up to the drift of 0.003. *)
Theorem scene_debris_trapped (fs : list (R * R)) (t p : R) :
  getChapter p = 4%nat ->
  let s := fst (Scene.sceneRun (fs ++ [(t, p)]) Scene.sceneInit) in
  length (Scene.debrisParticles s) = 800%nat /\
  Scene.debrisExploded s = true /\
  Forall (fun d => EARTH_RADIUS * 1.18 - 0.003 <= vlength (Scene.pos d)
                   <= EARTH_RADIUS * 2.2 + 0.003)
         (Scene.debrisParticles s) /\
  0 <= Scene.kesslerOpacity s <= 0.92.
Proof.
  intros Hch s.
  destruct (sceneRun_inv (fs ++ [(t, p)])) as [Hl [Ht Hk]]. fold s in Hl, Ht, Hk.
  assert (Hx : Scene.debrisExploded s = true).
  { unfold s. rewrite sceneRun_app. cbn [Scene.sceneRun fold_left].
    fold (Scene.sceneRun fs Scene.sceneInit).
    set (sc := Scene.sceneRun fs Scene.sceneInit).
    unfold Scene.sceneFrame. cbn [fst snd]. rewrite Hch.
    destruct (debrisFrame_state t 4 (Scene.smooth (remap p PHASES.P4 1.0)) sc)
      as [_ [E2 _]].
    cbv zeta in E2. rewrite E2.
    unfold Scene._updateDebris. cbn [Nat.eqb Nat.ltb Nat.leb andb].
    destruct (Scene.debrisExploded (fst sc)) eqn:E; cbn [negb];
      cbn [Scene.debrisExploded]; [exact E | reflexivity]. }
  split; [exact Hl |]. split; [exact Hx |]. split; [| exact Hk].
  eapply Forall_impl; [| apply Ht, Hx].
  intros d [Hd _]. exact Hd.
Qed.

Lemma scene_debris_trapped_witness :
  Scene.debrisExploded
    (fst (Scene.sceneRun ([] ++ [(1, 0.9)]) Scene.sceneInit)) = true.
Proof.
  destruct (scene_debris_trapped [] 1 0.9 chapter_0_9) as [_ [H _]]. exact H.
Defined.

Lemma scene_shake_active (t start : R) (cam : Vec3) :
  start <= t -> t - start <= Scene.shakeDuration ->
  let r := Scene._applyCameraShake t true start cam in
  fst r = true /\
  Rabs (vx (snd r) - vx Scene.camBase) <= Scene.shakeIntensity /\
  Rabs (vy (snd r) - vy Scene.camBase) <= Scene.shakeIntensity /\
  vz (snd r) = Scene.CAM_Z.
Proof.
  intros H0 H1. unfold Scene._applyCameraShake, Rgtb. cbn [negb].
  rewrite Rltb_false by exact H1.
  cbn [fst snd vx vy vz Scene.camBase].
  split; [reflexivity |]. split; [| split; [| reflexivity]].
  - replace (- (t - start) * (5.0 / Scene.shakeDuration))
      with (- ((t - start) * (5.0 / Scene.shakeDuration))) by ring.
    pose proof (exp_neg_le_1 ((t - start) * (5.0 / Scene.shakeDuration)))
      as [He0 He1].
    { apply Rmult_le_pos; [lra |]. unfold Scene.shakeDuration. lra. }
    set (k := exp _) in *.
    pose proof (SIN_bound (t * 93.1)) as [A1 A2].
    pose proof (SIN_bound (t * 47.3)) as [B1 B2].
    pose proof (SIN_bound (t * 211.7)) as [C1 C2].
    set (w := sin (t * 93.1) * 0.55 + sin (t * 47.3) * 0.30
              + sin (t * 211.7) * 0.15).
    assert (Hw : -1 <= w <= 1) by (unfold w; lra).
    replace (0 + Scene.shakeIntensity * k * w - 0)
      with (Scene.shakeIntensity * k * w) by ring.
    unfold Scene.shakeIntensity. unfold Rabs.
    destruct (Rcase_abs (0.28 * k * w)); nra.
  - replace (- (t - start) * (5.0 / Scene.shakeDuration))
      with (- ((t - start) * (5.0 / Scene.shakeDuration))) by ring.
    pose proof (exp_neg_le_1 ((t - start) * (5.0 / Scene.shakeDuration)))
      as [He0 He1].
    { apply Rmult_le_pos; [lra |]. unfold Scene.shakeDuration. lra. }
    set (k := exp _) in *.
    pose proof (SIN_bound (t * 78.6)) as [A1 A2].
    pose proof (SIN_bound (t * 34.2)) as [B1 B2].
    pose proof (SIN_bound (t * 157.3)) as [C1 C2].
    set (w := sin (t * 78.6) * 0.50 + sin (t * 34.2) * 0.35
              + sin (t * 157.3) * 0.15).
    assert (Hw : -1 <= w <= 1) by (unfold w; lra).
    replace (1.2 + Scene.shakeIntensity * k * w - 1.2)
      with (Scene.shakeIntensity * k * w) by ring.
    unfold Scene.shakeIntensity. unfold Rabs.
    destruct (Rcase_abs (0.28 * k * w)); nra.
Qed.

Lemma applyCameraShake_z (t : R) (a : bool) (start : R) (cam : Vec3) :
  vz cam = Scene.CAM_Z ->
  vz (snd (Scene._applyCameraShake t a start cam)) = Scene.CAM_Z.
Proof.
  intros H. unfold Scene._applyCameraShake.
  destruct a; cbn [negb]; [| exact H].
  destruct (Rgtb _ _); reflexivity.
Qed.

Lemma sceneRun_camera_z (fs : list (R * R)) :
  vz (snd (Scene.sceneRun fs Scene.sceneInit)) = Scene.CAM_Z.
Proof.
  induction fs as [| [t p] fs IH] using rev_ind; [reflexivity |].
  rewrite sceneRun_app. cbn [Scene.sceneRun fold_left].
  fold (Scene.sceneRun fs Scene.sceneInit).
  set (sc := Scene.sceneRun fs Scene.sceneInit) in *.
  unfold Scene.sceneFrame, Scene.debrisFrame. cbn [fst snd].
  pose proof (applyCameraShake_z t
    (Scene.shakeActive
       (Scene._updateDebris t (getChapter p)
          (Scene.smooth (remap p PHASES.P4 1.0)) (fst sc)))
    (Scene.shakeStartTime
       (Scene._updateDebris t (getChapter p)
          (Scene.smooth (remap p PHASES.P4 1.0)) (fst sc)))
    (snd sc) IH) as H.
  destruct (Scene._applyCameraShake _ _ _ _) as [a cam].
  exact H.
Qed.

(** X19. The camera of the earlier scene: along any sequence of frames
    from the constructor's state it keeps its z coordinate.  The shake does
    nothing while it is off; the frame of the explosion turns it on and
    starts it at that frame's time; while it is on and at most 1.4 of
    clock time has passed since its start, the camera is within 0.28 of its
    base position along x and along y; the first call later than that puts
    the camera back on its base position and turns the shake off. *)
Theorem scene_camera_shake :
  (forall fs, vz (snd (Scene.sceneRun fs Scene.sceneInit)) = Scene.CAM_Z) /\
  (forall t start cam,
     Scene._applyCameraShake t false start cam = (false, cam)) /\
  (forall t p sc,
     getChapter p = 4%nat -> Scene.debrisExploded (fst sc) = false ->
     let sc' := Scene.sceneFrame (t, p) sc in
     Scene.shakeActive (fst sc') = true /\
     Scene.shakeStartTime (fst sc') = t) /\
  (forall t start cam,
     start <= t -> t - start <= 1.4 ->
     let r := Scene._applyCameraShake t true start cam in
     fst r = true /\
     Rabs (vx (snd r) - vx Scene.camBase) <= 0.28 /\
     Rabs (vy (snd r) - vy Scene.camBase) <= 0.28 /\
     vz (snd r) = vz Scene.camBase) /\
  (forall t start cam,
     1.4 < t - start ->
     Scene._applyCameraShake t true start cam = (false, Scene.camBase)).
Proof.
  split; [exact sceneRun_camera_z |]. split; [reflexivity |].
  split; [| split].
  - intros t p sc Hch Hx sc'. unfold sc', Scene.sceneFrame, Scene.debrisFrame.
    cbn [fst snd]. rewrite Hch.
    assert (E : Scene.shakeActive
                  (Scene._updateDebris t 4
                     (Scene.smooth (remap p PHASES.P4 1.0)) (fst sc)) = true /\
                Scene.shakeStartTime
                  (Scene._updateDebris t 4
                     (Scene.smooth (remap p PHASES.P4 1.0)) (fst sc)) = t).
    { unfold Scene._updateDebris. cbn [Nat.eqb Nat.ltb Nat.leb andb].
      rewrite Hx. cbn [negb Scene.shakeActive Scene.shakeStartTime].
      split; reflexivity. }
    destruct E as [E1 E2]. rewrite E1, E2.
    pose proof (scene_shake_active t t (snd sc)) as H.
    cbv zeta in H. destruct H as [Ha _];
      [lra | unfold Scene.shakeDuration; lra |].
    destruct (Scene._applyCameraShake t true t (snd sc)) as [a cam].
    cbn [fst Scene.shakeActive Scene.shakeStartTime] in *.
    split; [exact Ha | reflexivity].
  - intros t start cam H0 H1. apply scene_shake_active; [exact H0 |].
    unfold Scene.shakeDuration. exact H1.
  - intros t start cam H. unfold Scene._applyCameraShake, Rgtb. cbn [negb].
    rewrite Rltb_true by (unfold Scene.shakeDuration; exact H). reflexivity.
Qed.

Lemma scene_camera_shake_witness :
  Scene._applyCameraShake 2 true 0 Scene.camBase = (false, Scene.camBase).
Proof.
  destruct scene_camera_shake as [_ [_ [_ [_ H]]]].
  apply H. lra.
Defined.

(** ** Where the satellites are *)

Lemma ORBIT_DEFS_range (o : OrbitDef) :
  In o ORBIT_DEFS -> 1.22 <= o_r o <= 1.90.
Proof.
  unfold ORBIT_DEFS. simpl.
  intros H. repeat (destruct H as [<- | H]; [simpl; lra |]). contradiction.
Qed.

Lemma satPos_length (s : Sat) (t : R) : 0 <= s_r s -> vlength (satPos s t) = s_r s.
Proof. intros H. unfold satPos. apply orbitPos_length. exact H. Qed.

(** X20. Where [_sats] puts the satellites of the pool: member [i] is on
    its orbit, between 1.22 and 1.90 planet radii from the origin, when [i]
    is below the visible count, and at the parking point (9999, 9999, 9999)
    otherwise.  The first four members are always in place, and from
    chapter 2 on all 200 are. *)
Theorem satellites_in_place_or_parked (t : R) (ch : nat) (p : R) :
  exists pool,
    satData = Some pool /\ length pool = 200%nat /\
    forall i s, nth_error pool i = Some s ->
      let q := satInstancePos t ch p i s in
      ((Z.of_nat i < vis ch p)%Z ->
         q = satPos s t /\
         EARTH_RADIUS * 1.22 <= vlength q <= EARTH_RADIUS * 1.90) /\
      ((vis ch p <= Z.of_nat i)%Z -> q = parked) /\
      ((i < 4)%nat \/ (2 <= ch)%nat -> q = satPos s t).
Proof.
  destruct satData_defined as [pool [Hp Hl]].
  exists pool. split; [exact Hp |]. split; [exact Hl |].
  intros i s Hi q.
  assert (Hin : In s pool) by (eapply nth_error_In; exact Hi).
  assert (Hlt : (i < 200)%nat).
  { rewrite <- Hl. apply nth_error_Some. rewrite Hi. discriminate. }
  pose proof (generateSats_on_orbit ORBIT_DEFS 13%Z pool Hp) as Ho.
  rewrite Forall_forall in Ho. destruct (Ho s Hin) as [o [Hin_o Hr]].
  pose proof (ORBIT_DEFS_range o Hin_o) as Hrange.
  pose proof (vis_bounds ch p) as Hv.
  assert (Hplace : (Z.of_nat i < vis ch p)%Z -> q = satPos s t).
  { intros H. unfold q, satInstancePos.
    apply Z.ltb_lt in H. rewrite H. reflexivity. }
  split; [| split].
  - intros H. split; [apply Hplace; exact H |].
    rewrite (Hplace H), satPos_length by (rewrite Hr; unfold EARTH_RADIUS; nra).
    rewrite Hr. unfold EARTH_RADIUS. lra.
  - intros H. unfold q, satInstancePos.
    apply Z.ltb_ge in H. rewrite H. reflexivity.
  - intros [H | H]; apply Hplace.
    + lia.
    + unfold vis, SAT_POOL.
      replace (ch =? 0)%nat with false by (symmetry; apply Nat.eqb_neq; lia).
      replace (ch =? 1)%nat with false by (symmetry; apply Nat.eqb_neq; lia).
      lia.
Qed.

Lemma satellites_in_place_or_parked_witness :
  exists pool s,
    satData = Some pool /\ nth_error pool 0 = Some s /\
    satInstancePos 0 0 0 0 s = satPos s 0.
Proof.
  destruct (satellites_in_place_or_parked 0 0 0) as [pool [Hp [Hl H]]].
  destruct (nth_error pool 0) as [s |] eqn:Hs.
  - exists pool, s. split; [exact Hp |]. split; [exact Hs |].
    destruct (H 0%nat s Hs) as [_ [_ H3]]. apply H3. left. lia.
  - apply nth_error_None in Hs. rewrite Hl in Hs. lia.
Defined.

Lemma generateSatellite_range (st : Z) :
  let s := fst (Scene.generateSatellite st) in
  EARTH_RADIUS * 1.28 <= Scene.radius s <= EARTH_RADIUS * 1.55 /\
  - (PI / 2) <= Scene.inclination s <= PI / 2 /\
  0 <= Scene.ascension s <= 2 * PI /\
  0 <= Scene.phase s <= 2 * PI /\
  0.14 <= Scene.speed s <= 0.32.
Proof.
  unfold Scene.generateSatellite, rbind, rret.
  pose proof (rng_range st) as Ha. destruct (rng st) as [a s1].
  pose proof (rng_range s1) as Hb. destruct (rng s1) as [b s2].
  pose proof (rng_range s2) as Hc. destruct (rng s2) as [c s3].
  pose proof (rng_range s3) as Hd. destruct (rng s3) as [d s4].
  pose proof (rng_range s4) as He. destruct (rng s4) as [e s5].
  destruct (rng s5) as [f s6].
  cbn [fst Scene.radius Scene.inclination Scene.ascension Scene.phase
       Scene.speed] in *.
  pose proof PI_gt_3 as Hpi. unfold EARTH_RADIUS.
  repeat split; nra.
Qed.

(** X21. The pool of the earlier scene has 200 satellites; each has a
    radius between 1.28 and 1.55 planet radii, an inclination within a
    quarter turn, a speed between 0.14 and 0.32, and at every time it is at
    a distance from the origin equal to its radius, hence above the surface
    and below 2.2 planet radii, the ceiling of that scene's debris shell. *)
Theorem scene_satellites_in_band :
  length Scene.satData = 200%nat /\
  Forall (fun s =>
            (EARTH_RADIUS * 1.28 <= Scene.radius s <= EARTH_RADIUS * 1.55 /\
             - (PI / 2) <= Scene.inclination s <= PI / 2 /\
             0.14 <= Scene.speed s <= 0.32) /\
            forall t,
              vlength (Scene.satPosition s t) = Scene.radius s /\
              EARTH_RADIUS < vlength (Scene.satPosition s t)
                           < EARTH_RADIUS * 2.2)
         Scene.satData.
Proof.
  split.
  - unfold Scene.satData, Scene.generateSatelliteData. apply rtimes_length.
  - unfold Scene.satData, Scene.generateSatelliteData.
    apply rtimes_Forall. intros st.
    pose proof (generateSatellite_range st) as [Hr [Hi [_ [_ Hs]]]].
    cbv zeta in Hr, Hi, Hs.
    split; [repeat split; lra |].
    intros t. rewrite satPosition_is_orbitPos.
    rewrite orbitPos_length by (unfold EARTH_RADIUS in *; lra).
    unfold EARTH_RADIUS in *. repeat split; lra.
Qed.

(** ** The record of the collision *)

Lemma dangerMid_length (t : R) : vlength (dangerMid t) <= EARTH_RADIUS * 1.42.
Proof.
  unfold dangerMid. rewrite vlength_multiplyScalar.
  rewrite Rabs_right by lra.
  pose proof (vlength_triangle (satPos dA t) (satPos dB t)) as H.
  rewrite !satPos_length in H
    by (unfold dA, dB, EARTH_RADIUS; cbn [s_r]; lra).
  change (s_r dA) with (EARTH_RADIUS * 1.42) in H.
  change (s_r dB) with (EARTH_RADIUS * 1.42) in H. lra.
Qed.

Lemma run_collision_record (fs : list Frame) :
  let c := coll (run fs init) in
  (collisionPt c = vzero \/ exists t, collisionPt c = dangerMid t) /\
  (collisionDone c = true ->
   collisionPt c = dangerMid (collisionTime c) /\
   exists f, In f fs /\ chapterOf f = 4%nat /\ f_time f = collisionTime c).
Proof.
  induction fs as [| f fs IH] using rev_ind.
  - cbn. split; [left; reflexivity | discriminate].
  - cbv zeta in *. rewrite run_app. simpl run.
    set (e := run fs init) in *. destruct IH as [IH1 IH2].
    rewrite frame_coll. cbv zeta.
    destruct (chapterOf f <? 3)%nat eqn:E3.
    + destruct (collisionDone (coll e)) eqn:Hd.
      * cbn [collisionPt collisionDone collisionTime].
        split; [exact IH1 | discriminate].
      * split; [exact IH1 |]. rewrite Hd. discriminate.
    + destruct (chapterOf f =? 4)%nat eqn:E4.
      * destruct (collisionDone (coll e)) eqn:Hd; cbn [andb negb].
        -- split; [exact IH1 |]. intros _.
           destruct (IH2 eq_refl) as [Hp [g [Hg1 [Hg2 Hg3]]]].
           split; [exact Hp |]. exists g.
           split; [apply in_or_app; left; exact Hg1 | split; assumption].
        -- cbn [collisionPt collisionDone collisionTime].
           split; [right; exists (f_time f); reflexivity |].
           intros _. split; [reflexivity |]. exists f.
           split; [apply in_or_app; right; left; reflexivity |].
           split; [apply Nat.eqb_eq; exact E4 | reflexivity].
      * cbn [andb]. split; [exact IH1 |]. intros Hd.
        destruct (IH2 Hd) as [Hp [g [Hg1 [Hg2 Hg3]]]].
        split; [exact Hp |]. exists g.
        split; [apply in_or_app; left; exact Hg1 | split; assumption].
Qed.

(** X22. The record of the collision along any run from the initial
    state: the radius is the distance of the recorded point from the
    origin and is at most 1.42 planet radii, the radius of the two danger
    orbits; while the flag is set, the point is the midpoint of the danger
    pair at the recorded time, and that time is the clock time of a frame
    of chapter 4 of the run. *)
Theorem collision_record_within_orbit (fs : list Frame) :
  let c := coll (run fs init) in
  collisionR c = vlength (collisionPt c) /\
  0 <= collisionR c <= EARTH_RADIUS * 1.42 /\
  (collisionDone c = true ->
   collisionPt c = dangerMid (collisionTime c) /\
   exists f, In f fs /\ chapterOf f = 4%nat /\ f_time f = collisionTime c).
Proof.
  intros c. destruct (run_collision_record fs) as [H1 H2]. fold c in H1, H2.
  pose proof (run_collisionR fs) as HR. fold c in HR.
  split; [exact HR |]. split; [| exact H2].
  rewrite HR. split; [apply vlength_nonneg |].
  destruct H1 as [-> | [t ->]].
  - unfold vlength, vzero. cbn [vx vy vz].
    replace (0 * 0 + 0 * 0 + 0 * 0) with 0 by ring. rewrite sqrt_0.
    unfold EARTH_RADIUS. lra.
  - apply dangerMid_length.
Qed.

Lemma collision_record_within_orbit_witness :
  collisionPt (coll (run [scrollFrame 1 0.9] init)) =
  dangerMid (collisionTime (coll (run [scrollFrame 1 0.9] init))).
Proof.
  destruct (collision_record_within_orbit [scrollFrame 1 0.9])
    as [_ [_ H]].
  destruct H as [H _]; [| exact H].
  simpl run. rewrite frame_flag.
  unfold chapterOf, scrollFrame. cbn [f_inputs progress].
  rewrite chapter_0_9. reflexivity.
Defined.

(** ** The overlay: counters, pointer and cursor *)

Lemma animated_t_bounds (duration start now : R) :
  0 <= clamp01 ((now - start) / duration) <= 1.
Proof. apply clamp01_bounds. Qed.

Lemma animated_t_one (duration start now : R) :
  0 < duration ->
  (clamp01 ((now - start) / duration) = 1 <-> start + duration <= now).
Proof.
  intros Hd. unfold clamp01, clamp.
  assert (Hdiv : forall x, x / duration * duration = x)
    by (intros x; field; lra).
  pose proof (Hdiv (now - start)) as E.
  set (q := (now - start) / duration) in *.
  split.
  - intros H. destruct (Rle_dec 1 q) as [H1 | H1]; [nra |].
    rewrite Rmin_right in H by lra.
    unfold Rmax in H. destruct (Rle_dec 0 q); lra.
  - intros H. assert (H1 : 1 <= q) by nra.
    rewrite Rmin_left by lra. apply Rmax_right. lra.
Qed.

(** X23. The counter [AnimatedNumber] animates, for a value [v >= 0] and
    a duration [> 0]: the number shown is always between 0 and [v], it
    never goes down as time passes, it is 0 at the start, and from
    [start + duration] on it is exactly [v] and no further frame is
    requested; before that a further frame is always requested. *)
Theorem animated_number_lands (v : Z) (duration start now : R) :
  (0 <= v)%Z -> 0 < duration ->
  (0 <= Hud.animatedCurrent v duration start now <= v)%Z /\
  (forall later, now <= later ->
     (Hud.animatedCurrent v duration start now
      <= Hud.animatedCurrent v duration start later)%Z) /\
  (now <= start -> Hud.animatedCurrent v duration start now = 0%Z) /\
  (start + duration <= now ->
     Hud.animatedCurrent v duration start now = v /\
     Hud.animatedContinues duration start now = false) /\
  (now < start + duration ->
     Hud.animatedContinues duration start now = true).
Proof.
  intros Hv Hd.
  pose proof (animated_t_bounds duration start now) as Ht.
  pose proof (animated_t_one duration start now Hd) as H1.
  assert (Hv' : 0 <= IZR v) by (apply IZR_le in Hv; exact Hv).
  unfold Hud.animatedCurrent, Hud.animatedContinues.
  split; [| split; [| split; [| split]]].
  - apply round_between.
    pose proof (outExpo_bounds _ (proj1 Ht)) as He.
    simpl (IZR 0). split; nra.
  - intros later Hl. apply round_mono.
    apply Rmult_le_compat_l; [exact Hv' |].
    apply outExpo_mono; [apply Ht | | apply clamp01_bounds].
    unfold clamp01. apply clamp_mono.
    unfold Rdiv. apply Rmult_le_compat_r; [| lra].
    left. apply Rinv_0_lt_compat. exact Hd.
  - intros Hs.
    assert (E : clamp01 ((now - start) / duration) = 0).
    { unfold clamp01, clamp.
      assert (Hq : (now - start) / duration <= 0).
      { apply Rmult_le_reg_r with duration; [exact Hd |].
        replace ((now - start) / duration * duration) with (now - start)
          by (field; lra).
        lra. }
      rewrite Rmin_right by lra. apply Rmax_left. exact Hq. }
    rewrite E, outExpo_0, Rmult_0_r. apply (round_IZR 0).
  - intros Hs. apply H1 in Hs. rewrite Hs. split.
    + unfold outExpo. destruct (Reqb_spec 1 1); [| contradiction].
      rewrite Rmult_1_r. apply round_IZR.
    + apply Rltb_false. lra.
  - intros Hs. apply Rltb_true.
    destruct (Req_dec_T (clamp01 ((now - start) / duration)) 1) as [E | E].
    + apply H1 in E. lra.
    + lra.
Qed.

Lemma animated_number_lands_witness :
  Hud.animatedCurrent 27000 1200 0 1200 = 27000%Z.
Proof.
  destruct (animated_number_lands 27000 1200 0 1200) as [_ [_ [_ [H _]]]].
  - lia.
  - lra.
  - destruct H as [H _]; [lra | exact H].
Defined.

Lemma mouseRun_app (evs evs' : list Hud.MouseEvent) (m : Hud.Mouse) :
  Hud.mouseRun (evs ++ evs') m = Hud.mouseRun evs' (Hud.mouseRun evs m).
Proof. unfold Hud.mouseRun. apply fold_left_app. Qed.

(** X24. The pointer tracker, from its initial state and through any
    sequence of moves inside the window, presses, releases, smoothing ticks
    and reads of the drag: the pointer and its smoothed follower stay within
    [-1, 1] on both axes, and whenever the button is up the drag delta is
    (0, 0) -- a drag is only ever reported while the button is down. *)
Theorem mouse_stays_in_range (evs : list Hud.MouseEvent) :
  Forall Hud.insideWindow evs ->
  let m := Hud.mouseRun evs Hud.mouseInit in
  (-1 <= Hud.m_x m <= 1 /\ -1 <= Hud.m_y m <= 1) /\
  (-1 <= Hud.sm_x m <= 1 /\ -1 <= Hud.sm_y m <= 1) /\
  (Hud.down m = false -> Hud.drag_x m = 0 /\ Hud.drag_y m = 0).
Proof.
  induction evs as [| ev evs IH] using rev_ind; intros Hall.
  - cbn. repeat split; lra.
  - apply Forall_app in Hall. destruct Hall as [Hevs Hev].
    inversion Hev as [| ? ? Hin _]; subst.
    specialize (IH Hevs). cbv zeta in *.
    rewrite mouseRun_app. cbn [Hud.mouseRun fold_left].
    fold (Hud.mouseRun evs Hud.mouseInit).
    set (m := Hud.mouseRun evs Hud.mouseInit) in *.
    destruct IH as [[Hx Hy] [[Hsx Hsy] Hdrag]].
    destruct ev as [cx cy w h | cx cy | | |]; cbn [Hud.mouseStep].
    + destruct Hin as [Hcx [Hcy [Hw Hh]]].
      assert (Qx : 0 <= cx / w <= 1).
      { split; [apply Rmult_le_pos; [lra | left; apply Rinv_0_lt_compat; lra] |].
        apply Rmult_le_reg_r with w; [lra |].
        replace (cx / w * w) with cx by (field; lra). lra. }
      assert (Qy : 0 <= cy / h <= 1).
      { split; [apply Rmult_le_pos; [lra | left; apply Rinv_0_lt_compat; lra] |].
        apply Rmult_le_reg_r with h; [lra |].
        replace (cy / h * h) with cy by (field; lra). lra. }
      destruct (Hud.down m) eqn:Ed;
        cbn [Hud.m_x Hud.m_y Hud.sm_x Hud.sm_y Hud.down Hud.drag_x Hud.drag_y].
      * split; [split; lra |]. split; [split; lra |]. discriminate.
      * split; [split; lra |]. split; [split; lra |]. exact Hdrag.
    + cbn [Hud.m_x Hud.m_y Hud.sm_x Hud.sm_y Hud.down Hud.drag_x Hud.drag_y].
      split; [split; lra |]. split; [split; lra |]. discriminate.
    + cbn [Hud.m_x Hud.m_y Hud.sm_x Hud.sm_y Hud.down Hud.drag_x Hud.drag_y].
      split; [split; lra |]. split; [split; lra |]. intros _. split; reflexivity.
    + cbn [Hud.m_x Hud.m_y Hud.sm_x Hud.sm_y Hud.down Hud.drag_x Hud.drag_y].
      split; [split; lra |]. split; [split; lra |]. exact Hdrag.
    + cbn [Hud.m_x Hud.m_y Hud.sm_x Hud.sm_y Hud.down Hud.drag_x Hud.drag_y].
      split; [split; lra |]. split; [split; lra |]. intros _. split; reflexivity.
Qed.

Lemma mouse_stays_in_range_witness :
  Hud.drag_x (Hud.mouseRun [Hud.Down 10 10; Hud.Move 30 20 100 100; Hud.Up]
                           Hud.mouseInit) = 0 /\
  Hud.drag_y (Hud.mouseRun [Hud.Down 10 10; Hud.Move 30 20 100 100; Hud.Up]
                           Hud.mouseInit) = 0.
Proof.
  destruct (mouse_stays_in_range
              [Hud.Down 10 10; Hud.Move 30 20 100 100; Hud.Up])
    as [_ [_ H]].
  - repeat constructor; simpl; lra.
  - apply H. reflexivity.
Defined.

Lemma spring_energy_step (s d x tg v : R) :
  Hud.springEnergy s d (fst (spring x tg v s d) - tg) (snd (spring x tg v s d)) =
  d * Hud.springEnergy s d (x - tg) v.
Proof. unfold Hud.springEnergy, spring. cbn [fst snd]. ring. Qed.

Lemma spring_energy_dominates (e v : R) :
  e * e <= 50 * Hud.springEnergy 0.06 0.72 e v.
Proof.
  unfold Hud.springEnergy.
  pose proof (Rle_0_sqr (6 * v + 0.99 * e)) as H1.
  pose proof (Rle_0_sqr e) as H2. unfold Rsqr in *. nra.
Qed.

Lemma cursorTick_fields (scrolling : bool) (c : Hud.CursorState) :
  let c' := Hud.cursorTick scrolling c in
  let target := if Hud.hovering c then 3.2 else if scrolling then 0.5 else 1 in
  Hud.c_pos c' = Hud.c_pos c /\ Hud.hovering c' = Hud.hovering c /\
  fst (Hud.dotPos c') - fst (Hud.c_pos c) =
    0.8 * (fst (Hud.dotPos c) - fst (Hud.c_pos c)) /\
  snd (Hud.dotPos c') - snd (Hud.c_pos c) =
    0.8 * (snd (Hud.dotPos c) - snd (Hud.c_pos c)) /\
  fst (Hud.ringPos c') - fst (Hud.c_pos c) =
    0.92 * (fst (Hud.ringPos c) - fst (Hud.c_pos c)) /\
  snd (Hud.ringPos c') - snd (Hud.c_pos c) =
    0.92 * (snd (Hud.ringPos c) - snd (Hud.c_pos c)) /\
  Hud.springEnergy 0.06 0.72 (Hud.scale_v c' - target) (Hud.scale_vel c') =
    0.72 * Hud.springEnergy 0.06 0.72 (Hud.scale_v c - target)
                            (Hud.scale_vel c).
Proof.
  unfold Hud.cursorTick.
  destruct (Hud.c_pos c) as [px py] eqn:Ep.
  destruct (Hud.dotPos c) as [dx dy]. destruct (Hud.ringPos c) as [rx ry].
  cbn [Hud.c_pos Hud.hovering Hud.dotPos Hud.ringPos Hud.scale_v Hud.scale_vel
       fst snd].
  repeat (split; [reflexivity || lra |]).
  apply spring_energy_step.
Qed.

(** X25. The custom cursor with the pointer at rest: after [n] ticks the
    dot's offset from the pointer is [0.8^n] times and the ring's [0.92^n]
    times what it was, on each axis, and the sprung scale settles on its
    target (3.2 when hovering, 0.5 when scrolling, 1 otherwise): a
    quadratic form of the scale's error and velocity is multiplied by 0.72
    at every tick, and the squared error is at most 50 times that form. *)
Theorem cursor_settles (n : nat) (scrolling : bool) (c : Hud.CursorState) :
  let c' := Hud.cursorTicks n scrolling c in
  let target := if Hud.hovering c then 3.2 else if scrolling then 0.5 else 1 in
  let energy := Hud.springEnergy 0.06 0.72 (Hud.scale_v c - target)
                                 (Hud.scale_vel c) in
  Hud.c_pos c' = Hud.c_pos c /\ Hud.hovering c' = Hud.hovering c /\
  fst (Hud.dotPos c') - fst (Hud.c_pos c) =
    0.8 ^ n * (fst (Hud.dotPos c) - fst (Hud.c_pos c)) /\
  snd (Hud.dotPos c') - snd (Hud.c_pos c) =
    0.8 ^ n * (snd (Hud.dotPos c) - snd (Hud.c_pos c)) /\
  fst (Hud.ringPos c') - fst (Hud.c_pos c) =
    0.92 ^ n * (fst (Hud.ringPos c) - fst (Hud.c_pos c)) /\
  snd (Hud.ringPos c') - snd (Hud.c_pos c) =
    0.92 ^ n * (snd (Hud.ringPos c) - snd (Hud.c_pos c)) /\
  Hud.springEnergy 0.06 0.72 (Hud.scale_v c' - target) (Hud.scale_vel c') =
    0.72 ^ n * energy /\
  (Hud.scale_v c' - target) * (Hud.scale_v c' - target)
    <= 50 * 0.72 ^ n * energy.
Proof.
  revert c. induction n as [| n IH]; intros c; cbv zeta.
  - cbn [Hud.cursorTicks pow].
    pose proof (spring_energy_dominates
                  (Hud.scale_v c -
                   (if Hud.hovering c then 3.2
                    else if scrolling then 0.5 else 1))
                  (Hud.scale_vel c)) as Hdom.
    repeat (split; [reflexivity || lra |]). lra.
  - cbn [Hud.cursorTicks].
    specialize (IH (Hud.cursorTick scrolling c)). cbv zeta in IH.
    destruct (cursorTick_fields scrolling c)
      as [Ep [Eh [Edx [Edy [Erx [Ery Een]]]]]].
    cbv zeta in Ep, Eh, Edx, Edy, Erx, Ery, Een.
    rewrite Eh, Ep in IH.
    destruct IH as [I1 [I2 [I3 [I4 [I5 [I6 [I7 I8]]]]]]].
    rewrite Edx in I3. rewrite Edy in I4. rewrite Erx in I5.
    rewrite Ery in I6. rewrite Een in I7, I8.
    rewrite <- !tech_pow_Rmult.
    split; [exact I1 |]. split; [exact I2 |].
    split; [rewrite I3; ring |]. split; [rewrite I4; ring |].
    split; [rewrite I5; ring |]. split; [rewrite I6; ring |].
    split; [rewrite I7; ring |].
    eapply Rle_trans; [exact I8 |]. apply Req_le. ring.
Qed.

(** ** [generateSats] on any orbit table and any seed *)

Lemma fillOrbit_pool (orbits : list OrbitDef) (o : OrbitDef)
      (n k j : nat) (sats : list Sat) (st : Z) :
  (length sats <= 200)%nat ->
  Forall (fun s => 0.08 <= s_speed s <= 0.16) sats ->
  let r := fst (fillOrbit o n k j sats st) in
  (length r <= 200)%nat /\ Forall (fun s => 0.08 <= s_speed s <= 0.16) r.
Proof.
  revert j sats st.
  induction k as [| k IH]; intros j sats st Hl Hs; [split; assumption |].
  cbn [fillOrbit].
  destruct (Z.of_nat (length sats) <? SAT_POOL)%Z eqn:E; [| split; assumption].
  apply Z.ltb_lt in E. unfold SAT_POOL in E.
  unfold rbind.
  destruct (rng st) as [a s1].
  pose proof (rng_range s1) as Hb. destruct (rng s1) as [b s2].
  destruct (rng s2) as [c s3]. cbn [fst] in Hb.
  apply IH.
  - rewrite length_app. simpl. lia.
  - apply Forall_app. split; [exact Hs |].
    constructor; [| constructor]. cbn [s_speed]. lra.
Qed.

Lemma eachOrbit_pool (many : nat) (rest : list OrbitDef) (oi : nat)
      (sats : list Sat) (st : Z) :
  (length sats <= 200)%nat ->
  Forall (fun s => 0.08 <= s_speed s <= 0.16) sats ->
  let r := fst (eachOrbit many rest oi sats st) in
  (length r <= 200)%nat /\ Forall (fun s => 0.08 <= s_speed s <= 0.16) r.
Proof.
  revert oi sats st.
  induction rest as [| o rest IH]; intros oi sats st Hl Hs;
    [split; assumption |].
  cbn [eachOrbit]. unfold rbind.
  pose proof (fillOrbit_pool [] o (if (oi <? 4)%nat then 1%nat else many)
                (if (oi <? 4)%nat then 1%nat else many) 0 sats st Hl Hs)
    as [H1 H2].
  destruct (fillOrbit o _ _ 0 sats st) as [sats' st'].
  cbn [fst] in H1, H2. apply IH; assumption.
Qed.

Lemma topUp_pool (orbits : list OrbitDef) (k : nat) (sats : list Sat)
      (st : Z) (l : list Sat) :
  Forall (fun s => 0.08 <= s_speed s <= 0.16) sats ->
  fst (topUp orbits k sats st) = Some l ->
  length l = (length sats + k)%nat /\
  Forall (fun s => 0.08 <= s_speed s <= 0.16) l.
Proof.
  revert sats st. induction k as [| k IH]; intros sats st Hs.
  - cbn. intros E. injection E as <-. split; [lia | exact Hs].
  - cbn [topUp]. unfold rbind at 1.
    destruct (rng st) as [x s1].
    destruct (nth_error orbits _) as [o |]; [| discriminate].
    unfold rbind.
    destruct (rng s1) as [a s2].
    pose proof (rng_range s2) as Hb. destruct (rng s2) as [b s3].
    destruct (rng s3) as [c s4]. cbn [fst] in Hb.
    intros E. apply IH in E.
    + destruct E as [E1 E2]. split; [| exact E2].
      rewrite E1, length_app. simpl. lia.
    + apply Forall_app. split; [exact Hs |].
      constructor; [| constructor]. cbn [s_speed]. lra.
Qed.

Lemma topUp_no_orbits (k : nat) (sats : list Sat) (st : Z) :
  fst (topUp [] (S k) sats st) = None.
Proof.
  cbn [topUp]. unfold rbind.
  destruct (rng st) as [x s1].
  destruct (Z.to_nat (Zfloor (x * INR (length (@nil OrbitDef)))));
    reflexivity.
Qed.

(** X26. Whenever [generateSats] returns, for any orbit table and any
    seed, it returns exactly [SAT_POOL] satellites, each on one of the
    given orbits and with a speed between 0.08 and 0.16.  On an empty
    orbit table it does not return: the top-up loop reads an orbit that is
    not there. *)
Theorem generateSats_pool (orbits : list OrbitDef) (st : Z) :
  (forall l, fst (generateSats orbits st) = Some l ->
     length l = Z.to_nat SAT_POOL /\
     Forall (fun s => on_orbit_of orbits s /\ 0.08 <= s_speed s <= 0.16) l) /\
  (orbits = [] -> fst (generateSats orbits st) = None).
Proof.
  split.
  - intros l Hl.
    pose proof (generateSats_on_orbit orbits st l Hl) as Ho.
    revert Hl. unfold generateSats. unfold rbind at 1.
    pose proof (eachOrbit_pool
                  (Z.to_nat (Zceil (IZR SAT_POOL / INR (length orbits))))
                  orbits 0 [] st) as He.
    destruct (eachOrbit _ orbits 0 [] st) as [sats st1].
    cbn [fst] in He. destruct He as [He1 He2]; [simpl; lia | constructor |].
    unfold rbind.
    pose proof (topUp_pool orbits
                  (Z.to_nat (SAT_POOL - Z.of_nat (length sats))) sats st1)
      as Ht.
    destruct (topUp orbits _ sats st1) as [r st2].
    unfold rret. cbn [fst] in *. destruct r as [l' |]; [| discriminate].
    intros E.
    assert (El : l = firstn (Z.to_nat SAT_POOL) l')
      by (unfold option_map in E; congruence).
    destruct (Ht l' He2 eq_refl) as [Ht1 Ht2].
    assert (Hlen : length l' = 200%nat).
    { rewrite Ht1. unfold SAT_POOL. lia. }
    split.
    + rewrite El, length_firstn, Hlen. unfold SAT_POOL. lia.
    + assert (Hsp : Forall (fun s => 0.08 <= s_speed s <= 0.16) l)
        by (rewrite El; apply Forall_firstn; exact Ht2).
      rewrite Forall_forall in *. intros s Hs.
      split; [apply Ho | apply Hsp]; exact Hs.
  - intros ->. unfold generateSats. cbn [eachOrbit length].
    unfold rbind at 1. unfold rret at 1.
    change (Z.to_nat (SAT_POOL - Z.of_nat (@length Sat [])))
      with (S 199).
    pose proof (topUp_no_orbits 199 [] st) as H.
    unfold rbind, rret.
    destruct (topUp [] (S 199) [] st) as [r s1].
    cbn [fst] in *. rewrite H. reflexivity.
Qed.

Lemma generateSats_pool_witness :
  exists l, satData = Some l /\ length l = Z.to_nat SAT_POOL.
Proof.
  destruct satData_defined as [l [Hl _]].
  exists l. split; [exact Hl |].
  destruct (generateSats_pool ORBIT_DEFS 13%Z) as [H _].
  apply (H l Hl).
Defined.

(** ** Post-processing by chapter *)

Lemma chapter_P3 : getChapter PHASES.P3 = 3%nat.
Proof. unfold PHASES.P3. chapter_at 0.6. Qed.

Lemma chapter_P4 : getChapter PHASES.P4 = 4%nat.
Proof. unfold PHASES.P4. chapter_at 0.8. Qed.

(** X27. The post-processing [_post] sets on a frame with progress [p]:
    the bloom strength is within [0.28, 0.55], the chromatic offset within
    [0.0005, 0.002], the grain intensity is 0.07 in chapter 4 and 0.035
    elsewhere; before chapter 3 bloom and offset are at their lowest
    values; within a chapter both can only rise with the progress; and on
    entering chapter 3 and on entering chapter 4 the bloom is 0.28. *)
Theorem post_effects_by_chapter (t p q : R) :
  let post := fun x => _post t (getChapter x) (loop_p3 x) (loop_p4 x) in
  (0.28 <= bloomStrength (post p) <= 0.55 /\
   0.0005 <= chromaOffset (post p) <= 0.002 /\
   grainTime (post p) = t /\
   grainIntensity (post p) =
     if (getChapter p =? 4)%nat then 0.07 else 0.035) /\
  ((getChapter p < 3)%nat ->
     bloomStrength (post p) = 0.28 /\ chromaOffset (post p) = 0.0005) /\
  (p <= q -> getChapter p = getChapter q ->
     bloomStrength (post p) <= bloomStrength (post q) /\
     chromaOffset (post p) <= chromaOffset (post q)) /\
  bloomStrength (post PHASES.P3) = 0.28 /\
  bloomStrength (post PHASES.P4) = 0.28.
Proof.
  intros post. unfold post, _post.
  cbn [bloomStrength chromaOffset grainTime grainIntensity].
  pose proof (loop_phase_bounds 3 p) as B3. pose proof (loop_phase_bounds 4 p) as B4.
  cbn [loop_phase] in B3, B4.
  split; [| split; [| split; [| split]]].
  - split; [| split; [| split; reflexivity]].
    + destruct (getChapter p =? 4)%nat; [unfold lerp; nra |].
      destruct (getChapter p =? 3)%nat; [unfold lerp; nra | lra].
    + destruct (3 <=? getChapter p)%nat; [| lra].
      destruct (getChapter p =? 4)%nat; unfold lerp; nra.
  - intros H.
    replace (getChapter p =? 4)%nat with false
      by (symmetry; apply Nat.eqb_neq; lia).
    replace (getChapter p =? 3)%nat with false
      by (symmetry; apply Nat.eqb_neq; lia).
    replace (3 <=? getChapter p)%nat with false
      by (symmetry; apply Nat.leb_gt; lia).
    split; reflexivity.
  - intros Hpq Hch. rewrite <- Hch.
    pose proof (loop_phase_mono 3 p q Hpq) as M3.
    pose proof (loop_phase_mono 4 p q Hpq) as M4.
    cbn [loop_phase] in M3, M4.
    split.
    + destruct (getChapter p =? 4)%nat; [unfold lerp; nra |].
      destruct (getChapter p =? 3)%nat; [unfold lerp; nra | lra].
    + destruct (3 <=? getChapter p)%nat; [| lra].
      destruct (getChapter p =? 4)%nat; unfold lerp; nra.
  - rewrite chapter_P3. cbn [Nat.eqb].
    unfold loop_p3. rewrite remap_at_lo, smootherstep_0
      by (unfold PHASES.P3, PHASES.P4; lra).
    unfold lerp. lra.
  - rewrite chapter_P4. cbn [Nat.eqb].
    unfold loop_p4. rewrite remap_at_lo, smootherstep_0
      by (unfold PHASES.P4; lra).
    unfold lerp. lra.
Qed.

Lemma post_effects_by_chapter_witness :
  bloomStrength (_post 1 (getChapter 0.5) (loop_p3 0.5) (loop_p4 0.5)) = 0.28.
Proof.
  destruct (post_effects_by_chapter 1 0.5 0.5) as [_ [H _]].
  destruct H as [H _]; [rewrite chapter_0_5; lia | exact H].
Defined.

(** ** The earlier app's progress *)

Lemma appSmooths_gap (n : nat) (raw0 s : R) :
  Scene.appSmooths n raw0 s - raw0 = 0.93 ^ n * (s - raw0).
Proof.
  revert s. induction n as [| n IH]; intros s.
  - cbn. ring.
  - cbn [Scene.appSmooths]. rewrite IH. unfold Scene.appSmooth.
    rewrite <- tech_pow_Rmult.
    replace (s + (raw0 - s) * 0.07 - raw0) with (0.93 * (s - raw0)) by lra.
    ring.
Qed.

(** X28. The progress of the earlier app: a scroll event stores a value
    of [0,1]; with the raw value held, [n] smoothing frames leave exactly
    [0.93^n] of the gap between smoothed and raw value, so the smoothed
    value stays between where it was and the raw value, stays in [0,1] when
    both are, and never equals the raw value unless it did at the start. *)
Theorem scene_smoothing_never_lands (n : nat) (raw0 s : R) :
  (forall y h ih, 0 <= Scene.scrollProgress y h ih <= 1) /\
  Scene.appSmooths n raw0 s - raw0 = 0.93 ^ n * (s - raw0) /\
  (s <= raw0 -> s <= Scene.appSmooths n raw0 s <= raw0) /\
  (raw0 <= s -> raw0 <= Scene.appSmooths n raw0 s <= s) /\
  (0 <= raw0 <= 1 -> 0 <= s <= 1 -> 0 <= Scene.appSmooths n raw0 s <= 1) /\
  (s <> raw0 -> Scene.appSmooths n raw0 s <> raw0).
Proof.
  pose proof (appSmooths_gap n raw0 s) as G.
  assert (Hk : 0 < 0.93 ^ n <= 1).
  { split; [apply pow_lt; lra |].
    rewrite <- (pow1 n). apply pow_incr. lra. }
  assert (Hlo : s <= raw0 -> s <= Scene.appSmooths n raw0 s <= raw0)
    by (intros H; split; nra).
  assert (Hhi : raw0 <= s -> raw0 <= Scene.appSmooths n raw0 s <= s)
    by (intros H; split; nra).
  split; [| split; [exact G | split; [exact Hlo | split; [exact Hhi | split]]]].
  - intros y h ih. unfold Scene.scrollProgress, Rgtb.
    destruct (Rltb 0 (h - ih)); [apply clamp_bounds |]; lra.
  - intros Hr Hs. destruct (Rle_dec s raw0) as [H | H].
    + specialize (Hlo H). lra.
    + assert (H' : raw0 <= s) by lra. specialize (Hhi H'). lra.
  - intros Hne E. rewrite E in G.
    replace (raw0 - raw0) with 0 in G by ring.
    symmetry in G. apply Rmult_integral in G. destruct G as [G | G]; lra.
Qed.

Lemma scene_smoothing_never_lands_witness :
  0 <= Scene.appSmooths 100 1 0 <= 1.
Proof.
  destruct (scene_smoothing_never_lands 100 1 0) as [_ [_ [_ [_ [H _]]]]].
  apply H; lra.
Defined.

(** * Part IV: the debris shell on a run through a collision *)

(** ** The collision radius at the crossing *)






(** ** The first particle along the run *)












